(** * storey: a shallow embedding of [storey/flow.py]

    The pipeline engine is modelled over an explicit object store: every
    [Flow] instance is a numbered entry of the store, an outlet list holds
    references, and the methods of the Python classes are computations in a
    state-and-exception monad over that store. *)

From Stdlib Require Import ZArith Ascii.
From stdpp Require Import gmap strings list pretty.

#[local] Set Warnings "-register-all".

Local Open Scope Z_scope.
Local Open Scope string_scope.
Local Open Scope list_scope.

(** ** Python values, exceptions and the marker *)

(** An exception instance: its class, its message and the [__cause__] set by
    [raise ... from ...]. *)
Inductive exn : Type :=
| Exc (cls : string) (msg : string) (cause : option exn).

Definition IndexError : exn := Exc "IndexError" "list index out of range" None.
Definition AttributeError (msg : string) : exn := Exc "AttributeError" msg None.
Definition TypeError (msg : string) : exn := Exc "TypeError" msg None.
Definition ValueError (msg : string) : exn := Exc "ValueError" msg None.
Definition KeyError (msg : string) : exn := Exc "KeyError" msg None.
Definition NotImplementedError : exn := Exc "NotImplementedError" "" None.
Definition Exception (msg : string) : exn := Exc "Exception" msg None.

(** [class FlowException(Exception)]; [raise FlowException(msg) from ex]. *)
Definition FlowException (msg : string) (cause : option exn) : exn :=
  Exc "FlowException" msg cause.

(** A Python float: a finite dyadic number [m * 2^e], an infinity or NaN. *)
Inductive pyfloat : Type :=
| FFinite (m e : Z)
| FInf (negative : bool)
| FNan.

(** The elements that travel through a pipeline. *)
Inductive value : Type :=
| VNone
| VBool (b : bool)
| VInt (z : Z)
| VFloat (f : pyfloat)
| VStr (s : string)
| VList (items : list value)
| VDict (entries : list (string * value)).

(** What a node is asked to process: an ordinary element, or the module-level
    [_termination_obj], recognised by identity
    ([element is _termination_obj]). *)
Inductive payload : Type :=
| Elem (v : value)
| TerminationObj.

(** How a call ends.  [OutOfFuel] belongs to the model only: it is the answer
    of a fuel-bounded interpreter that was given too little fuel. *)
Inductive outcome (A : Type) : Type :=
| Returns (a : A)
| Raises (e : exn)
| OutOfFuel.
Arguments Returns {A} a.
Arguments Raises {A} e.
Arguments OutOfFuel {A}.

(** A user callable: it returns or raises, and it does so without waiting.
    This is a plain function, or a coroutine function whose body never
    suspends; a callable that waits on something is outside the model. *)
Definition callable1 : Type := value -> outcome value.
Definition callable2 : Type := value -> value -> outcome value.

(** ** The object store *)

(** An entry of a pipeline definition, and an entry of an outlet list: a
    reference to a [Flow] instance or a Python list of such entries. *)
Inductive pyobj : Type :=
| PNode (id : nat)
| PList (items : list pyobj).

(** [asyncio.futures.Future]: pending, or resolved by [set_result]. *)
Inductive future : Type :=
| Pending
| Resolved (r : value).

(** Where the thread of a [Source] stands: not created, started by
    [Source.run], inside the [while True] of [_run_loop], past its [break],
    finished after [_termination_q.put], or dead from an exception that
    left [_run_loop]. *)
Inductive thread_pc : Type :=
| NoThread
| Starting
| InLoop
| LoopExited
| ThreadFinished
| ThreadDied.

(** The attributes [Source.__init__] and [_run_loop] give a [Source]:
    [_q] with its [maxsize], [_termination_q], [_ex], and
    [_termination_future], which does not exist before [_run_loop] starts;
    and the control point of its thread. *)
Record source_state : Type := mkSource {
  buffer_size : nat;
  src_q : list payload;
  src_termination_q : list (option exn);
  src_ex : option exn;
  src_termination_future : option future;
  src_thread : thread_pc
}.

(** A response of the remote table: [response.status] and
    [await response.text()]. *)
Record response : Type := mkResponse {
  status : Z;
  text : string
}.

(** An entry of [JoinWithTable._q]: the pair [(element, task)], whose task is
    represented by what awaiting it gives, or the marker. *)
Inductive job : Type :=
| Job (element : value) (request : outcome response)
| JobTermination.

(** [_worker_awaitable]: the task running [_worker], not done yet or done,
    with the exception that ended it if one did. *)
Inductive task_state : Type :=
| TaskRunning
| TaskDone (failure : option exn).

(** [aiohttp.ClientSession], open until [close()]. *)
Inductive client_session : Type :=
| SessionOpen
| SessionClosed.

(** What [_lazy_init] creates: the session, the queue of capacity 8 and the
    worker task.  Before the first [do] the attributes are [None] or absent. *)
Record join_runtime : Type := mkJoinRuntime {
  join_session : client_session;
  join_q : list job;
  join_worker : task_state
}.

(** The concrete classes of [flow.py] with their own attributes.  For
    [JoinWithTable], [get_item key] stands for the remote table: what the
    request [self._client_session.put(f'{webapi}/{table_path}/{key}', ...)]
    resolves to. *)
Inductive node_class : Type :=
| Source (st : source_state)
| Map (fn : callable1)
| Filter (fn : callable1)
| FlatMap (fn : callable1)
| Reduce (fn : callable2) (result : value)
| JoinWithTable (key_extractor : callable1) (join_function : callable2)
                (get_item : value -> outcome response)
                (rt : option join_runtime).

(** A [Flow] instance: [_outlets] and [_termination_result_fn] of the base
    class, and the subclass part. *)
Record node : Type := mkNode {
  cls : node_class;
  outlets : list pyobj;
  termination_result_fn : callable2
}.

(** [lambda x, y: None], the default of [Flow.__init__]. *)
Definition default_termination_result_fn : callable2 :=
  fun _ _ => Returns VNone.

(** The part of the process the code can see or change: the instances and
    what was printed. *)
Record world : Type := mkWorld {
  nodes : gmap nat node;
  stdout : list string
}.

(** ** The monad of method bodies *)

Definition M (A : Type) : Type := world -> world * outcome A.

Definition ret {A} (a : A) : M A := fun w => (w, Returns a).
Definition raise {A} (e : exn) : M A := fun w => (w, Raises e).
Definition out_of_fuel {A} : M A := fun w => (w, OutOfFuel).

Definition bind {A B} (c : M A) (k : A -> M B) : M B :=
  fun w =>
    match c w with
    | (w', Returns a) => k a w'
    | (w', Raises e) => (w', Raises e)
    | (w', OutOfFuel) => (w', OutOfFuel)
    end.

(** [try: c  except BaseException as ex: h ex]. *)
Definition try_except {A} (c : M A) (h : exn -> M A) : M A :=
  fun w =>
    match c w with
    | (w', Raises e) => h e w'
    | r => r
    end.

(** [try: c  finally: f]. *)
Definition try_finally {A} (c : M A) (f : M unit) : M A :=
  fun w =>
    match c w with
    | (w', r) =>
        match f w' with
        | (w'', Returns _) => (w'', r)
        | (w'', Raises e) => (w'', Raises e)
        | (w'', OutOfFuel) => (w'', OutOfFuel)
        end
    end.

Definition lift {A} (o : outcome A) : M A := fun w => (w, o).

Declare Scope py_scope.
Delimit Scope py_scope with py.
Notation "x <- c ;; k" := (bind c (fun x => k))
  (at level 100, c at next level, k at level 200, right associativity)
  : py_scope.
Notation "c ;; k" := (bind c (fun _ => k))
  (at level 100, k at level 200, right associativity) : py_scope.
Local Open Scope py_scope.

(** [print(line)]. *)
Definition print (line : string) : M unit :=
  fun w => (mkWorld (nodes w) (stdout w ++ [line]), Returns tt).

(** A reference always designates a live instance in Python; the model
    answers a reference that is not in the store with this exception. *)
Definition dangling : exn := Exc "SystemError" "dangling reference" None.

Definition get_node (id : nat) : M node :=
  fun w =>
    match nodes w !! id with
    | Some n => (w, Returns n)
    | None => (w, Raises dangling)
    end.

Definition set_node (id : nat) (n : node) : M unit :=
  fun w => (mkWorld (<[id := n]> (nodes w)) (stdout w), Returns tt).

(** ** [Flow.to], [Reduce.to] *)

Definition append_outlet (n : node) (outlet : pyobj) : node :=
  mkNode (cls n) (outlets n ++ [outlet]) (termination_result_fn n).

(** [self.to(outlet)]: [Reduce] overrides it to raise, a list has no such
    attribute, every other class appends and returns the outlet. *)
Definition to (self : pyobj) (outlet : pyobj) : M pyobj :=
  match self with
  | PList _ => raise (AttributeError "'list' object has no attribute 'to'")
  | PNode id =>
      n <- get_node id ;;
      match cls n with
      | Reduce _ _ => raise (Exception "Non-terminal Reduce")
      | _ => set_node id (append_outlet n outlet) ;; ret outlet
      end
  end.

(** ** [build_flow] *)

(** Evaluating the attribute [self.to].  In [cur_step.to(build_flow(...))]
    Python looks the method up before it evaluates the argument, so a list
    as [cur_step] raises before the branch is built. *)
Definition bound_to (self : pyobj) : M unit :=
  match self with
  | PList _ => raise (AttributeError "'list' object has no attribute 'to'")
  | PNode _ => ret tt
  end.

(** [for next_step in steps[1:]: ...] of [build_flow], with the loop variable
    [cur_step]; [build] is the recursive call. *)
Definition build_flow_loop (build : pyobj -> M pyobj)
  : list pyobj -> pyobj -> M unit :=
  fix loop (rest : list pyobj) (cur_step : pyobj) : M unit :=
    match rest with
    | [] => ret tt
    | next_step :: rest' =>
        match next_step with
        | PList _ =>
            bound_to cur_step ;;
            sub <- build next_step ;;
            to cur_step sub ;;
            loop rest' cur_step
        | PNode _ =>
            to cur_step next_step ;;
            loop rest' next_step
        end
    end.

(** [build_flow] applied to an object; the recursion follows the nesting of
    the lists. *)
Fixpoint build_flow_obj (steps : pyobj) : M pyobj :=
  match steps with
  | PNode _ => raise (TypeError "object of type 'Flow' has no len()")
  | PList [] =>
      print "Cannot build an empty flow" ;;
      raise IndexError
  | PList (first :: rest) =>
      build_flow_loop build_flow_obj rest first ;;
      ret first
  end.

Definition build_flow (steps : list pyobj) : M pyobj :=
  build_flow_obj (PList steps).


(** ** Python built-ins used by the methods *)

(** [l[i]] for a non-negative index. *)
Definition index {A} (l : list A) (i : nat) : M A :=
  match l !! i with
  | Some x => ret x
  | None => raise IndexError
  end.

(** [bool(v)], as taken by [if v:]. *)
Definition truthy (v : value) : bool :=
  match v with
  | VNone => false
  | VBool b => b
  | VInt z => negb (Z.eqb z 0)
  | VFloat (FFinite m _) => negb (Z.eqb m 0)
  | VFloat _ => true
  | VStr s => negb (String.eqb s "")
  | VList items => negb (Nat.eqb (length items) 0)
  | VDict entries => negb (Nat.eqb (length entries) 0)
  end.

Fixpoint chars (s : string) : list value :=
  match s with
  | EmptyString => []
  | String c s' => VStr (String c EmptyString) :: chars s'
  end.

(** The items [for x in v] goes through. *)
Definition py_iter (v : value) : outcome (list value) :=
  match v with
  | VList items => Returns items
  | VStr s => Returns (chars s)
  | VDict entries => Returns (map (fun kv => VStr (fst kv)) entries)
  | _ => Raises (TypeError "object is not iterable")
  end.

(** [d.items()]. *)
Definition items (v : value) : outcome (list (string * value)) :=
  match v with
  | VDict entries => Returns entries
  | _ => Raises (AttributeError "object has no attribute 'items'")
  end.

(** [d[key] = val] on the entries of a dict: an existing key keeps its
    place, a new key goes last. *)
Fixpoint dict_set (entries : list (string * value)) (key : string) (val : value)
  : list (string * value) :=
  match entries with
  | [] => [(key, val)]
  | (k, v) :: rest =>
      if String.eqb k key then (k, val) :: rest
      else (k, v) :: dict_set rest key val
  end.

(** [d[key]] on the entries of a dict. *)
Fixpoint dict_get (entries : list (string * value)) (key : string)
  : option value :=
  match entries with
  | [] => None
  | (k, v) :: rest => if String.eqb k key then Some v else dict_get rest key
  end.

(** [v[key]] for a string key. *)
Definition getitem (v : value) (key : string) : outcome value :=
  match v with
  | VDict entries =>
      match dict_get entries key with
      | Some x => Returns x
      | None => Raises (KeyError key)
      end
  | _ => Raises (TypeError "object is not subscriptable by a string")
  end.

(** ** [Flow._do_downstream] *)

Section Dispatch.

(** [outlet.do(element)] run to completion, whatever class the outlet is. *)
Variable do_ : pyobj -> payload -> M value.

(** [for i in range(i, i + count): termination_result =
    self._termination_result_fn(termination_result,
                                await self._outlets[i].do(_termination_obj))] *)
Fixpoint fold_termination (outs : list pyobj) (fn : callable2)
    (i count : nat) (termination_result : value) : M value :=
  match count with
  | O => ret termination_result
  | S count' =>
      outlet <- index outs i ;;
      r <- do_ outlet TerminationObj ;;
      termination_result' <- lift (fn termination_result r) ;;
      fold_termination outs fn (S i) count' termination_result'
  end.

(** Evaluating [self._outlets[i].do] when the task is created: a list has
    no such attribute. *)
Definition bound_do (outlet : pyobj) : M pyobj :=
  match outlet with
  | PNode _ => ret outlet
  | PList _ => raise (AttributeError "'list' object has no attribute 'do'")
  end.

(** The first loop of the data branch: one task per outlet, in order. *)
Fixpoint create_tasks (outs : list pyobj) : M (list pyobj) :=
  match outs with
  | [] => ret []
  | outlet :: rest =>
      t <- bound_do outlet ;;
      ts <- create_tasks rest ;;
      ret (t :: ts)
  end.

(** The event loop runs the created tasks in creation order while the
    creator waits in its first [await].  A task is modelled by its run to
    completion: it leaves its effects and an outcome, and a failed task
    does not stop the later ones.  This is the schedule of asyncio for
    tasks that finish without waiting; tasks that wait on tasks of their
    own are interleaved by the event loop at those points, which the model
    does not follow. *)
Fixpoint run_tasks (tasks : list pyobj) (element : payload)
  : M (list (outcome value)) :=
  match tasks with
  | [] => ret []
  | t :: ts =>
      fun w =>
        match do_ t element w with
        | (w', OutOfFuel) => (w', OutOfFuel)
        | (w', r) => bind (run_tasks ts element) (fun rs => ret (r :: rs)) w'
        end
  end.

(** [for task in tasks: await task]: the first failed task, in creation
    order, raises in the creator. *)
Fixpoint await_tasks (results : list (outcome value)) : M unit :=
  match results with
  | [] => ret tt
  | r :: rest => lift r ;; await_tasks rest
  end.

(** [Flow._do_downstream(self, element)]. *)
Definition _do_downstream (self : nat) (element : payload) : M value :=
  n <- get_node self ;;
  match element with
  | TerminationObj =>
      outlet0 <- index (outlets n) 0 ;;
      termination_result <- do_ outlet0 TerminationObj ;;
      fold_termination (outlets n) (termination_result_fn n)
        1 (length (outlets n) - 1) termination_result
  | Elem _ =>
      tasks <- create_tasks (outlets n) ;;
      results <- run_tasks tasks element ;;
      await_tasks results ;;
      ret VNone
  end.

End Dispatch.

(** ** [UnaryFunctionFlow] and its subclasses *)

Section UnaryFunctionFlow.

(** [self._do_downstream], bound to the instance. *)
Variable self_do_downstream : payload -> M value.

(** [Map._do_internal(self, element, mapped_elem)]. *)
Definition Map_do_internal (element mapped_elem : value) : M unit :=
  self_do_downstream (Elem mapped_elem) ;; ret tt.

(** [Filter._do_internal(self, element, keep)]. *)
Definition Filter_do_internal (element keep : value) : M unit :=
  if truthy keep then self_do_downstream (Elem element) ;; ret tt
  else ret tt.

(** The body of [for result_element in result_elements:
    await self._do_downstream(result_element)]. *)
Fixpoint forward_each (result_elements : list value) : M unit :=
  match result_elements with
  | [] => ret tt
  | result_element :: rest =>
      self_do_downstream (Elem result_element) ;;
      forward_each rest
  end.

(** [FlatMap._do_internal(self, element, result_elements)]. *)
Definition FlatMap_do_internal (element result_elements : value) : M unit :=
  its <- lift (py_iter result_elements) ;;
  forward_each its.

(** [UnaryFunctionFlow.do(self, element)]; [_call] awaits the function's
    result when the function is a coroutine function, so in both cases
    [fn_result] is what the function returns or raises. *)
Definition UnaryFunctionFlow_do (fn : callable1)
    (do_internal : value -> value -> M unit) (element : payload) : M value :=
  match element with
  | TerminationObj => self_do_downstream TerminationObj
  | Elem v =>
      fn_result <- lift (fn v) ;;
      do_internal v fn_result ;;
      ret VNone
  end.

End UnaryFunctionFlow.

(** ** [Reduce] *)

(** [Reduce.do(self, element)]. *)
Definition Reduce_do (self : nat) (element : payload) : M value :=
  n <- get_node self ;;
  match cls n with
  | Reduce fn result =>
      match element with
      | TerminationObj => ret result
      | Elem v =>
          res <- lift (fn result v) ;;
          set_node self (mkNode (Reduce fn res) (outlets n)
                                (termination_result_fn n)) ;;
          ret VNone
      end
  | _ => raise (TypeError "not a Reduce")
  end.

(** ** [JoinWithTable]: decoding a response *)

(** The two library functions [_parse_response] calls on texts that this
    development does not interpret: [json.loads] and [float]. *)
Class PythonLib : Type := {
  json_loads : string -> outcome value;
  float_of_str : string -> outcome pyfloat
}.

Definition obind {A B} (o : outcome A) (k : A -> outcome B) : outcome B :=
  match o with
  | Returns a => k a
  | Raises e => Raises e
  | OutOfFuel => OutOfFuel
  end.

Notation "x <~ c ;; k" := (obind c (fun x => k))
  (at level 100, c at next level, k at level 200, right associativity)
  : py_scope.

Definition is_digit (c : Ascii.ascii) : bool :=
  (48 <=? Ascii.nat_of_ascii c)%nat && (Ascii.nat_of_ascii c <=? 57)%nat.

Definition is_minus (c : Ascii.ascii) : bool :=
  Nat.eqb (Ascii.nat_of_ascii c) 45.

(** [_non_int_char_pattern.search(value)] for
    [_non_int_char_pattern = re.compile(r"[^-0-9]")]: is there a character
    that is neither ['-'] nor a digit. *)
Fixpoint non_int_char_pattern_search (s : string) : bool :=
  match s with
  | EmptyString => false
  | String c s' =>
      negb (is_minus c || is_digit c) || non_int_char_pattern_search s'
  end.

(** The number written by a run of decimal digits, most significant first. *)
Fixpoint digits_to_Z (s : string) (acc : Z) : option Z :=
  match s with
  | EmptyString => Some acc
  | String c s' =>
      if is_digit c
      then digits_to_Z s' (10 * acc + (Z.of_nat (Ascii.nat_of_ascii c) - 48))
      else None
  end.

Definition int_error : exn :=
  ValueError "invalid literal for int() with base 10".

(** [int(value)] on the texts [_parse_response] passes to it, which hold
    nothing but ['-'] and digits: one or more digits, after at most one
    leading ['-']. *)
Definition py_int (s : string) : outcome Z :=
  match s with
  | EmptyString => Raises int_error
  | String c s' =>
      if is_minus c then
        match s' with
        | EmptyString => Raises int_error
        | _ => match digits_to_Z s' 0 with
               | Some z => Returns (- z)
               | None => Raises int_error
               end
        end
      else match digits_to_Z s 0 with
           | Some z => Returns z
           | None => Raises int_error
           end
  end.

(** [repr] of a string, as [f'{typ!r}'] writes it: the text between
    quotes, single ones unless the text holds a single quote and no double
    one.  A backslash and the chosen quote are escaped; tab, newline and
    carriage return are written [\t], [\n], [\r] and the other control
    characters [\xNN].  Characters above 127 are kept as they are, which
    is what [repr] does with the printable ones. *)
Definition single_quote : Ascii.ascii := Ascii.ascii_of_nat 39.
Definition double_quote : Ascii.ascii := Ascii.ascii_of_nat 34.
Definition backslash : Ascii.ascii := Ascii.ascii_of_nat 92.

Fixpoint string_has (c : Ascii.ascii) (s : string) : bool :=
  match s with
  | EmptyString => false
  | String c' s' => Ascii.eqb c c' || string_has c s'
  end.

Definition hex_digit (n : nat) : Ascii.ascii :=
  Ascii.ascii_of_nat (if (n <? 10)%nat then 48 + n else 87 + n).

Definition repr_char (quote c : Ascii.ascii) : string :=
  let n := Ascii.nat_of_ascii c in
  if Ascii.eqb c backslash || Ascii.eqb c quote
  then String backslash (String c EmptyString)
  else if (n =? 9)%nat then String backslash "t"
  else if (n =? 10)%nat then String backslash "n"
  else if (n =? 13)%nat then String backslash "r"
  else if (n <? 32)%nat || (n =? 127)%nat
  then String backslash
         (String "x"
            (String (hex_digit (n / 16))
               (String (hex_digit (n mod 16)) EmptyString)))
  else String c EmptyString.

Fixpoint repr_body (quote : Ascii.ascii) (s : string) : string :=
  match s with
  | EmptyString => EmptyString
  | String c s' => (repr_char quote c ++ repr_body quote s')%string
  end.

Definition repr_str (s : string) : string :=
  let quote :=
    if string_has single_quote s && negb (string_has double_quote s)
    then double_quote else single_quote in
  String quote (repr_body quote s ++ String quote EmptyString)%string.

Section ParseResponse.
Context `{PythonLib}.

(** The body of the inner loop of [_parse_response]: the new [val]. *)
Definition decode_attribute (typ : string) (v : value) : outcome value :=
  if String.eqb typ "S" || String.eqb typ "BOOL" then Returns v
  else if String.eqb typ "N" then
    match v with
    | VStr s =>
        if non_int_char_pattern_search s
        then f <~ float_of_str s ;; Returns (VFloat f)
        else z <~ py_int s ;; Returns (VInt z)
    | _ => Raises (TypeError "expected string or bytes-like object")
    end
  else Raises (Exception ("Unsupported type: " ++ repr_str typ)%string).

(** [for typ, value in type_to_value.items(): ...], from the current [val]. *)
Fixpoint decode_type_to_value (entries : list (string * value)) (val : value)
  : outcome value :=
  match entries with
  | [] => Returns val
  | (typ, v) :: rest =>
      val' <~ decode_attribute typ v ;;
      decode_type_to_value rest val'
  end.

(** [for name, type_to_value in response_object.items(): ...], over the
    entries that remain to be visited, with the dict as it stands. *)
Fixpoint decode_item (todo response_object : list (string * value))
  : outcome (list (string * value)) :=
  match todo with
  | [] => Returns response_object
  | (name, type_to_value) :: rest =>
      entries <~ items type_to_value ;;
      val <~ decode_type_to_value entries VNone ;;
      decode_item rest (dict_set response_object name val)
  end.

(** [JoinWithTable._parse_response(self, response_body)]. *)
Definition _parse_response (response_body : string) : outcome value :=
  document <~ json_loads response_body ;;
  response_object <~ getitem document "Item" ;;
  entries <~ items response_object ;;
  decoded <~ decode_item entries entries ;;
  Returns (VDict decoded).

End ParseResponse.

(** ** [JoinWithTable]: the worker and [do] *)

(** The attributes [_lazy_init] has set; before it they do not exist. *)
Definition get_join_runtime (self : nat) : M join_runtime :=
  n <- get_node self ;;
  match cls n with
  | JoinWithTable _ _ _ (Some rt) => ret rt
  | JoinWithTable _ _ _ None =>
      raise (AttributeError "'JoinWithTable' object has no attribute '_q'")
  | _ => raise (TypeError "not a JoinWithTable")
  end.

Definition set_join_runtime (self : nat) (rt : join_runtime) : M unit :=
  n <- get_node self ;;
  match cls n with
  | JoinWithTable key_extractor join_function get_item _ =>
      set_node self
        (mkNode (JoinWithTable key_extractor join_function get_item (Some rt))
                (outlets n) (termination_result_fn n))
  | _ => raise (TypeError "not a JoinWithTable")
  end.

Definition get_join_function (self : nat) : M callable2 :=
  n <- get_node self ;;
  match cls n with
  | JoinWithTable _ join_function _ _ => ret join_function
  | _ => raise (TypeError "not a JoinWithTable")
  end.

(** [asyncio.queues.Queue(8)]. *)
Definition join_q_maxsize : nat := 8.

(** The exception of a status that is neither 200 nor 404. *)
Definition get_item_error (r : response) : exn :=
  Exception ("get item. status code - " ++ pretty (status r) ++ ": "
               ++ text r)%string.

Section JoinWithTable.
Context `{PythonLib}.

(** [outlet.do(element)], as in [Dispatch]. *)
Variable do_ : pyobj -> payload -> M value.

(** One turn of the [while True] of [_worker] after [job] was taken from
    the queue and found not to be the marker. *)
Definition _worker_job (self : nat) (element : value)
    (request : outcome response) : M unit :=
  response <- lift request ;;
  let response_body := text response in
  response_object <-
    (if Z.eqb (status response) 200 then
       parsed <- lift (_parse_response response_body) ;; ret (Some parsed)
     else if Z.eqb (status response) 404 then ret None
     else raise (get_item_error response)) ;;
  match response_object with
  | Some record =>
      if truthy record then
        join_function <- get_join_function self ;;
        joined_element <- lift (join_function element record) ;;
        _do_downstream do_ self (Elem joined_element) ;;
        ret tt
      else ret tt
  | None => ret tt
  end.

(** At most [n] turns of the [while True] of [_worker]; the answer tells
    whether the loop was left by [break].  The loop waits in
    [await self._q.get()] when the queue is empty. *)
Fixpoint _worker_loop (n : nat) (self : nat) : M bool :=
  match n with
  | O => ret false
  | S n' =>
      rt <- get_join_runtime self ;;
      match join_q rt with
      | [] => ret false
      | j :: q' =>
          set_join_runtime self
            (mkJoinRuntime (join_session rt) q' (join_worker rt)) ;;
          match j with
          | JobTermination => ret true
          | Job element request =>
              _worker_job self element request ;;
              _worker_loop n' self
          end
      end
  end.

(** [if not self._q.empty(): await self._q.get()]. *)
Definition drain_one (self : nat) : M unit :=
  rt <- get_join_runtime self ;;
  set_join_runtime self
    (mkJoinRuntime (join_session rt) (tail (join_q rt)) (join_worker rt)).

(** The end of the task: [finally: await self._client_session.close()],
    after which the task is done. *)
Definition worker_exit (self : nat) (failure : option exn) : M unit :=
  rt <- get_join_runtime self ;;
  set_join_runtime self
    (mkJoinRuntime SessionClosed (join_q rt) (TaskDone failure)).

(** [JoinWithTable._worker(self)], scheduled for at most [n] turns of its
    loop.  Nothing is raised to the scheduler: the task keeps its own
    result. *)
Definition _worker (n : nat) (self : nat) : M unit :=
  fun w =>
    match _worker_loop n self w with
    | (w', Returns false) => (w', Returns tt)
    | (w', Returns true) => worker_exit self None w'
    | (w', Raises ex) =>
        (drain_one self ;; worker_exit self (Some ex)) w'
    | (w', OutOfFuel) => (w', OutOfFuel)
    end.

(** [JoinWithTable._lazy_init(self)]. *)
Definition _lazy_init (self : nat) : M unit :=
  set_join_runtime self (mkJoinRuntime SessionOpen [] TaskRunning).

(** [await self._worker_awaitable] once the task is done: its exception is
    raised again, its normal end gives nothing. *)
Definition await_done (failure : option exn) : M unit :=
  match failure with
  | Some ex => raise ex
  | None => ret tt
  end.

(** [await self._worker_awaitable]: a task that is done answers at once,
    with its exception if it has one; otherwise the worker is scheduled
    until it is done.  Should its queue leave it waiting instead, the
    caller would wait for ever, which the model answers with
    [OutOfFuel]. *)
Definition await_worker (self : nat) : M unit :=
  rt <- get_join_runtime self ;;
  match join_worker rt with
  | TaskDone failure => await_done failure
  | TaskRunning =>
      _worker (length (join_q rt)) self ;;
      rt' <- get_join_runtime self ;;
      match join_worker rt' with
      | TaskDone failure => await_done failure
      | TaskRunning => out_of_fuel
      end
  end.

(** [await self._q.put(j)]: when the queue is full the caller waits and
    the worker takes its next turn. *)
Definition join_q_put (self : nat) (j : job) : M unit :=
  rt <- get_join_runtime self ;;
  (if (join_q_maxsize <=? length (join_q rt))%nat
   then _worker 1 self else ret tt) ;;
  rt' <- get_join_runtime self ;;
  if (join_q_maxsize <=? length (join_q rt'))%nat then out_of_fuel
  else set_join_runtime self
         (mkJoinRuntime (join_session rt') (join_q rt' ++ [j])
                        (join_worker rt')).

(** [JoinWithTable.do(self, element)]. *)
Definition JoinWithTable_do (self : nat) (element : payload) : M value :=
  n <- get_node self ;;
  match cls n with
  | JoinWithTable key_extractor _ get_item rt0 =>
      (match rt0 with
       | None => _lazy_init self
       | Some _ => ret tt
       end) ;;
      rt <- get_join_runtime self ;;
      (match join_worker rt with
       | TaskDone failure =>
           await_done failure ;;
           raise (Exception "JoinWithTable worker has already terminated")
       | TaskRunning => ret tt
       end) ;;
      match element with
      | TerminationObj =>
          join_q_put self JobTermination ;;
          await_worker self ;;
          ret VNone
      | Elem v =>
          key <- lift (key_extractor v) ;;
          let task := get_item key in
          join_q_put self (Job v task) ;;
          rt' <- get_join_runtime self ;;
          (match join_worker rt' with
           | TaskDone failure => await_done failure
           | TaskRunning => ret tt
           end) ;;
          ret VNone
      end
  | _ => raise (TypeError "not a JoinWithTable")
  end.

End JoinWithTable.

(** ** Dynamic dispatch of [do] *)

Section Engine.
Context `{PythonLib}.

(** [await self.do(element)] for whatever [self] is, followed through at
    most [fuel] nested calls of [do]. *)
Fixpoint do_ (fuel : nat) (self : pyobj) (element : payload) : M value :=
  match fuel with
  | O => out_of_fuel
  | S fuel' =>
      match self with
      | PList _ =>
          raise (AttributeError "'list' object has no attribute 'do'")
      | PNode id =>
          n <- get_node id ;;
          let downstream := _do_downstream (do_ fuel') id in
          match cls n with
          | Source _ => raise NotImplementedError
          | Map fn =>
              UnaryFunctionFlow_do downstream fn
                (Map_do_internal downstream) element
          | Filter fn =>
              UnaryFunctionFlow_do downstream fn
                (Filter_do_internal downstream) element
          | FlatMap fn =>
              UnaryFunctionFlow_do downstream fn
                (FlatMap_do_internal downstream) element
          | Reduce _ _ => Reduce_do id element
          | JoinWithTable _ _ _ _ =>
              JoinWithTable_do (do_ fuel') id element
          end
      end
  end.

End Engine.

(** ** [Source] and [FlowController] *)

Definition get_source (self : nat) : M source_state :=
  n <- get_node self ;;
  match cls n with
  | Source st => ret st
  | _ => raise (TypeError "not a Source")
  end.

Definition set_source (self : nat) (st : source_state) : M unit :=
  n <- get_node self ;;
  match cls n with
  | Source _ =>
      set_node self (mkNode (Source st) (outlets n) (termination_result_fn n))
  | _ => raise (TypeError "not a Source")
  end.

Definition with_q (st : source_state) (q : list payload) : source_state :=
  mkSource (buffer_size st) q (src_termination_q st) (src_ex st)
           (src_termination_future st) (src_thread st).

Definition with_termination_q (st : source_state) (tq : list (option exn))
  : source_state :=
  mkSource (buffer_size st) (src_q st) tq (src_ex st)
           (src_termination_future st) (src_thread st).

Definition with_ex (st : source_state) (ex : option exn) : source_state :=
  mkSource (buffer_size st) (src_q st) (src_termination_q st) ex
           (src_termination_future st) (src_thread st).

Definition with_termination_future (st : source_state) (f : option future)
  : source_state :=
  mkSource (buffer_size st) (src_q st) (src_termination_q st) (src_ex st)
           f (src_thread st).

Definition with_thread (st : source_state) (pc : thread_pc) : source_state :=
  mkSource (buffer_size st) (src_q st) (src_termination_q st) (src_ex st)
           (src_termination_future st) pc.

(** What [Source(buffer_size)] constructs; [buffer_size > 0] is asserted. *)
Definition new_source (buffer_size : nat) : source_state :=
  mkSource buffer_size [] [] None None NoThread.

Definition InvalidStateError : exn :=
  Exc "InvalidStateError" "invalid state" None.

(** [self._termination_future.set_result(r)]. *)
Definition termination_future_set_result (self : nat) (r : value) : M unit :=
  st <- get_source self ;;
  match src_termination_future st with
  | Some Pending =>
      set_source self (with_termination_future st (Some (Resolved r)))
  | Some (Resolved _) => raise InvalidStateError
  | None =>
      raise (AttributeError
               "'Source' object has no attribute '_termination_future'")
  end.

(** [self._termination_future.result()]. *)
Definition termination_future_result (self : nat) : M value :=
  st <- get_source self ;;
  match src_termination_future st with
  | Some (Resolved r) => ret r
  | Some Pending => raise InvalidStateError
  | None =>
      raise (AttributeError
               "'Source' object has no attribute '_termination_future'")
  end.

(** [Source._raise_on_error(self, ex)]; an exception instance is true. *)
Definition _raise_on_error (self : nat) (ex : option exn) : M unit :=
  match ex with
  | Some _ =>
      st <- get_source self ;;
      raise (FlowException "execution error" (src_ex st))
  | None => ret tt
  end.

Definition is_termination (element : payload) : bool :=
  match element with
  | TerminationObj => true
  | Elem _ => false
  end.

(** A call that may have to wait: [None] when it cannot proceed from the
    given state. *)
Definition B (A : Type) : Type := world -> option (world * outcome A).

Definition atomic {A} (c : M A) : B A := fun w => Some (c w).

Section Source.
Context `{PythonLib}.

(** The statements of the [except BaseException as ex] clause of
    [_run_loop], one by one: [self._ex = ex]; the test [self._q.empty()];
    [self._q.get()] on a queue that holds an entry, whose value is
    dropped. *)
Definition record_ex (self : nat) (ex : exn) : M unit :=
  st <- get_source self ;;
  set_source self (with_ex st (Some ex)).

Definition q_empty (self : nat) : M bool :=
  st <- get_source self ;;
  ret (Nat.eqb (length (src_q st)) 0).

Definition q_drop (self : nat) : M unit :=
  st <- get_source self ;;
  set_source self (with_q st (tail (src_q st))).

(** The [except BaseException as ex] clause of [_run_loop], with no move
    of the caller between its statements. *)
Definition _run_loop_except (self : nat) (ex : exn) : M unit :=
  record_ex self ex ;;
  empty <- q_empty self ;;
  (if empty : bool then ret tt else q_drop self) ;;
  termination_future_set_result self VNone.

(** The body of the [try] of [_run_loop] for the [element] that
    [self._q.get] returned; the answer tells whether [element] is the
    marker. *)
Definition _run_loop_try (fuel : nat) (self : nat) (element : payload)
  : M bool :=
  termination_result <- _do_downstream (do_ fuel) self element ;;
  (match element with
   | TerminationObj =>
       termination_future_set_result self termination_result
   | Elem _ => ret tt
   end) ;;
  ret (is_termination element).

(** One turn of the [while True] of [_run_loop], from the [try] on, for
    the [element] that [self._q.get] returned; the answer tells whether
    the turn ends in [break]. *)
Definition _run_loop_turn (fuel : nat) (self : nat) (element : payload)
  : M bool :=
  try_except
    (_run_loop_try fuel self element)
    (fun ex => _run_loop_except self ex ;; ret true).

(** One move of the thread running [_loop_thread_main]: the start of
    [_run_loop], one turn of its loop, or the final
    [self._termination_q.put(self._ex)].  A turn is one move here, which
    is how the threads behave as long as the caller does not move inside
    the turn; [loop_step] below follows the turn statement by statement,
    and the two agree on a turn the caller does not interrupt. *)
Definition worker_step (fuel : nat) (self : nat) : B unit :=
  fun w =>
    match get_source self w with
    | (_, Returns st) =>
        match src_thread st with
        | Starting =>
            Some (set_source self
                    (with_thread (with_termination_future st (Some Pending))
                                 InLoop) w)
        | InLoop =>
            match src_q st with
            | [] => None
            | element :: rest =>
                Some (match (set_source self (with_q st rest) ;;
                             _run_loop_turn fuel self element) w with
                      | (w', Returns brk) =>
                          (st' <- get_source self ;;
                           set_source self
                             (with_thread st'
                                (if brk : bool then LoopExited else InLoop))) w'
                      | (w', Raises ex) =>
                          match (st' <- get_source self ;;
                           set_source self (with_thread st' ThreadDied)) w'
                          with
                          | (w'', _) => (w'', Raises ex)
                          end
                      | (w', OutOfFuel) => (w', OutOfFuel)
                      end)
            end
        | LoopExited =>
            match src_termination_q st with
            | [] =>
                Some (set_source self
                        (with_thread
                           (with_termination_q st [src_ex st])
                           ThreadFinished) w)
            | _ :: _ => None
            end
        | _ => None
        end
    | _ => None
    end.

(** Where the worker stands in a turn of its loop: at
    [self._q.get] (or outside the loop, where [src_thread] tells), holding
    the element it took, or in the [except] clause: before
    [self._ex = ex], before the test [self._q.empty()], before the
    [self._q.get()] that follows a queue found not empty, before
    [set_result(None)]. *)
Inductive turn_pc : Type :=
| AtGet
| Holding (element : payload)
| Caught (ex : exn)
| Recorded
| Draining
| Drained.

(** One move of the thread at the grain of the statements of [_run_loop],
    so that the caller can move between [self._q.get] and the [try], and
    between any two statements of the [except] clause; the answer is
    where the worker stands next.  Both calls of [self._q.get] wait on an
    empty queue.  An exception that leaves [_run_loop] ends the thread. *)
Definition loop_step (fuel : nat) (self : nat) (pc : turn_pc) : B turn_pc :=
  fun w =>
    match get_source self w with
    | (_, Returns st) =>
        match src_thread st, pc with
        | Starting, AtGet =>
            Some ((set_source self
                     (with_thread (with_termination_future st (Some Pending))
                                  InLoop) ;;
                   ret AtGet) w)
        | InLoop, AtGet =>
            match src_q st with
            | [] => None
            | element :: rest =>
                Some ((set_source self (with_q st rest) ;;
                       ret (Holding element)) w)
            end
        | InLoop, Holding element =>
            Some (match _run_loop_try fuel self element w with
                  | (w', Returns brk) =>
                      (st' <- get_source self ;;
                       set_source self
                         (with_thread st'
                            (if brk : bool then LoopExited else InLoop)) ;;
                       ret AtGet) w'
                  | (w', Raises ex) => (w', Returns (Caught ex))
                  | (w', OutOfFuel) => (w', OutOfFuel)
                  end)
        | InLoop, Caught ex => Some ((record_ex self ex ;; ret Recorded) w)
        | InLoop, Recorded =>
            Some ((empty <- q_empty self ;;
                   ret (if empty : bool then Drained else Draining)) w)
        | InLoop, Draining =>
            match src_q st with
            | [] => None
            | _ :: _ => Some ((q_drop self ;; ret Drained) w)
            end
        | InLoop, Drained =>
            Some (match termination_future_set_result self VNone w with
                  | (w', Returns _) =>
                      (st' <- get_source self ;;
                       set_source self (with_thread st' LoopExited) ;;
                       ret AtGet) w'
                  | (w', Raises ex) =>
                      match (st' <- get_source self ;;
                             set_source self (with_thread st' ThreadDied)) w'
                      with
                      | (w'', _) => (w'', Raises ex)
                      end
                  | (w', OutOfFuel) => (w', OutOfFuel)
                  end)
        | LoopExited, AtGet =>
            match src_termination_q st with
            | [] =>
                Some ((set_source self
                         (with_thread
                            (with_termination_q st [src_ex st])
                            ThreadFinished) ;;
                       ret AtGet) w)
            | _ :: _ => None
            end
        | _, _ => None
        end
    | _ => None
    end.

(** The moves of the worker up to the end of its turn, with no move of the
    caller in between. *)
Fixpoint finish_turn (n : nat) (fuel : nat) (self : nat) (pc : turn_pc)
  : B unit :=
  fun w =>
    match pc, n with
    | AtGet, _ => Some (w, Returns tt)
    | _, O => None
    | _, S n' =>
        match loop_step fuel self pc w with
        | Some (w', Returns pc') => finish_turn n' fuel self pc' w'
        | Some (w', Raises ex) => Some (w', Raises ex)
        | Some (w', OutOfFuel) => Some (w', OutOfFuel)
        | None => None
        end
    end.

Definition whole_turn (fuel : nat) (self : nat) : B unit :=
  fun w =>
    match loop_step fuel self AtGet w with
    | Some (w', Returns pc) => finish_turn 5 fuel self pc w'
    | Some (w', Raises ex) => Some (w', Raises ex)
    | Some (w', OutOfFuel) => Some (w', OutOfFuel)
    | None => None
    end.

(** [Flow.run] and [Source.run] through dynamic dispatch: the outlets
    first, then, for a [Source], the thread. *)
Fixpoint run_ (fuel : nat) (self : pyobj) : M unit :=
  match fuel with
  | O => out_of_fuel
  | S fuel' =>
      match self with
      | PList _ =>
          raise (AttributeError "'list' object has no attribute 'run'")
      | PNode id =>
          n <- get_node id ;;
          (fix each (outs : list pyobj) : M unit :=
             match outs with
             | [] => ret tt
             | outlet :: rest => run_ fuel' outlet ;; each rest
             end) (outlets n) ;;
          match cls n with
          | Source st => set_source id (with_thread st Starting)
          | _ => ret tt
          end
      end
  end.

End Source.

(** The statements of [Source._emit], which run on the caller's thread. *)
Inductive caller_op : Type :=
| RaiseOnError
| QPut (element : payload).

(** [Source._emit(self, element)]. *)
Definition _emit (element : payload) : list caller_op :=
  [RaiseOnError; QPut element; RaiseOnError].

(** [FlowController.emit] and [FlowController.terminate] of the controller
    that [Source.run] returns. *)
Definition FlowController_emit (element : payload) : list caller_op :=
  _emit element.

Definition FlowController_terminate : list caller_op :=
  FlowController_emit TerminationObj.

(** One statement of [_emit] on the source [self]: [self._q.put] waits while
    the queue holds [buffer_size] entries. *)
Definition exec_op (self : nat) (op : caller_op) : B unit :=
  match op with
  | RaiseOnError =>
      atomic (st <- get_source self ;; _raise_on_error self (src_ex st))
  | QPut element =>
      fun w =>
        match get_source self w with
        | (w', Returns st) =>
            if (length (src_q st) <? buffer_size st)%nat
            then Some (set_source self (with_q st (src_q st ++ [element])) w')
            else None
        | (w', Raises e) => Some (w', Raises e)
        | (w', OutOfFuel) => Some (w', OutOfFuel)
        end
  end.

(** [raise_error_or_return_termination_result], the [await_termination] of
    the controller: [self._termination_q.get()] waits for the thread. *)
Definition await_termination (self : nat) : B value :=
  fun w =>
    match get_source self w with
    | (w', Returns st) =>
        match src_termination_q st with
        | [] => None
        | ex :: rest =>
            Some ((set_source self (with_termination_q st rest) ;;
                   _raise_on_error self ex ;;
                   termination_future_result self) w')
        end
    | (w', Raises e) => Some (w', Raises e)
    | (w', OutOfFuel) => Some (w', OutOfFuel)
    end.

(** The statements in order, with no move of the other thread in between;
    stops at the first that raises, waits where one waits. *)
Fixpoint run_ops (self : nat) (ops : list caller_op) : B unit :=
  match ops with
  | [] => atomic (ret tt)
  | op :: rest =>
      fun w =>
        match exec_op self op w with
        | Some (w', Returns _) => run_ops self rest w'
        | other => other
        end
  end.

(** ** The two threads of a running [Source] *)

Section Threads.
Context `{PythonLib}.

(** A state of the system: the store and what the caller's thread has
    still to execute of its current call.  Either thread moves. *)
Inductive sys_step (self : nat)
  : world * list caller_op -> world * list caller_op -> Prop :=
| step_caller w w' op ops :
    exec_op self op w = Some (w', Returns tt) ->
    sys_step self (w, op :: ops) (w', ops)
| step_caller_raises w w' op ops e :
    exec_op self op w = Some (w', Raises e) ->
    sys_step self (w, op :: ops) (w', [])
| step_worker w w' ops fuel r :
    worker_step fuel self w = Some (w', r) ->
    r <> OutOfFuel ->
    sys_step self (w, ops) (w', ops).

(** One way of scheduling the two threads: the caller runs its statements
    and the worker moves only when the caller has to wait. *)
Fixpoint drive (sched fuel : nat) (self : nat) (ops : list caller_op)
  : M unit :=
  match sched with
  | O => out_of_fuel
  | S sched' =>
      match ops with
      | [] => ret tt
      | op :: rest =>
          fun w =>
            match exec_op self op w with
            | Some (w', Returns _) => drive sched' fuel self rest w'
            | Some r => r
            | None =>
                match worker_step fuel self w with
                | Some (w', OutOfFuel) => (w', OutOfFuel)
                | Some (w', _) => drive sched' fuel self ops w'
                | None => (w, OutOfFuel)
                end
            end
      end
  end.

(** [await_termination] under the same scheduling: the worker moves until
    its thread has finished. *)
Fixpoint drive_await_termination (sched fuel : nat) (self : nat) : M value :=
  match sched with
  | O => out_of_fuel
  | S sched' =>
      fun w =>
        match await_termination self w with
        | Some r => r
        | None =>
            match worker_step fuel self w with
            | Some (w', OutOfFuel) => (w', OutOfFuel)
            | Some (w', _) => drive_await_termination sched' fuel self w'
            | None => (w, OutOfFuel)
            end
        end
  end.

(** The two threads at the grain of [loop_step]: the store, where the
    worker stands in its turn, and what the caller has still to execute of
    its calls. *)
Definition threads : Type := world * turn_pc * list caller_op.

Inductive fine_step (self : nat) : threads -> threads -> Prop :=
| fine_caller w w' pc op ops :
    exec_op self op w = Some (w', Returns tt) ->
    fine_step self (w, pc, op :: ops) (w', pc, ops)
| fine_caller_raises w w' pc op ops e :
    exec_op self op w = Some (w', Raises e) ->
    fine_step self (w, pc, op :: ops) (w', pc, [])
| fine_worker w w' pc pc' ops fuel :
    loop_step fuel self pc w = Some (w', Returns pc') ->
    fine_step self (w, pc, ops) (w', pc', ops)
| fine_worker_dies w w' pc ops fuel e :
    loop_step fuel self pc w = Some (w', Raises e) ->
    fine_step self (w, pc, ops) (w', AtGet, ops).

(** Which thread moves. *)
Inductive mover : Type :=
| Caller
| Worker.

(** The two threads under a given schedule, one move per entry; [raised]
    is how the caller's calls have ended so far.  [None] when the thread
    whose move it is cannot move: the caller waits in [put] or has nothing
    left to execute, the worker waits in [get] or has finished. *)
Fixpoint run_moves (sched : list mover) (fuel : nat) (self : nat)
    (s : threads) (raised : outcome unit) : option (threads * outcome unit) :=
  match sched with
  | [] => Some (s, raised)
  | Caller :: sched' =>
      match s with
      | (w, pc, op :: ops) =>
          match exec_op self op w with
          | Some (w', Returns _) =>
              run_moves sched' fuel self (w', pc, ops) raised
          | Some (w', Raises e) =>
              run_moves sched' fuel self (w', pc, []) (Raises e)
          | _ => None
          end
      | (_, _, []) => None
      end
  | Worker :: sched' =>
      match s with
      | (w, pc, ops) =>
          match loop_step fuel self pc w with
          | Some (w', Returns pc') =>
              run_moves sched' fuel self (w', pc', ops) raised
          | Some (w', Raises _) =>
              run_moves sched' fuel self (w', AtGet, ops) raised
          | _ => None
          end
      end
  end.

End Threads.

(** ** The nesting of a pipeline definition, as the specification words it *)

(** The root of a sequence: its first entry. *)
Definition root_of (steps : list pyobj) : option pyobj :=
  match steps with
  | [] => None
  | first :: _ => Some first
  end.

(** The parent-to-child links a definition stands for, in the order they are
    made.  From the current node [cur]: a node entry is linked under [cur]
    and becomes the current node; a nested sequence contributes its own
    links, its root is linked under [cur], and [cur] stays the current
    node. *)
Definition links_chain (links_of : pyobj -> list (pyobj * pyobj))
  : list pyobj -> pyobj -> list (pyobj * pyobj) :=
  fix chain (rest : list pyobj) (cur : pyobj) : list (pyobj * pyobj) :=
    match rest with
    | [] => []
    | PNode n :: rest' => (cur, PNode n) :: chain rest' (PNode n)
    | (PList sub as nested) :: rest' =>
        links_of nested
          ++ match root_of sub with
             | Some r => [(cur, r)]
             | None => []
             end
          ++ chain rest' cur
    end.

Fixpoint links_of (steps : pyobj) : list (pyobj * pyobj) :=
  match steps with
  | PNode _ => []
  | PList [] => []
  | PList (first :: rest) => links_chain links_of rest first
  end.

(** A definition every sequence of which, at every depth, is non-empty and
    starts with a node. *)
Fixpoint well_nested (steps : pyobj) : bool :=
  match steps with
  | PNode _ => true
  | PList [] => false
  | PList (PList _ :: _) => false
  | PList (PNode _ :: rest) => forallb well_nested rest
  end.

(** A node that accepts an outlet in the store [w]: a live instance of a
    class other than [Reduce]. *)
Definition accepts_outlets (w : world) (parent : pyobj) : bool :=
  match parent with
  | PNode id =>
      match nodes w !! id with
      | Some n => match cls n with Reduce _ _ => false | _ => true end
      | None => false
      end
  | PList _ => false
  end.

(** Every link of a list hangs under a node that accepts outlets. *)
Definition links_accepted (w : world) (links : list (pyobj * pyobj)) : bool :=
  forallb (fun l => accepts_outlets w (fst l)) links.

(** The store after one more outlet under [parent]. *)
Definition link (w : world) (l : pyobj * pyobj) : world :=
  match fst l with
  | PNode id =>
      match nodes w !! id with
      | Some n =>
          mkWorld (<[id := append_outlet n (snd l)]> (nodes w)) (stdout w)
      | None => w
      end
  | PList _ => w
  end.

(** The outlets a node holds in a store. *)
Definition outlets_of (w : world) (id : nat) : list pyobj :=
  match nodes w !! id with
  | Some n => outlets n
  | None => []
  end.

(** The children given to node [id] by a list of links, in order. *)
Fixpoint children_of (id : nat) (links : list (pyobj * pyobj)) : list pyobj :=
  match links with
  | [] => []
  | (PNode parent, child) :: rest =>
      if Nat.eqb parent id then child :: children_of id rest
      else children_of id rest
  | (PList _, _) :: rest => children_of id rest
  end.

(** ** Termination, feeding and forwarding, as the specification words them *)

Section SpecWords.

(** [outlet.do(element)] run to completion. *)
Variable do_ : pyobj -> payload -> M value.

(** Folding in the results of the later outlets, in registration order:
    [accumulated] becomes [combine(accumulated, next)]. *)
Fixpoint fold_outlets (combine : callable2) (later : list pyobj)
    (accumulated : value) : M value :=
  match later with
  | [] => ret accumulated
  | outlet :: rest =>
      next <- do_ outlet TerminationObj ;;
      accumulated' <- lift (combine accumulated next) ;;
      fold_outlets combine rest accumulated'
  end.

(** The sequential dispatch of the marker to one or more outlets: outlet 0
    first, then the fold over the others. *)
Definition terminate_outlets (combine : callable2) (outlet0 : pyobj)
    (later : list pyobj) : M value :=
  result0 <- do_ outlet0 TerminationObj ;;
  fold_outlets combine later result0.

End SpecWords.

(** The accumulator after the elements [xs], combined one by one from
    [acc] in the order of the list; a call that raises ends the fold. *)
Fixpoint fold_elements (fn : callable2) (acc : value) (xs : list value)
  : outcome value :=
  match xs with
  | [] => Returns acc
  | x :: rest => acc' <~ fn acc x ;; fold_elements fn acc' rest
  end.

(** The elements handed to a node one after the other, each call awaited
    before the next; a call that raises ends the feeding. *)
Fixpoint feed (do_self : payload -> M value) (xs : list value) : M unit :=
  match xs with
  | [] => ret tt
  | x :: rest => do_self (Elem x) ;; feed do_self rest
  end.

(** [forwards downstream items w w']: from the store [w], the items are
    forwarded one at a time, in order, each forwarding returns, and the
    store is then [w']. *)
Inductive forwards (downstream : payload -> M value)
  : list value -> world -> world -> Prop :=
| forwards_nil w : forwards downstream [] w w
| forwards_cons item rest w w1 w' r :
    downstream (Elem item) w = (w1, Returns r) ->
    forwards downstream rest w1 w' ->
    forwards downstream (item :: rest) w w'.

(** The store in which node [id] was replaced by [n]. *)
Definition with_node (w : world) (id : nat) (n : node) : world :=
  mkWorld (<[id := n]> (nodes w)) (stdout w).

(** ** What a call of [do] leaves alone *)

(** A node no call of [do] writes to: every class but [Reduce], which keeps
    its accumulator, and [JoinWithTable], which keeps its queue, session
    and worker. *)
Definition passive (n : node) : bool :=
  match cls n with
  | Reduce _ _ | JoinWithTable _ _ _ _ => false
  | _ => true
  end.

(** [w'] differs from [w] at most in nodes that are not passive. *)
Definition frame (w w' : world) : Prop :=
  stdout w' = stdout w /\
  forall id n, nodes w !! id = Some n -> passive n = true ->
               nodes w' !! id = Some n.

(** A computation that leaves the passive nodes and the output alone,
    however it ends. *)
Definition framed {A} (c : M A) : Prop :=
  forall w w' r, c w = (w', r) -> frame w w'.

(** ** Decimal texts, as the specification words them *)

(** One or more characters, all of them decimal digits. *)
Fixpoint all_digits (s : string) : bool :=
  match s with
  | EmptyString => false
  | String c EmptyString => is_digit c
  | String c s' => is_digit c && all_digits s'
  end.

(** The number a text of digits denotes in positional notation: each digit
    weighs ten times the digit to its right. *)
Fixpoint positional_value (s : string) : Z :=
  match s with
  | EmptyString => 0
  | String c s' =>
      (Z.of_nat (Ascii.nat_of_ascii c) - 48) * 10 ^ Z.of_nat (String.length s')
      + positional_value s'
  end.

(** The type tags [_parse_response] knows. *)
Definition known_tag (typ : string) : bool :=
  String.eqb typ "S" || String.eqb typ "BOOL" || String.eqb typ "N".

(** ** A source after its worker failed *)

(** The exception [_raise_on_error] raises for the recorded failure [e]. *)
Definition execution_error (e : exn) : exn :=
  FlowException "execution error" (Some e).

(** The source [st] once its worker has recorded [e] and resolved the
    termination future with [None], with the given queues and thread
    state. *)
Definition failed_source (st : source_state) (e : exn) (pc : thread_pc)
    (tq : list (option exn)) (q : list payload) : node_class :=
  Source (mkSource (buffer_size st) q tq (Some e) (Some (Resolved VNone)) pc).

(** ** Sample functions, responses and pipelines *)

(** [lambda acc, x: acc + x] on integers. *)
Definition py_add : callable2 :=
  fun acc x =>
    match acc, x with
    | VInt a, VInt b => Returns (VInt (a + b))
    | _, _ => Raises (TypeError "unsupported operand type(s) for +")
    end.

(** [lambda acc, x: acc + [x]], which keeps what arrives, in order. *)
Definition py_append : callable2 :=
  fun acc x =>
    match acc with
    | VList seen => Returns (VList (seen ++ [x]))
    | _ => Raises (TypeError "can only concatenate list")
    end.

(** [lambda x: [x, x]]. *)
Definition py_twice : callable1 := fun x => Returns (VList [x; x]).

(** [lambda x: x] and [lambda element, record: element]. *)
Definition py_identity : callable1 := fun x => Returns x.
Definition py_keep_element : callable2 := fun element _ => Returns element.

(** A node as its constructor leaves it: no outlet yet, the default
    [termination_result_fn]. *)
Definition new_node (c : node_class) : node :=
  mkNode c [] default_termination_result_fn.

Definition store_of (ns : list (nat * node)) : world :=
  mkWorld (list_to_map ns) [].

(** The accumulator of the [Reduce] node [id]. *)
Definition accumulator_of (w : world) (id : nat) : option value :=
  match nodes w !! id with
  | Some n => match cls n with Reduce _ acc => Some acc | _ => None end
  | None => None
  end.

(** The state of the [JoinWithTable] node [id]. *)
Definition join_runtime_of (w : world) (id : nat) : option join_runtime :=
  match nodes w !! id with
  | Some n => match cls n with JoinWithTable _ _ _ rt => rt | _ => None end
  | None => None
  end.

(** The state of the [Source] node [id]. *)
Definition source_of (w : world) (id : nat) : option source_state :=
  match nodes w !! id with
  | Some n => match cls n with Source st => Some st | _ => None end
  | None => None
  end.

Definition dq : string := String (Ascii.ascii_of_nat 34) EmptyString.

(** The bodies [{"Item": {}}], [{"Item": {"age": {"N": "42"}}}] and
    [{"Item": {"tags": {"L": "x"}}}]. *)
Definition body_empty_item : string :=
  ("{" ++ dq ++ "Item" ++ dq ++ ": {}}")%string.

Definition body_age : string :=
  ("{" ++ dq ++ "Item" ++ dq ++ ": {" ++ dq ++ "age" ++ dq ++ ": {"
       ++ dq ++ "N" ++ dq ++ ": " ++ dq ++ "42" ++ dq ++ "}}}")%string.

Definition body_tags : string :=
  ("{" ++ dq ++ "Item" ++ dq ++ ": {" ++ dq ++ "tags" ++ dq ++ ": {"
       ++ dq ++ "L" ++ dq ++ ": " ++ dq ++ "x" ++ dq ++ "}}}")%string.

(** [json.loads] on these three bodies and [float] on the texts ["+5"] and
    ["1.5"]; the library functions are not described beyond these points. *)
Definition sample_lib : PythonLib := {|
  json_loads := fun body =>
    if String.eqb body body_empty_item then
      Returns (VDict [("Item", VDict [])])
    else if String.eqb body body_age then
      Returns (VDict [("Item", VDict [("age", VDict [("N", VStr "42")])])])
    else if String.eqb body body_tags then
      Returns (VDict [("Item", VDict [("tags", VDict [("L", VStr "x")])])])
    else Raises (ValueError "json.loads: not one of the sample bodies");
  float_of_str := fun s =>
    if String.eqb s "+5" then Returns (FFinite 5 0)
    else if String.eqb s "1.5" then Returns (FFinite 3 (-1))
    else Raises (ValueError "float: not one of the sample texts")
|}.

(** [Source(), Map(f), [Map(g), Reduce(0, add)], Reduce(0, add)] before
    [build_flow]: nodes 0 to 4. *)
Definition nesting_store : world :=
  store_of [(0%nat, new_node (Source (new_source 1)));
            (1%nat, new_node (Map py_identity));
            (2%nat, new_node (Map py_identity));
            (3%nat, new_node (Reduce py_add (VInt 0)));
            (4%nat, new_node (Reduce py_add (VInt 0)))].

Definition nesting_steps : list pyobj :=
  [PNode 0; PNode 1; PList [PNode 2; PNode 3]; PNode 4].

(** [Reduce(0, add)] alone. *)
Definition sum_store : world :=
  store_of [(0%nat, new_node (Reduce py_add (VInt 0)))].

(** [FlatMap(lambda x: [x, x])] with one outlet that keeps what arrives. *)
Definition flat_store : world :=
  store_of [(0%nat, mkNode (FlatMap py_twice) [PNode 1]
                           default_termination_result_fn);
            (1%nat, new_node (Reduce py_append (VList [])))].

(** [Map(lambda x: x)] with no outlet. *)
Definition lone_map_store : world :=
  store_of [(0%nat, new_node (Map py_identity))].

(** [Source()] and [Map(lambda x: x)], constructed and not yet linked. *)
Definition dead_end_store : world :=
  store_of [(0%nat, new_node (Source (new_source 1)));
            (1%nat, new_node (Map py_identity))].

(** A running [Source] of capacity 3 over [Reduce(0, add)], its thread in
    the loop, with a string ahead of two integers in the queue. *)
Definition stuck_source : source_state :=
  mkSource 3 [Elem (VStr "x"); Elem (VInt 1); Elem (VInt 2)] [] None
           (Some Pending) InLoop.

Definition stuck_store : world :=
  store_of [(0%nat, mkNode (Source stuck_source) [PNode 1]
                           default_termination_result_fn);
            (1%nat, new_node (Reduce py_add (VInt 0)))].

(** [Source(), JoinWithTable(...), Reduce(7, add)], built and not yet run;
    the table answers every key with the given response. *)
Definition join_store (answer : response) : world :=
  store_of [(0%nat, mkNode (Source (new_source 8)) [PNode 1]
                           default_termination_result_fn);
            (1%nat, mkNode (JoinWithTable py_identity py_keep_element
                              (fun _ => Returns answer) None)
                           [PNode 2] default_termination_result_fn);
            (2%nat, new_node (Reduce py_add (VInt 7)))].

(** The source [self] holds the recorded failure [e] and its worker has
    left the loop. *)
Definition failure_recorded (self : nat) (e : exn) (w : world) : Prop :=
  exists st outs trf,
    nodes w !! self = Some (mkNode (Source st) outs trf) /\
    src_ex st = Some e /\
    (src_thread st = LoopExited \/ src_thread st = ThreadFinished).

(** The store [w] in which the source [self] is [failed_source]. *)
Definition after_failure (w : world) (self : nat) (st : source_state)
    (outs : list pyobj) (trf : callable2) (e : exn) (pc : thread_pc)
    (tq : list (option exn)) (q : list payload) : world :=
  with_node w self (mkNode (failed_source st e pc tq q) outs trf).

(** One element and then the marker handed to the [JoinWithTable] node of
    [join_store]. *)
Definition join_one_element (lib : PythonLib) (answer : response)
  : world * outcome value :=
  (@do_ lib 4 (PNode 1) (Elem (VInt 1)) ;;
   @do_ lib 4 (PNode 1) TerminationObj) (join_store answer).

(** [join_store] run from its source: [run()], then [emit(1)], [emit(2)],
    [terminate()] and [await_termination()] on the controller. *)
Definition join_end_to_end (lib : PythonLib) (answer : response)
  : world * outcome value :=
  (run_ 5 (PNode 0) ;;
   @drive lib 100 10 0 (FlowController_emit (Elem (VInt 1))
                          ++ FlowController_emit (Elem (VInt 2))
                          ++ FlowController_terminate) ;;
   @drive_await_termination lib 100 10 0) (join_store answer).

(** The store after the element on which the worker of [stuck_store]
    fails. *)
Definition stuck_after_failure (lib : PythonLib) : world :=
  fst (_do_downstream (@do_ lib 5) 0 (Elem (VStr "x"))
         (with_node stuck_store 0
            (mkNode
               (Source (with_q stuck_source [Elem (VInt 1); Elem (VInt 2)]))
               [PNode 1] default_termination_result_fn))).

(** [build_flow([Source(), Map(lambda x: x)]).run()], then [emit(1)] and
    [terminate()] under the schedule of [drive], and the answer of
    [await_termination()]. *)
Definition dead_end_session (lib : PythonLib) : world * outcome unit :=
  let built := fst (build_flow [PNode 0; PNode 1] dead_end_store) in
  let running := fst (run_ 4 (PNode 0) built) in
  @drive lib 100 5 0
    (FlowController_emit (Elem (VInt 1)) ++ FlowController_terminate)
    running.

Definition dead_end_answer (lib : PythonLib) : world * outcome value :=
  @drive_await_termination lib 100 5 0 (fst (dead_end_session lib)).

(** A schedule on which the second check of [_emit] decides.  The caller
    passes the first check; the worker takes the element and fails on it;
    the caller enqueues; the worker records the exception; the caller's
    second check finds it; the worker tests the queue, drops an entry,
    resolves the future and leaves its entry in [_termination_q]. *)
Definition late_failure : list mover :=
  [Caller; Worker; Worker; Caller; Worker; Caller;
   Worker; Worker; Worker; Worker].

(** ** What [build_flow] may change *)

(** The node [n'] is [n] with outlets appended. *)
Definition node_extended (n n' : node) : Prop :=
  cls n' = cls n /\
  termination_result_fn n' = termination_result_fn n /\
  exists added, outlets n' = outlets n ++ added.

(** The store [w'] holds the same instances as [w], each with its class and
    combining function untouched and its outlet list grown at the end; the
    output of [w] is a prefix of the output of [w']. *)
Definition store_extended (w w' : world) : Prop :=
  (forall id,
      match nodes w !! id, nodes w' !! id with
      | Some n, Some n' => node_extended n n'
      | None, None => True
      | _, _ => False
      end) /\
  exists printed, stdout w' = stdout w ++ printed.

(** The node [id] of the store is a [Reduce]. *)
Definition is_reduce (w : world) (parent : pyobj) : bool :=
  match parent with
  | PNode id =>
      match nodes w !! id with
      | Some n => match cls n with Reduce _ _ => true | _ => false end
      | None => false
      end
  | PList _ => false
  end.

(** ** Linear pipelines *)

(** The transforming classes, which all wrap one function. *)
Inductive stage : Type :=
| SMap (fn : callable1)
| SFilter (fn : callable1)
| SFlatMap (fn : callable1).

Definition stage_class (s : stage) : node_class :=
  match s with
  | SMap fn => Map fn
  | SFilter fn => Filter fn
  | SFlatMap fn => FlatMap fn
  end.

(** What a stage hands on for the element [x]: the image, the element
    itself if the predicate holds, or the items of the returned sequence. *)
Definition stage_items (s : stage) (x : value) : outcome (list value) :=
  match s with
  | SMap fn => y <~ fn x ;; Returns [y]
  | SFilter fn => keep <~ fn x ;; Returns (if truthy keep then [x] else [])
  | SFlatMap fn => r <~ fn x ;; py_iter r
  end.

(** The items [f] gives for each element of a list, one after the other. *)
Fixpoint each_items (f : value -> outcome (list value)) (xs : list value)
  : outcome (list value) :=
  match xs with
  | [] => Returns []
  | x :: rest =>
      a <~ f x ;; b <~ each_items f rest ;; Returns (a ++ b)
  end.

(** What leaves a sequence of stages for the element [x], when no function
    raises on the way. *)
Fixpoint chain_items (stages : list stage) (x : value)
  : outcome (list value) :=
  match stages with
  | [] => Returns [x]
  | s :: rest =>
      ys <~ stage_items s x ;; each_items (chain_items rest) ys
  end.

(** In the store, the nodes from [head] on are the given stages, each with
    the next as its only outlet, and the last one has [last] as its only
    outlet. *)
Fixpoint is_chain (w : world) (head : nat) (stages : list stage) (last : nat)
  : Prop :=
  match stages with
  | [] => head = last
  | s :: rest =>
      exists next trf,
        nodes w !! head = Some (mkNode (stage_class s) [PNode next] trf) /\
        is_chain w next rest last
  end.

(** The element [x] makes a function of the pipeline raise [e] before any
    item has left the pipeline: the first stage raises, or it hands on one
    item on which the rest of the pipeline fails in this way. *)
Fixpoint fails_clean (stages : list stage) (x : value) (e : exn) : Prop :=
  match stages with
  | [] => False
  | s :: rest =>
      stage_items s x = Raises e \/
      exists y, stage_items s x = Returns [y] /\ fails_clean rest y e
  end.

(** ** The states a source goes through *)

Definition is_none {A} (o : option A) : bool :=
  match o with None => true | Some _ => false end.

Definition is_nil {A} (l : list A) : bool :=
  match l with [] => true | _ :: _ => false end.

(** The termination future is resolved, with [None] if a failure is
    recorded. *)
Definition resolved_for (ex : option exn) (f : option future) : bool :=
  match ex, f with
  | Some _, Some (Resolved VNone) => true
  | None, Some (Resolved _) => true
  | _, _ => false
  end.

(** What holds of the attributes of a source at every point of its life:
    the queue is within its capacity; until the loop is left the future is
    pending and no failure is recorded; from then on the future is
    resolved; [_termination_q] receives one entry, at the very end, which
    is an exception exactly if [_ex] is; the thread has not died. *)
Definition source_inv (st : source_state) : bool :=
  (length (src_q st) <=? buffer_size st)%nat &&
  match src_thread st with
  | NoThread | Starting =>
      is_none (src_ex st) && is_nil (src_termination_q st)
  | InLoop =>
      match src_termination_future st with
      | Some Pending => true
      | _ => false
      end && is_none (src_ex st) && is_nil (src_termination_q st)
  | LoopExited =>
      is_nil (src_termination_q st)
      && resolved_for (src_ex st) (src_termination_future st)
  | ThreadFinished =>
      match src_termination_q st with
      | [] => true
      | [got] => Bool.eqb (is_none got) (is_none (src_ex st))
      | _ => false
      end && resolved_for (src_ex st) (src_termination_future st)
  | ThreadDied => false
  end.


Section WorkerMoves.
Context `{PythonLib}.

(** [n] moves of the worker thread in a row, none of which waits, raises or
    runs out of fuel. *)
Fixpoint worker_moves (n : nat) (fuel : nat) (self : nat) : B unit :=
  match n with
  | O => atomic (ret tt)
  | S n' =>
      fun w =>
        match worker_step fuel self w with
        | Some (w', Returns _) => worker_moves n' fuel self w'
        | other => other
        end
  end.

End WorkerMoves.

(** ** [NeedsV3ioAccess] *)

(** [os.getenv]. *)
Definition environ : Type := string -> option string.

(** [re.match(r'http(s)?://', webapi)] finds a match: the text starts with
    one of the two schemes. *)
Definition matches_http_scheme (webapi : string) : bool :=
  String.prefix "http://" webapi || String.prefix "https://" webapi.

(** The attributes [NeedsV3ioAccess.__init__] sets. *)
Record v3io_access : Type := mkV3ioAccess {
  _webapi_url : string;
  _get_item_headers : list (string * string)
}.

(** [NeedsV3ioAccess.__init__(self, webapi, access_key)]; an argument is
    [None] or a string, and [not arg] holds of [None] and of the empty
    string. *)
Definition NeedsV3ioAccess_init (getenv : environ)
    (webapi access_key : option string) : outcome v3io_access :=
  let getenv_webapi :=
    match getenv "V3IO_API" with
    | Some v => Returns v
    | None => Raises (ValueError "webapi or V3IO_API must be set")
    end in
  webapi <~ match webapi with
            | Some s => if String.eqb s "" then getenv_webapi else Returns s
            | None => getenv_webapi
            end ;;
  let webapi :=
    if matches_http_scheme webapi then webapi
    else ("http://" ++ webapi)%string in
  let getenv_access_key :=
    match getenv "V3IO_ACCESS_KEY" with
    | Some v => Returns v
    | None => Raises (ValueError "access_key or V3IO_ACCESS_KEY must be set")
    end in
  access_key <~ match access_key with
                | Some s =>
                    if String.eqb s "" then getenv_access_key else Returns s
                | None => getenv_access_key
                end ;;
  Returns (mkV3ioAccess webapi
             [("X-v3io-function", "GetItem");
              ("X-v3io-session-key", access_key)]).

(** The value the constructor goes by: the argument when it is given and
    not empty, and otherwise what the environment variable [name] holds. *)
Definition chosen (getenv : environ) (arg : option string) (name : string)
  : option string :=
  match arg with
  | Some s => if String.eqb s "" then getenv name else Some s
  | None => getenv name
  end.

(** Neither the argument nor the environment variable [name] gives a
    value. *)
Definition missing (getenv : environ) (arg : option string) (name : string)
  : bool :=
  match arg with
  | Some s => String.eqb s ""
  | None => true
  end && is_none (getenv name).

(** ** Decoded records *)

(** The attribute [decoded] is the attribute [entry] of a response with its
    map from type tags to values replaced by the value the tags decode
    to. *)
Definition decodes_to `{PythonLib} (entry decoded : string * value) : Prop :=
  fst decoded = fst entry /\
  exists tags,
    snd entry = VDict tags /\
    decode_type_to_value tags VNone = Returns (snd decoded).

(** The text is an optional minus sign followed by one or more digits. *)
Definition is_integer_text (s : string) : bool :=
  match s with
  | EmptyString => false
  | String c s' => if is_minus c then all_digits s' else all_digits s
  end.

(** ** Fan-out to [Reduce] nodes *)

(** What the function of the [Reduce] node [id] makes of its accumulator
    and [y]. *)
Definition reduce_call (w : world) (id : nat) (y : value) : outcome value :=
  match nodes w !! id with
  | Some n =>
      match cls n with
      | Reduce fn result => fn result y
      | _ => Raises (TypeError "not a Reduce")
      end
  | None => Raises (KeyError "no such instance")
  end.

(** The answer of the task of a [Reduce] outlet. *)
Definition task_answer (w : world) (y : value) (id : nat) : outcome value :=
  match reduce_call w id y with
  | Returns _ => Returns VNone
  | other => other
  end.

(** The accumulator of each of the nodes in turn, when all are [Reduce]
    nodes. *)
Fixpoint accumulators_of (w : world) (ids : list nat) : option (list value) :=
  match ids with
  | [] => Some []
  | id :: rest =>
      match accumulator_of w id, accumulators_of w rest with
      | Some acc, Some accs => Some (acc :: accs)
      | _, _ => None
      end
  end.

(** ** A session on a pipeline: emit the elements, then terminate *)

(** The calls of a caller who emits the elements one by one and then
    terminates, as the statements they execute. *)
Definition session_ops (xs : list value) : list caller_op :=
  concat (map (fun x => FlowController_emit (Elem x)) xs)
    ++ FlowController_terminate.

(** Where the caller stands when the entries [pending] are still to be put
    in the queue: before a call of [_emit], before its [self._q.put], or
    before its second [_raise_on_error]. *)
Inductive caller_at : list payload -> list caller_op -> Prop :=
| at_call pending :
    caller_at pending (concat (map _emit pending))
| at_put element pending :
    caller_at (element :: pending)
              (QPut element :: RaiseOnError :: concat (map _emit pending))
| at_check pending :
    caller_at pending (RaiseOnError :: concat (map _emit pending)).

(** How far the thread of a source is from its end. *)
Definition thread_distance (pc : thread_pc) : nat :=
  match pc with
  | NoThread => 4
  | Starting => 3
  | InLoop => 2
  | LoopExited => 1
  | ThreadFinished | ThreadDied => 0
  end.

(** A bound on the moves the two threads can still make: every statement
    of the caller counts twice, every queued entry once. *)
Definition session_measure (self : nat) (s : world * list caller_op) : nat :=
  match source_of (fst s) self with
  | Some st =>
      2 * length (snd s) + length (src_q st) + thread_distance (src_thread st)
  | None => 0
  end.

Section Session.
Context `{PythonLib}.

(** The source [self] feeds the stages from [head] on, which end in the
    [Reduce] node [last] with function [g]; the accumulator starts from
    [acc0] and the caller emits [xs]. *)
Variables (self head last : nat) (stages : list stage).
Variables (g : callable2) (acc0 : value) (xs : list value).

(** What holds of the store and of the caller's remaining statements at
    every point of the session: of what the caller emits, the elements
    [done] have gone through the pipeline and are folded into the
    accumulator, the next entries are in the queue and the rest is still
    to be put; no failure is recorded; once the loop is left, everything
    has gone through and the future holds the accumulator. *)
Definition session_inv (s : world * list caller_op) : Prop :=
  exists st trf_s outs trf done ys acc pending,
    nodes (fst s) !! self = Some (mkNode (Source st) [PNode head] trf_s) /\
    is_chain (fst s) head stages last /\
    nodes (fst s) !! last = Some (mkNode (Reduce g acc) outs trf) /\
    each_items (chain_items stages) done = Returns ys /\
    fold_elements g acc0 ys = Returns acc /\
    caller_at pending (snd s) /\
    src_ex st = None /\
    (0 < buffer_size st)%nat /\
    match src_thread st with
    | Starting =>
        map Elem xs ++ [TerminationObj]
        = map Elem done ++ src_q st ++ pending /\
        src_termination_q st = []
    | InLoop =>
        map Elem xs ++ [TerminationObj]
        = map Elem done ++ src_q st ++ pending /\
        src_termination_q st = [] /\
        src_termination_future st = Some Pending
    | LoopExited =>
        done = xs /\ src_q st = [] /\ pending = [] /\
        src_termination_q st = [] /\
        src_termination_future st = Some (Resolved acc)
    | ThreadFinished =>
        done = xs /\ src_q st = [] /\ pending = [] /\
        src_termination_q st = [None] /\
        src_termination_future st = Some (Resolved acc)
    | NoThread | ThreadDied => False
    end.

(** The session is over: the caller has returned from [terminate] and the
    thread has finished. *)
Definition session_over (s : world * list caller_op) : Prop :=
  snd s = [] /\
  exists st, source_of (fst s) self = Some st /\
             src_thread st = ThreadFinished.

End Session.

(** ** More sample pipelines *)

(** [lambda x: x > 0] on integers. *)
Definition py_positive : callable1 :=
  fun x =>
    match x with
    | VInt z => Returns (VBool (Z.ltb 0 z))
    | _ => Raises (TypeError "'>' not supported between 'str' and 'int'")
    end.

(** [FlatMap(lambda x: [x, x])], [Filter(lambda x: x > 0)] and
    [Reduce(0, add)] in a row. *)
Definition chain_store : world :=
  store_of [(0%nat, mkNode (FlatMap py_twice) [PNode 1]
                           default_termination_result_fn);
            (1%nat, mkNode (Filter py_positive) [PNode 2]
                           default_termination_result_fn);
            (2%nat, new_node (Reduce py_add (VInt 0)))].

(** A [Source] in the state [st] over [Map(lambda x: x)],
    [Filter(lambda x: x > 0)] and [Reduce(0, add)]. *)
Definition pipeline_store (st : source_state) : world :=
  store_of [(0%nat, mkNode (Source st) [PNode 1]
                           default_termination_result_fn);
            (1%nat, mkNode (Map py_identity) [PNode 2]
                           default_termination_result_fn);
            (2%nat, mkNode (Filter py_positive) [PNode 3]
                           default_termination_result_fn);
            (3%nat, new_node (Reduce py_add (VInt 0)))].

Definition pipeline_stages : list stage :=
  [SMap py_identity; SFilter py_positive].

(** The source in its loop with the given queue of capacity 4. *)
Definition looping (q : list payload) : source_state :=
  mkSource 4 q [] None (Some Pending) InLoop.

(** The source of capacity 1 right after [run()]. *)
Definition started : source_state :=
  mkSource 1 [] [] None None Starting.

(** [Map(lambda x: x)] with three outlets: a [Reduce] that keeps what
    arrives between two that add; the termination results are collected
    in a list. *)
Definition fan_store : world :=
  store_of [(0%nat, mkNode (Map py_identity) [PNode 2; PNode 1; PNode 3]
                           py_append);
            (1%nat, new_node (Reduce py_add (VInt 0)));
            (2%nat, new_node (Reduce py_append (VList [])));
            (3%nat, new_node (Reduce py_add (VInt 10)))].

(** A session on [pipeline_store] under the schedule of [drive]: the
    state when [terminate()] has returned, and the answer of
    [await_termination()]. *)
Definition driven_session (lib : PythonLib) (xs : list value) : world :=
  fst (@drive lib 100 5 0 (session_ops xs) (pipeline_store started)).

Definition driven_answer (lib : PythonLib) (xs : list value)
  : world * outcome value :=
  @drive_await_termination lib 100 5 0 (driven_session lib xs).

(** A schedule of the session with the elements 1, a string and 5 on
    [pipeline_store started], whose queue holds one entry, on which the
    caller comes to wait in [put] behind the failing worker.  The thread
    starts; [emit(1)]; the worker takes 1; [emit] of the string; the
    worker processes 1 and takes the string; [emit(5)] refills the queue;
    [terminate] passes its first check and waits in [put] on the full
    queue.  These are the first fourteen moves.  Then the worker fails on
    the string, records the exception, finds the queue not empty and takes
    the 5 off; the caller enqueues the marker and its second check raises;
    the worker resolves the future and finishes. *)
Definition blocked_schedule : list mover :=
  [Worker; Caller; Caller; Caller; Worker; Caller; Caller; Caller;
   Worker; Worker; Caller; Caller; Caller; Caller;
   Worker; Worker; Worker; Worker; Caller; Caller; Worker; Worker].

Definition blocked_point (lib : PythonLib)
  : option (threads * outcome unit) :=
  @run_moves lib (take 14 blocked_schedule) 5 0
    (pipeline_store started, AtGet,
     session_ops [VInt 1; VStr "x"; VInt 5])
    (Returns tt).

Definition blocked_session (lib : PythonLib)
  : option (threads * outcome unit) :=
  @run_moves lib blocked_schedule 5 0
    (pipeline_store started, AtGet,
     session_ops [VInt 1; VStr "x"; VInt 5])
    (Returns tt).

(** The store at the end of that session. *)
Definition blocked_final (lib : PythonLib) : world :=
  match blocked_session lib with
  | Some (w, _, _, _) => w
  | None => pipeline_store started
  end.

(** ** A pipeline definition without branches *)



(** ** What [JoinWithTable] makes of an element *)

Section JoinItems.
Context `{PythonLib}.

(** What the worker hands downstream for [element] when the table answers
    with [resp]: the joined element for a status 200 with a record that is
    not empty, nothing for an empty record and for a status 404. *)
Definition join_items (join_function : callable2) (element : value)
    (resp : response) : outcome (list value) :=
  if Z.eqb (status resp) 200 then
    record <~ _parse_response (text resp) ;;
    if truthy record then
      joined <~ join_function element record ;; Returns [joined]
    else Returns []
  else if Z.eqb (status resp) 404 then Returns []
  else Raises (get_item_error resp).

(** The same from the element alone: the key is extracted, the table is
    asked and the answer is joined. *)
Definition element_items (key_extractor : callable1)
    (join_function : callable2) (get_item : value -> outcome response)
    (element : value) : outcome (list value) :=
  key <~ key_extractor element ;;
  resp <~ get_item key ;;
  join_items join_function element resp.

End JoinItems.

(** The job [j] is the entry [do] puts in the queue for [element]: the
    element with the request for its key. *)
Definition queued_as (key_extractor : callable1)
    (get_item : value -> outcome response) (element : value) (j : job)
  : Prop :=
  exists key,
    key_extractor element = Returns key /\ j = Job element (get_item key).

(** The state [_lazy_init] leaves. *)
Definition join_started : join_runtime :=
  mkJoinRuntime SessionOpen [] TaskRunning.

(** ** Stores without [JoinWithTable] *)

(** No instance of the store is a [JoinWithTable]. *)
Definition join_free (w : world) : Prop :=
  forall id n,
    nodes w !! id = Some n ->
    match cls n with JoinWithTable _ _ _ _ => False | _ => True end.

(** ** A session in which an element fails, statement by statement *)

(** How far the worker is from the end of its thread, in moves of
    [loop_step], the entries of the queue not counted. *)
Definition turn_distance (thread : thread_pc) (pc : turn_pc) : nat :=
  match thread, pc with
  | Starting, _ => 7
  | InLoop, Holding _ => 7
  | InLoop, AtGet => 6
  | InLoop, Caught _ => 5
  | InLoop, Recorded => 4
  | InLoop, Draining => 3
  | InLoop, Drained => 2
  | LoopExited, _ => 1
  | _, _ => 0
  end.

(** A bound on the moves the two threads can still make: every statement
    of the caller counts three times, every queued entry twice. *)
Definition threads_measure (self : nat) (s : threads) : nat :=
  match s with
  | (w, pc, ops) =>
      match source_of w self with
      | Some st =>
          3 * length ops + 2 * length (src_q st)
          + turn_distance (src_thread st) pc
      | None => 0
      end
  end.

(** The session is over: the caller has returned or raised and the thread
    has finished. *)
Definition threads_over (self : nat) (s : threads) : Prop :=
  match s with
  | (w, pc, ops) =>
      ops = [] /\ pc = AtGet /\
      exists st, source_of w self = Some st /\
                 src_thread st = ThreadFinished
  end.

(** The caller finds room in the queue if it stands before a [put]. *)
Definition put_has_room (st : source_state) (ops : list caller_op) : Prop :=
  forall element rest,
    ops = QPut element :: rest -> (length (src_q st) < buffer_size st)%nat.

Section FailingSession.

(** The source [self] feeds the stages from [head] on, which end in the
    [Reduce] node [last]; the caller emits the elements [pre], then [bad],
    on which a function of the pipeline raises [e], then [post]. *)
Variables (self head last : nat) (stages : list stage).
Variables (g : callable2) (acc0 : value).
Variables (pre : list value) (bad : value) (post : list value) (e : exn).

(** Of what the caller emits, [done] has gone through the pipeline, the
    entries [q] come next and [pending] is still to be put. *)
Definition stream_split (done : list value) (q pending : list payload)
  : Prop :=
  exists later,
    pre = done ++ later /\
    map Elem (pre ++ bad :: post) ++ [TerminationObj]
    = map Elem done ++ q ++ pending.

(** No failure is recorded and the caller goes on with its statements. *)
Definition caller_before (st : source_state) (pending : list payload)
    (ops : list caller_op) : Prop :=
  src_ex st = None /\ caller_at pending ops.

(** The failure is recorded; the caller has raised, or it goes on with its
    statements. *)
Definition caller_after (st : source_state) (pending : list payload)
    (ops : list caller_op) : Prop :=
  src_ex st = Some e /\ (ops = [] \/ caller_at pending ops).

(** What holds where the worker stands.  Up to the [try] on [bad] the
    stream of the caller is split between the pipeline, the worker's
    hand, the queue and the caller.  In the [except] clause all of [pre]
    has gone through; the queue holds an entry when the test has found
    one, and once the worker is past the test and the [get] that may
    follow it, a caller standing before a [put] finds room. *)
Definition failing_phase (st : source_state) (pc : turn_pc)
    (ops : list caller_op) (pending : list payload) (done : list value)
  : Prop :=
  match src_thread st, pc with
  | Starting, AtGet =>
      caller_before st pending ops /\
      stream_split done (src_q st) pending
  | InLoop, AtGet =>
      caller_before st pending ops /\
      src_termination_future st = Some Pending /\
      stream_split done (src_q st) pending
  | InLoop, Holding element =>
      caller_before st pending ops /\
      src_termination_future st = Some Pending /\
      stream_split done (element :: src_q st) pending
  | InLoop, Caught ex =>
      caller_before st pending ops /\
      src_termination_future st = Some Pending /\
      ex = e /\ done = pre
  | InLoop, Recorded =>
      caller_after st pending ops /\
      src_termination_future st = Some Pending /\
      done = pre
  | InLoop, Draining =>
      caller_after st pending ops /\
      src_termination_future st = Some Pending /\
      done = pre /\ src_q st <> []
  | InLoop, Drained =>
      caller_after st pending ops /\
      src_termination_future st = Some Pending /\
      done = pre /\ put_has_room st ops
  | LoopExited, AtGet | ThreadFinished, AtGet =>
      caller_after st pending ops /\
      src_termination_future st = Some (Resolved VNone) /\
      done = pre /\ put_has_room st ops
  | _, _ => False
  end.

(** What holds at every point of such a session: the elements [done],
    all of them among [pre], have gone through the pipeline and are folded
    into the accumulator; the queue is within its capacity;
    [_termination_q] holds its entry once the thread has finished; and
    the threads stand as [failing_phase] tells. *)
Definition failing_inv (s : threads) : Prop :=
  match s with
  | (w, pc, ops) =>
      exists st trf_s outs trf acc ys pending done,
        nodes w !! self = Some (mkNode (Source st) [PNode head] trf_s) /\
        is_chain w head stages last /\
        nodes w !! last = Some (mkNode (Reduce g acc) outs trf) /\
        each_items (chain_items stages) done = Returns ys /\
        fold_elements g acc0 ys = Returns acc /\
        (0 < buffer_size st)%nat /\
        (length (src_q st) <= buffer_size st)%nat /\
        src_termination_q st
        = match src_thread st with
          | ThreadFinished => [Some e]
          | _ => []
          end /\
        failing_phase st pc ops pending done
  end.

End FailingSession.
(** ** What a call of [do] may write *)

(** The node [n'] is the node [n] up to what [do] writes: the same outlets,
    the same combining function and the same class with the same
    functions; only the accumulator of a [Reduce] and the queue, session
    and worker of a [JoinWithTable] may differ. *)
Definition node_kept (n n' : node) : Prop :=
  outlets n' = outlets n /\
  termination_result_fn n' = termination_result_fn n /\
  match cls n with
  | Reduce fn _ => exists acc', cls n' = Reduce fn acc'
  | JoinWithTable key_extractor join_function get_item _ =>
      exists rt',
        cls n' = JoinWithTable key_extractor join_function get_item rt'
  | c => cls n' = c
  end.

(** The store [w'] has the instances of [w], no more and no fewer, each
    kept in that sense, and the same output. *)
Definition store_kept (w w' : world) : Prop :=
  stdout w' = stdout w /\
  forall id,
    match nodes w !! id with
    | Some n => exists n', nodes w' !! id = Some n' /\ node_kept n n'
    | None => nodes w' !! id = None
    end.

(** A computation that keeps the store in that sense, however it ends. *)
Definition keeps {A} (c : M A) : Prop :=
  forall w w' r, c w = (w', r) -> store_kept w w'.


(** * Properties *)

(** ** Induction over nested pipeline definitions *)

Lemma pyobj_nested_ind (P : pyobj -> Prop) :
  (forall id, P (PNode id)) ->
  (forall items, Forall P items -> P (PList items)) ->
  forall o, P o.
Proof.
  intros Hnode Hlist. fix IH 1. intros [id|items].
  - apply Hnode.
  - apply Hlist. induction items as [|x items IHitems].
    + apply Forall_nil_2.
    + apply Forall_cons_2; [apply IH|exact IHitems].
Qed.

(** ** [to] and the links of a store *)

Lemma to_link w parent child :
  accepts_outlets w parent = true ->
  to parent child w = (link w (parent, child), Returns child).
Proof.
  destruct parent as [id|items]; simpl; [|discriminate].
  unfold to, link, bind, get_node, set_node, ret; simpl.
  destruct (nodes w !! id) as [n|]; [|discriminate].
  destruct (cls n); simpl; discriminate || reflexivity.
Qed.

Lemma accepts_outlets_link w l parent :
  accepts_outlets w parent = true ->
  accepts_outlets (link w l) parent = true.
Proof.
  destruct parent as [id|items]; simpl; [|discriminate].
  destruct (nodes w !! id) as [n|] eqn:Hn; [|discriminate]. intros Hcls.
  unfold link.
  destruct (fst l) as [p|]; [|by rewrite Hn].
  destruct (nodes w !! p) as [np|] eqn:Hp; [|by rewrite Hn]. simpl.
  destruct (decide (p = id)) as [->|Hne].
  - rewrite Hn in Hp. injection Hp as <-.
    by rewrite lookup_insert_eq.
  - rewrite lookup_insert_ne by done. by rewrite Hn.
Qed.

Lemma accepts_outlets_links w links parent :
  accepts_outlets w parent = true ->
  accepts_outlets (foldl link w links) parent = true.
Proof.
  revert w. induction links as [|l links IH]; intros w Hw; simpl; [done|].
  apply IH, accepts_outlets_link, Hw.
Qed.

Lemma links_accepted_app w l1 l2 :
  links_accepted w (l1 ++ l2) = true <->
  links_accepted w l1 = true /\ links_accepted w l2 = true.
Proof. unfold links_accepted. rewrite forallb_app. apply andb_true_iff. Qed.

Lemma links_accepted_cons w l links :
  links_accepted w (l :: links) = true <->
  accepts_outlets w (fst l) = true /\ links_accepted w links = true.
Proof. unfold links_accepted. simpl. apply andb_true_iff. Qed.

Lemma links_accepted_later w links todo :
  links_accepted w todo = true ->
  links_accepted (foldl link w links) todo = true.
Proof.
  induction todo as [|l todo IH]; [done|].
  rewrite !links_accepted_cons. intros [Hl Htodo].
  split; [by apply accepts_outlets_links|by apply IH].
Qed.

(** What [build_flow] does on one well-nested definition. *)
Definition builds_links (o : pyobj) : Prop :=
  forall w,
    well_nested o = true ->
    links_accepted w (links_of o) = true ->
    match o with
    | PNode _ => True
    | PList steps =>
        exists first,
          root_of steps = Some first /\
          build_flow_obj o w = (foldl link w (links_of o), Returns first)
    end.

Lemma build_flow_loop_links rest :
  Forall builds_links rest ->
  forall cur w,
    forallb well_nested rest = true ->
    links_accepted w (links_chain links_of rest cur) = true ->
    build_flow_loop build_flow_obj rest cur w
    = (foldl link w (links_chain links_of rest cur), Returns tt).
Proof.
  induction 1 as [|next rest Hnext Hrest IH]; intros cur w Hwn Hacc.
  - reflexivity.
  - simpl in Hwn. apply andb_true_iff in Hwn as [Hwn1 Hwn2].
    destruct next as [id|sub].
    + cbn [links_chain] in Hacc.
      apply links_accepted_cons in Hacc as [Hcur Hacc].
      simpl. unfold bind at 1. rewrite (to_link w cur (PNode id) Hcur).
      rewrite IH; [reflexivity|done|].
      by apply (links_accepted_later w [(cur, PNode id)]).
    + cbn [links_chain] in Hacc.
      apply links_accepted_app in Hacc as [Hsub Hacc].
      apply links_accepted_app in Hacc as [Hroot Hacc].
      destruct (Hnext w Hwn1 Hsub) as (first & Hfirst & Hbuild).
      rewrite Hfirst in Hroot.
      apply links_accepted_cons in Hroot as [Hcur _].
      destruct cur as [c|]; [|discriminate].
      cbn [build_flow_loop links_chain bound_to].
      unfold bind at 1, ret at 1. cbv beta iota.
      unfold bind at 1. rewrite Hbuild. rewrite Hfirst.
      unfold bind at 1.
      rewrite to_link by (by apply accepts_outlets_links).
      rewrite !foldl_app. simpl.
      rewrite IH; [reflexivity|done|].
      apply (links_accepted_later w
               (links_of (PList sub) ++ [(PNode c, first)])) in Hacc.
      by rewrite foldl_app in Hacc.
Qed.

Lemma build_flow_obj_links o : builds_links o.
Proof.
  induction o as [id|items IH] using pyobj_nested_ind; intros w Hwn Hacc.
  - exact I.
  - destruct items as [|first rest]; [discriminate|].
    destruct first as [id|]; [|discriminate].
    exists (PNode id). split; [reflexivity|].
    apply Forall_cons in IH as [_ IH].
    cbn [build_flow_obj links_of]. unfold bind.
    rewrite (build_flow_loop_links rest IH (PNode id) w); [reflexivity|done..].
Qed.

Lemma outlets_of_link w parent child id :
  accepts_outlets w parent = true ->
  outlets_of (link w (parent, child)) id
  = (outlets_of w id ++ children_of id [(parent, child)]).
Proof.
  destruct parent as [p|]; simpl; [|discriminate].
  destruct (nodes w !! p) as [n|] eqn:Hn; [|discriminate]. intros _.
  unfold link, outlets_of. simpl. rewrite Hn. simpl.
  destruct (Nat.eqb_spec p id) as [->|Hne].
  - rewrite lookup_insert_eq, Hn. reflexivity.
  - rewrite lookup_insert_ne by done. by rewrite app_nil_r.
Qed.

Lemma children_of_app id l1 l2 :
  children_of id (l1 ++ l2) = (children_of id l1 ++ children_of id l2).
Proof.
  induction l1 as [|[[p|] c] l1 IH]; simpl; [done| |done].
  destruct (Nat.eqb p id); simpl; by rewrite IH.
Qed.

Lemma outlets_of_links links : forall w id,
  links_accepted w links = true ->
  outlets_of (foldl link w links) id
  = (outlets_of w id ++ children_of id links).
Proof.
  induction links as [|[p c] links IH]; intros w id Hacc.
  - simpl. by rewrite app_nil_r.
  - apply links_accepted_cons in Hacc as [Hp Hacc]. simpl in Hp.
    change (foldl link w ((p, c) :: links))
      with (foldl link (link w (p, c)) links).
    rewrite IH by (by apply (links_accepted_later w [(p, c)])).
    rewrite (outlets_of_link w p c id Hp).
    change ((p, c) :: links) with ([(p, c)] ++ links).
    by rewrite children_of_app, app_assoc.
Qed.

(** C1.  For a well-nested definition (every sequence, at every depth, is
    non-empty and starts with a node) whose linking nodes accept outlets,
    [build_flow] returns the first node of the top-level sequence, prints
    nothing, and leaves the store in which exactly the links of the nesting
    were made, in order: each node is chained to the next node of its
    sequence, the root of a nested sequence is one more outlet of the
    current node, and the chain continues from that same current node.
    Every node ends with its previous outlets followed by the children the
    nesting gives it. *)
Theorem build_flow_matches_nesting (steps : list pyobj) (w : world) :
  well_nested (PList steps) = true ->
  links_accepted w (links_of (PList steps)) = true ->
  exists id w',
    root_of steps = Some (PNode id) /\
    build_flow steps w = (w', Returns (PNode id)) /\
    w' = foldl link w (links_of (PList steps)) /\
    stdout w' = stdout w /\
    forall n,
      outlets_of w' n
      = outlets_of w n ++ children_of n (links_of (PList steps)).
Proof.
  intros Hwn Hacc.
  destruct (build_flow_obj_links (PList steps) w Hwn Hacc)
    as (first & Hfirst & Hbuild).
  destruct steps as [|[id|] rest]; try discriminate.
  injection Hfirst as <-.
  exists id, (foldl link w (links_of (PList (PNode id :: rest)))).
  repeat split; try done.
  - clear. generalize (links_of (PList (PNode id :: rest))).
    intros links. revert w.
    induction links as [|l links IH]; intros w; simpl; [done|].
    rewrite IH. unfold link. destruct (fst l) as [p|]; [|done].
    by destruct (nodes w !! p).
  - intros n. by apply outlets_of_links.
Qed.

(** ** Running method bodies *)

Lemma get_node_found w id n :
  nodes w !! id = Some n -> get_node id w = (w, Returns n).
Proof. intros Hn. unfold get_node. by rewrite Hn. Qed.

Lemma bind_returns {A B} (c : M A) (k : A -> M B) w w' a :
  c w = (w', Returns a) -> bind c k w = k a w'.
Proof. intros Hc. unfold bind. by rewrite Hc. Qed.

Lemma bind_ret_l {A B} (a : A) (k : A -> M B) w : bind (ret a) k w = k a w.
Proof. reflexivity. Qed.

Lemma bind_lift_returns {A B} (a : A) (k : A -> M B) w :
  bind (lift (Returns a)) k w = k a w.
Proof. reflexivity. Qed.

Lemma bind_lift_raises {A B} e (k : A -> M B) w :
  bind (lift (Raises e)) k w = (w, Raises e).
Proof. reflexivity. Qed.

Lemma bind_raises {A B} (c : M A) (k : A -> M B) w w' e :
  c w = (w', Raises e) -> bind c k w = (w', Raises e).
Proof. intros Hc. unfold bind. by rewrite Hc. Qed.

Lemma with_node_same w id n :
  nodes w !! id = Some n -> with_node w id n = w.
Proof.
  intros Hn. unfold with_node. rewrite insert_id by done. by destruct w.
Qed.

Lemma with_node_twice w id n1 n2 :
  with_node (with_node w id n1) id n2 = with_node w id n2.
Proof. unfold with_node. simpl. by rewrite insert_insert_eq. Qed.

Lemma with_node_lookup w id n : nodes (with_node w id n) !! id = Some n.
Proof. apply lookup_insert_eq. Qed.

(** ** [Reduce] *)

Lemma Reduce_do_element self fn acc outs trf w x :
  nodes w !! self = Some (mkNode (Reduce fn acc) outs trf) ->
  Reduce_do self (Elem x) w
  = match fn acc x with
    | Returns acc' =>
        (with_node w self (mkNode (Reduce fn acc') outs trf), Returns VNone)
    | Raises e => (w, Raises e)
    | OutOfFuel => (w, OutOfFuel)
    end.
Proof.
  intros Hn. unfold Reduce_do.
  rewrite (bind_returns _ _ _ _ _ (get_node_found _ _ _ Hn)). simpl.
  unfold bind, lift. by destruct (fn acc x).
Qed.

Lemma Reduce_do_termination self fn acc outs trf w :
  nodes w !! self = Some (mkNode (Reduce fn acc) outs trf) ->
  Reduce_do self TerminationObj w = (w, Returns acc).
Proof.
  intros Hn. unfold Reduce_do.
  by rewrite (bind_returns _ _ _ _ _ (get_node_found _ _ _ Hn)).
Qed.

Section EngineFacts.
Context `{PythonLib}.

Lemma do_Reduce fuel self fn acc outs trf w element :
  nodes w !! self = Some (mkNode (Reduce fn acc) outs trf) ->
  do_ (S fuel) (PNode self) element w = Reduce_do self element w.
Proof.
  intros Hn. cbn [do_].
  by rewrite (bind_returns _ _ _ _ _ (get_node_found _ _ _ Hn)).
Qed.

Lemma feed_Reduce fuel self fn outs trf xs : forall acc acc' w,
  nodes w !! self = Some (mkNode (Reduce fn acc) outs trf) ->
  fold_elements fn acc xs = Returns acc' ->
  feed (do_ (S fuel) (PNode self)) xs w
  = (with_node w self (mkNode (Reduce fn acc') outs trf), Returns tt).
Proof.
  induction xs as [|x xs IH]; intros acc acc' w Hn Hfold.
  - simpl in Hfold. injection Hfold as <-. simpl.
    by rewrite with_node_same.
  - simpl in Hfold. destruct (fn acc x) as [acc1| |] eqn:Hfn; try done.
    simpl in Hfold. cbn [feed]. unfold bind at 1.
    rewrite (do_Reduce _ _ _ _ _ _ _ _ Hn).
    rewrite (Reduce_do_element _ _ _ _ _ _ _ Hn), Hfn.
    rewrite (IH acc1 acc'); [|apply with_node_lookup|done].
    by rewrite with_node_twice.
Qed.

(** C4.  A [Reduce] node holding [acc] applies its function to
    [(accumulator, element)] for each element it is handed, in the order
    of arrival: after the elements [xs] its accumulator is the left fold
    of the function over [xs] from [acc].  A call that raises leaves the
    accumulator as it was.  The marker returns the accumulator and
    changes nothing. *)
Theorem Reduce_folds_in_arrival_order fuel self fn acc outs trf w xs acc' :
  nodes w !! self = Some (mkNode (Reduce fn acc) outs trf) ->
  fold_elements fn acc xs = Returns acc' ->
  feed (do_ (S fuel) (PNode self)) xs w
  = (with_node w self (mkNode (Reduce fn acc') outs trf), Returns tt) /\
  (feed (do_ (S fuel) (PNode self)) xs ;;
   do_ (S fuel) (PNode self) TerminationObj) w
  = (with_node w self (mkNode (Reduce fn acc') outs trf), Returns acc') /\
  do_ (S fuel) (PNode self) TerminationObj w = (w, Returns acc) /\
  (forall x e, fn acc x = Raises e ->
     do_ (S fuel) (PNode self) (Elem x) w = (w, Raises e)) /\
  (forall x acc1, fn acc x = Returns acc1 ->
     do_ (S fuel) (PNode self) (Elem x) w
     = (with_node w self (mkNode (Reduce fn acc1) outs trf), Returns VNone)).
Proof.
  intros Hn Hfold.
  pose proof (feed_Reduce fuel self fn outs trf xs acc acc' w Hn Hfold)
    as Hfeed.
  repeat split.
  - exact Hfeed.
  - rewrite (bind_returns _ _ _ _ _ Hfeed).
    rewrite (do_Reduce _ _ fn acc' outs trf) by apply with_node_lookup.
    apply Reduce_do_termination with (fn := fn) (outs := outs) (trf := trf).
    apply with_node_lookup.
  - rewrite (do_Reduce _ _ _ _ _ _ _ _ Hn).
    by apply Reduce_do_termination with (fn := fn) (outs := outs) (trf := trf).
  - intros x e Hfn. rewrite (do_Reduce _ _ _ _ _ _ _ _ Hn).
    by rewrite (Reduce_do_element _ _ _ _ _ _ _ Hn), Hfn.
  - intros x acc1 Hfn. rewrite (do_Reduce _ _ _ _ _ _ _ _ Hn).
    by rewrite (Reduce_do_element _ _ _ _ _ _ _ Hn), Hfn.
Qed.

End EngineFacts.

(** ** The frame of [do] *)

Lemma frame_refl w : frame w w.
Proof. by split. Qed.

Lemma frame_trans w1 w2 w3 : frame w1 w2 -> frame w2 w3 -> frame w1 w3.
Proof.
  intros [Hout1 Hn1] [Hout2 Hn2]. split; [congruence|].
  intros id n Hn Hp. apply Hn2; [by apply Hn1|done].
Qed.

Lemma frame_set_node w id n n' :
  nodes w !! id = Some n -> passive n = false ->
  frame w (mkWorld (<[id := n']> (nodes w)) (stdout w)).
Proof.
  intros Hn Hp. split; [done|]. intros id0 n0 Hn0 Hp0. simpl.
  destruct (decide (id = id0)) as [->|Hne]; [congruence|].
  by rewrite lookup_insert_ne.
Qed.

Create HintDb framed.

Lemma framed_ret {A} (a : A) : framed (ret a).
Proof. intros w w' r [= <- _]. apply frame_refl. Qed.

Lemma framed_raise {A} e : framed (@raise A e).
Proof. intros w w' r [= <- _]. apply frame_refl. Qed.

Lemma framed_out_of_fuel {A} : framed (@out_of_fuel A).
Proof. intros w w' r [= <- _]. apply frame_refl. Qed.

Lemma framed_lift {A} (o : outcome A) : framed (lift o).
Proof. intros w w' r [= <- _]. apply frame_refl. Qed.

Lemma framed_bind {A B} (c : M A) (k : A -> M B) :
  framed c -> (forall a, framed (k a)) -> framed (bind c k).
Proof.
  intros Hc Hk w w' r. unfold bind.
  destruct (c w) as [w1 [a|e|]] eqn:Hcw; intros Hr.
  - eapply frame_trans; [by eapply Hc|by eapply Hk].
  - injection Hr as <- _. by eapply Hc.
  - injection Hr as <- _. by eapply Hc.
Qed.

Lemma framed_get_node id : framed (get_node id).
Proof.
  intros w w' r. unfold get_node.
  destruct (nodes w !! id); intros [= <- _]; apply frame_refl.
Qed.

Lemma framed_index {A} (l : list A) i : framed (index l i).
Proof.
  unfold index. destruct (l !! i); [apply framed_ret|apply framed_raise].
Qed.

#[local] Hint Resolve framed_ret framed_raise framed_out_of_fuel framed_lift
  framed_get_node framed_index : framed.

(** Splits a goal [framed c] along the binds and the case distinctions of
    [c]. *)
Ltac framed_split :=
  first
    [ solve [eauto with framed]
    | apply framed_bind; [framed_split | intros ?; framed_split]
    | match goal with
      | |- framed (match ?x with _ => _ end) => destruct x; framed_split
      | |- framed (if ?b then _ else _) => destruct b; framed_split
      end
    | idtac ].

Lemma framed_Reduce_do self element : framed (Reduce_do self element).
Proof.
  intros w w' r. unfold Reduce_do, bind, get_node.
  destruct (nodes w !! self) as [n|] eqn:Hn;
    [|intros [= <- _]; apply frame_refl].
  destruct (cls n) eqn:Hcls; try (intros [= <- _]; apply frame_refl).
  destruct element as [v|]; [|intros [= <- _]; apply frame_refl].
  unfold lift. destruct (fn result v); try (intros [= <- _]; apply frame_refl).
  unfold set_node, ret. intros [= <- _].
  eapply frame_set_node; [exact Hn|]. unfold passive. by rewrite Hcls.
Qed.

Lemma framed_get_join_runtime self : framed (get_join_runtime self).
Proof. unfold get_join_runtime. framed_split. Qed.

Lemma framed_get_join_function self : framed (get_join_function self).
Proof. unfold get_join_function. framed_split. Qed.

Lemma framed_set_join_runtime self rt : framed (set_join_runtime self rt).
Proof.
  intros w w' r. unfold set_join_runtime, bind, get_node.
  destruct (nodes w !! self) as [n|] eqn:Hn;
    [|intros [= <- _]; apply frame_refl].
  destruct (cls n) eqn:Hcls; try (intros [= <- _]; apply frame_refl).
  unfold set_node. intros [= <- _].
  eapply frame_set_node; [exact Hn|]. unfold passive. by rewrite Hcls.
Qed.

#[local] Hint Resolve framed_Reduce_do framed_get_join_runtime
  framed_get_join_function framed_set_join_runtime : framed.

Section FramedDispatch.
Context `{PythonLib}.
Variable do_ : pyobj -> payload -> M value.
Hypothesis framed_do : forall o p, framed (do_ o p).

Lemma framed_fold_termination outs fn count : forall i acc,
  framed (fold_termination do_ outs fn i count acc).
Proof.
  induction count as [|count IH]; intros i acc; simpl; framed_split.
Qed.

Lemma framed_create_tasks outs : framed (create_tasks outs).
Proof.
  induction outs as [|o outs IH]; simpl; [apply framed_ret|].
  unfold bound_do. framed_split.
Qed.

Lemma framed_run_tasks element tasks : framed (run_tasks do_ tasks element).
Proof.
  induction tasks as [|t tasks IH]; simpl; [apply framed_ret|].
  intros w w' r.
  destruct (do_ t element w) as [w1 r1] eqn:Hdo.
  pose proof (framed_do _ _ _ _ _ Hdo) as Hframe1.
  assert (Hrest : framed (bind (run_tasks do_ tasks element)
                               (fun rs => ret (r1 :: rs))))
    by framed_split.
  destruct r1; intros Hr.
  - eapply frame_trans; [exact Hframe1|by eapply Hrest].
  - eapply frame_trans; [exact Hframe1|by eapply Hrest].
  - by injection Hr as <- _.
Qed.

Lemma framed_await_tasks results : framed (await_tasks results).
Proof. induction results as [|r results IH]; simpl; framed_split. Qed.

Lemma framed_do_downstream self element :
  framed (_do_downstream do_ self element).
Proof.
  unfold _do_downstream.
  pose proof framed_fold_termination. pose proof framed_create_tasks.
  pose proof framed_run_tasks. pose proof framed_await_tasks.
  framed_split.
Qed.

Lemma framed_forward_each (forward : payload -> M value) items :
  (forall p, framed (forward p)) -> framed (forward_each forward items).
Proof. intros Hf. induction items as [|x items IH]; simpl; framed_split. Qed.

Lemma framed_UnaryFunctionFlow_do (forward : payload -> M value) fn
    do_internal element :
  (forall p, framed (forward p)) ->
  (forall v r, framed (do_internal v r)) ->
  framed (UnaryFunctionFlow_do forward fn do_internal element).
Proof. intros Hf Hi. unfold UnaryFunctionFlow_do. framed_split. Qed.

Lemma framed_worker_job self element request :
  framed (_worker_job do_ self element request).
Proof.
  unfold _worker_job. pose proof framed_do_downstream. framed_split.
Qed.

Lemma framed_worker_loop self n : framed (_worker_loop do_ n self).
Proof.
  induction n as [|n IH]; simpl; [apply framed_ret|].
  pose proof framed_worker_job. framed_split.
Qed.

Lemma framed_worker_exit self failure : framed (worker_exit self failure).
Proof. unfold worker_exit. framed_split. Qed.

Lemma framed_drain_one self : framed (drain_one self).
Proof. unfold drain_one. framed_split. Qed.

Lemma framed_worker self n : framed (_worker do_ n self).
Proof.
  intros w w' r. unfold _worker.
  destruct (_worker_loop do_ n self w) as [w1 r1] eqn:Hloop.
  pose proof (framed_worker_loop _ _ _ _ _ Hloop) as Hframe1.
  pose proof framed_worker_exit. pose proof framed_drain_one.
  destruct r1 as [[]|ex|]; intros Hr.
  - eapply frame_trans; [exact Hframe1|]. by eapply framed_worker_exit.
  - by injection Hr as <- _.
  - eapply frame_trans; [exact Hframe1|].
    assert (Hh : framed (drain_one self ;; worker_exit self (Some ex)))
      by framed_split.
    by eapply Hh.
  - by injection Hr as <- _.
Qed.

Lemma framed_JoinWithTable_do self element :
  framed (JoinWithTable_do do_ self element).
Proof.
  pose proof framed_worker.
  unfold JoinWithTable_do, join_q_put, await_worker, await_done, _lazy_init.
  framed_split.
Qed.

End FramedDispatch.

Section FramedEngine.
Context `{PythonLib}.

(** No call of [do], on any object and at any depth, writes to a passive
    node or prints. *)
Lemma framed_do fuel : forall o p, framed (do_ fuel o p).
Proof.
  induction fuel as [|fuel IH]; intros o p; cbn [do_].
  - apply framed_out_of_fuel.
  - pose proof (framed_do_downstream _ IH) as Hdown.
    pose proof (framed_JoinWithTable_do _ IH) as Hjoin.
    destruct o as [id|items]; [|apply framed_raise].
    apply framed_bind; [apply framed_get_node|]. intros n.
    destruct (cls n); try apply framed_raise; try apply framed_Reduce_do;
      try apply Hjoin.
    + apply framed_UnaryFunctionFlow_do; [auto|].
      intros v r. unfold Map_do_internal. framed_split.
    + apply framed_UnaryFunctionFlow_do; [auto|].
      intros v r. unfold Filter_do_internal. framed_split.
    + apply framed_UnaryFunctionFlow_do; [auto|].
      intros v r. unfold FlatMap_do_internal.
      apply framed_bind; [apply framed_lift|]. intros items.
      by apply framed_forward_each.
Qed.

End FramedEngine.

(** ** [FlatMap] *)

Section ForwardEach.
Variable forward : payload -> M value.

Lemma forward_each_forwards items : forall w w',
  forwards forward items w w' ->
  forward_each forward items w = (w', Returns tt).
Proof.
  induction items as [|item items IH]; intros w w' Hfw; inversion Hfw; subst.
  - reflexivity.
  - simpl. erewrite bind_returns by eassumption. by apply IH.
Qed.

Lemma forward_each_fails pre item post : forall w w1 w2 e,
  forwards forward pre w w1 ->
  forward (Elem item) w1 = (w2, Raises e) ->
  forward_each forward (pre ++ item :: post) w = (w2, Raises e).
Proof.
  induction pre as [|p pre IH]; intros w w1 w2 e Hfw Hfail;
    inversion Hfw; subst; simpl.
  - by erewrite bind_raises by eassumption.
  - erewrite bind_returns by eassumption. by eapply IH.
Qed.

Lemma forwards_app l1 l2 w w' :
  forwards forward (l1 ++ l2) w w' <->
  exists w1, forwards forward l1 w w1 /\ forwards forward l2 w1 w'.
Proof.
  revert w. induction l1 as [|x l1 IH]; intros w; simpl.
  - split.
    + intros Hfw. exists w. split; [constructor|done].
    + intros (w1 & H1 & H2). by inversion H1; subst.
  - split.
    + intros Hfw. inversion Hfw as [|? ? ? w1 ? r Hstep Hrest]; subst.
      apply IH in Hrest as (w2 & H1 & H2).
      exists w2. split; [by econstructor|done].
    + intros (w1 & H1 & H2). inversion H1; subst.
      econstructor; [eassumption|]. apply IH. eauto.
Qed.

Lemma forwards_frame items w w' :
  (forall p, framed (forward p)) ->
  forwards forward items w w' -> frame w w'.
Proof.
  intros Hf. induction 1 as [|item rest w w1 w' r Hstep _ IH].
  - apply frame_refl.
  - eapply frame_trans; [by eapply Hf|exact IH].
Qed.
End ForwardEach.

Section FlatMapFacts.
Context `{PythonLib}.

Lemma do_FlatMap_element fuel self fn outs trf w x result_elements items :
  nodes w !! self = Some (mkNode (FlatMap fn) outs trf) ->
  fn x = Returns result_elements ->
  py_iter result_elements = Returns items ->
  do_ (S fuel) (PNode self) (Elem x) w
  = (forward_each (_do_downstream (do_ fuel) self) items ;; ret VNone) w.
Proof.
  intros Hn Hfn Hiter. cbn [do_].
  rewrite (bind_returns _ _ _ _ _ (get_node_found _ _ _ Hn)). simpl.
  unfold UnaryFunctionFlow_do, FlatMap_do_internal, bind, lift.
  rewrite Hfn, Hiter. reflexivity.
Qed.

(** C5.  A [FlatMap] node handed an element iterates over what its
    function returned and forwards the items one at a time, in order,
    each forwarding awaited before the next.  If every forwarding
    returns, [do] returns in the store the last one left.  If the
    forwarding of an item raises, [do] raises the same exception in the
    store that forwarding left, whatever items come after it: none of
    them is forwarded.  Fed a stream of elements, the node forwards the
    concatenation of their item lists, in order. *)
Theorem FlatMap_forwards_in_order fuel self fn outs trf w :
  nodes w !! self = Some (mkNode (FlatMap fn) outs trf) ->
  (forall x result_elements items w',
      fn x = Returns result_elements ->
      py_iter result_elements = Returns items ->
      forwards (_do_downstream (do_ fuel) self) items w w' ->
      do_ (S fuel) (PNode self) (Elem x) w = (w', Returns VNone)) /\
  (forall x result_elements pre item post w1 w2 e,
      fn x = Returns result_elements ->
      py_iter result_elements = Returns (pre ++ item :: post) ->
      forwards (_do_downstream (do_ fuel) self) pre w w1 ->
      _do_downstream (do_ fuel) self (Elem item) w1 = (w2, Raises e) ->
      do_ (S fuel) (PNode self) (Elem x) w = (w2, Raises e)) /\
  (forall xs (items_of : value -> list value) w',
      Forall (fun x => exists result_elements,
                  fn x = Returns result_elements /\
                  py_iter result_elements = Returns (items_of x)) xs ->
      forwards (_do_downstream (do_ fuel) self)
               (concat (map items_of xs)) w w' ->
      feed (do_ (S fuel) (PNode self)) xs w = (w', Returns tt)).
Proof.
  intros Hn.
  assert (Hone : forall w0 x result_elements items w',
             nodes w0 !! self = Some (mkNode (FlatMap fn) outs trf) ->
             fn x = Returns result_elements ->
             py_iter result_elements = Returns items ->
             forwards (_do_downstream (do_ fuel) self) items w0 w' ->
             do_ (S fuel) (PNode self) (Elem x) w0 = (w', Returns VNone)).
  { intros w0 x re items w' Hn0 Hfn Hiter Hfw.
    rewrite (do_FlatMap_element _ _ _ _ _ _ _ _ _ Hn0 Hfn Hiter).
    by rewrite (bind_returns _ _ _ _ _ (forward_each_forwards _ _ _ _ Hfw)). }
  split; [|split].
  - intros x re items w' Hfn Hiter Hfw. by eapply Hone.
  - intros x re pre item post w1 w2 e Hfn Hiter Hfw Hfail.
    rewrite (do_FlatMap_element _ _ _ _ _ _ _ _ _ Hn Hfn Hiter).
    by rewrite (bind_raises _ _ _ _ _
                  (forward_each_fails _ _ _ post _ _ _ _ Hfw Hfail)).
  - intros xs items_of. revert w Hn.
    induction xs as [|x xs IH]; intros w Hn w' Hall Hfw.
    + inversion Hfw; subst. reflexivity.
    + apply Forall_cons in Hall as [(re & Hfn & Hiter) Hall].
      simpl in Hfw. apply forwards_app in Hfw as (w1 & Hfw1 & Hfw2).
      cbn [feed].
      rewrite (bind_returns _ _ _ _ _ (Hone _ _ _ _ _ Hn Hfn Hiter Hfw1)).
      apply IH; [|done|done].
      assert (Hframe : frame w w1).
      { eapply forwards_frame; [|exact Hfw1].
        intros p. apply framed_do_downstream. apply framed_do. }
      by apply Hframe.
Qed.

End FlatMapFacts.

(** ** [Source]: the worker's failure and the caller *)

Lemma get_source_found w self st outs trf :
  nodes w !! self = Some (mkNode (Source st) outs trf) ->
  get_source self w = (w, Returns st).
Proof.
  intros Hn. unfold get_source.
  by rewrite (bind_returns _ _ _ _ _ (get_node_found _ _ _ Hn)).
Qed.

Lemma set_source_found w self st st' outs trf :
  nodes w !! self = Some (mkNode (Source st) outs trf) ->
  set_source self st' w
  = (with_node w self (mkNode (Source st') outs trf), Returns tt).
Proof.
  intros Hn. unfold set_source.
  by rewrite (bind_returns _ _ _ _ _ (get_node_found _ _ _ Hn)).
Qed.

(** The first and the last statement of [_emit] on a source that holds a
    recorded failure. *)
Lemma RaiseOnError_recorded w self st outs trf e :
  nodes w !! self = Some (mkNode (Source st) outs trf) ->
  src_ex st = Some e ->
  exec_op self RaiseOnError w
  = Some (w, Raises (FlowException "execution error" (Some e))).
Proof.
  intros Hn Hex. unfold exec_op, atomic. f_equal.
  rewrite (bind_returns _ _ _ _ _ (get_source_found _ _ _ _ _ Hn)).
  rewrite Hex. unfold _raise_on_error.
  rewrite (bind_returns _ _ _ _ _ (get_source_found _ _ _ _ _ Hn)).
  by rewrite Hex.
Qed.

Lemma RaiseOnError_clear w self st outs trf :
  nodes w !! self = Some (mkNode (Source st) outs trf) ->
  src_ex st = None ->
  exec_op self RaiseOnError w = Some (w, Returns tt).
Proof.
  intros Hn Hex. unfold exec_op, atomic. f_equal.
  rewrite (bind_returns _ _ _ _ _ (get_source_found _ _ _ _ _ Hn)).
  by rewrite Hex.
Qed.

Lemma QPut_room w self st outs trf element :
  nodes w !! self = Some (mkNode (Source st) outs trf) ->
  (length (src_q st) < buffer_size st)%nat ->
  exec_op self (QPut element) w
  = Some (with_node w self
            (mkNode (Source (with_q st (src_q st ++ [element]))) outs trf),
          Returns tt).
Proof.
  intros Hn Hroom. unfold exec_op.
  rewrite (get_source_found _ _ _ _ _ Hn).
  destruct (Nat.ltb_spec (length (src_q st)) (buffer_size st)); [|lia].
  by rewrite (set_source_found _ _ _ _ _ _ Hn).
Qed.

Lemma QPut_full w self st outs trf element :
  nodes w !! self = Some (mkNode (Source st) outs trf) ->
  (buffer_size st <= length (src_q st))%nat ->
  exec_op self (QPut element) w = None.
Proof.
  intros Hn Hfull. unfold exec_op.
  rewrite (get_source_found _ _ _ _ _ Hn).
  by destruct (Nat.ltb_spec (length (src_q st)) (buffer_size st)); [lia|].
Qed.

Lemma await_termination_waits w self st outs trf :
  nodes w !! self = Some (mkNode (Source st) outs trf) ->
  src_termination_q st = [] ->
  await_termination self w = None.
Proof.
  intros Hn Htq. unfold await_termination.
  by rewrite (get_source_found _ _ _ _ _ Hn), Htq.
Qed.

Lemma await_termination_failed w self st outs trf got tq e :
  nodes w !! self = Some (mkNode (Source st) outs trf) ->
  src_termination_q st = Some got :: tq ->
  src_ex st = Some e ->
  await_termination self w
  = Some (with_node w self
            (mkNode (Source (with_termination_q st tq)) outs trf),
          Raises (FlowException "execution error" (Some e))).
Proof.
  intros Hn Htq Hex. unfold await_termination.
  rewrite (get_source_found _ _ _ _ _ Hn), Htq. f_equal.
  rewrite (bind_returns _ _ _ _ _ (set_source_found _ _ _ _ _ _ Hn)).
  unfold _raise_on_error.
  erewrite bind_raises; [reflexivity|].
  erewrite bind_returns by (eapply get_source_found, with_node_lookup).
  simpl. by rewrite Hex.
Qed.

Section SourceFacts.
Context `{PythonLib}.

Lemma worker_step_LoopExited fuel w self st outs trf :
  nodes w !! self = Some (mkNode (Source st) outs trf) ->
  src_thread st = LoopExited ->
  src_termination_q st = [] ->
  worker_step fuel self w
  = Some (with_node w self
            (mkNode (Source (with_thread (with_termination_q st [src_ex st])
                                         ThreadFinished)) outs trf),
          Returns tt).
Proof.
  intros Hn Hpc Htq. unfold worker_step.
  rewrite (get_source_found _ _ _ _ _ Hn), Hpc, Htq.
  by rewrite (set_source_found _ _ _ _ _ _ Hn).
Qed.

Lemma worker_step_ThreadFinished fuel w self st outs trf :
  nodes w !! self = Some (mkNode (Source st) outs trf) ->
  src_thread st = ThreadFinished ->
  worker_step fuel self w = None.
Proof.
  intros Hn Hpc. unfold worker_step.
  by rewrite (get_source_found _ _ _ _ _ Hn), Hpc.
Qed.

(** The statements of the [except] clause on a source. *)
Lemma record_ex_found w self st outs trf e :
  nodes w !! self = Some (mkNode (Source st) outs trf) ->
  record_ex self e w
  = (with_node w self (mkNode (Source (with_ex st (Some e))) outs trf),
     Returns tt).
Proof.
  intros Hn. unfold record_ex.
  rewrite (bind_returns _ _ _ _ _ (get_source_found _ _ _ _ _ Hn)).
  by rewrite (set_source_found _ _ _ _ _ _ Hn).
Qed.

Lemma q_empty_found w self st outs trf :
  nodes w !! self = Some (mkNode (Source st) outs trf) ->
  q_empty self w = (w, Returns (Nat.eqb (length (src_q st)) 0)).
Proof.
  intros Hn. unfold q_empty.
  by rewrite (bind_returns _ _ _ _ _ (get_source_found _ _ _ _ _ Hn)).
Qed.

Lemma q_drop_found w self st outs trf :
  nodes w !! self = Some (mkNode (Source st) outs trf) ->
  q_drop self w
  = (with_node w self (mkNode (Source (with_q st (tail (src_q st)))) outs trf),
     Returns tt).
Proof.
  intros Hn. unfold q_drop.
  rewrite (bind_returns _ _ _ _ _ (get_source_found _ _ _ _ _ Hn)).
  by rewrite (set_source_found _ _ _ _ _ _ Hn).
Qed.

Lemma set_result_pending w self st outs trf r :
  nodes w !! self = Some (mkNode (Source st) outs trf) ->
  src_termination_future st = Some Pending ->
  termination_future_set_result self r w
  = (with_node w self
       (mkNode (Source (with_termination_future st (Some (Resolved r))))
               outs trf),
     Returns tt).
Proof.
  intros Hn Hfut. unfold termination_future_set_result.
  rewrite (bind_returns _ _ _ _ _ (get_source_found _ _ _ _ _ Hn)), Hfut.
  by rewrite (set_source_found _ _ _ _ _ _ Hn).
Qed.

(** The [except] clause on a source whose termination future is pending. *)
Lemma run_loop_except_found w self st outs trf e :
  nodes w !! self = Some (mkNode (Source st) outs trf) ->
  src_termination_future st = Some Pending ->
  _run_loop_except self e w
  = (with_node w self
       (mkNode (Source (mkSource (buffer_size st) (tail (src_q st))
                          (src_termination_q st) (Some e)
                          (Some (Resolved VNone)) (src_thread st)))
               outs trf),
     Returns tt).
Proof.
  intros Hn Hfut. unfold _run_loop_except.
  rewrite (bind_returns _ _ _ _ _ (record_ex_found _ _ _ _ _ e Hn)).
  pose proof (with_node_lookup w self
                (mkNode (Source (with_ex st (Some e))) outs trf)) as Hn1.
  rewrite (bind_returns _ _ _ _ _ (q_empty_found _ _ _ _ _ Hn1)).
  change (src_q (with_ex st (Some e))) with (src_q st).
  destruct (src_q st) as [|x q] eqn:Hq; cbn [length Nat.eqb].
  - rewrite bind_ret_l.
    erewrite set_result_pending; [|exact Hn1|exact Hfut].
    rewrite with_node_twice.
    unfold with_termination_future, with_ex. simpl. by rewrite Hq.
  - rewrite (bind_returns _ _ _ _ _ (q_drop_found _ _ _ _ _ Hn1)).
    rewrite with_node_twice.
    erewrite set_result_pending; [|apply with_node_lookup|exact Hfut].
    rewrite with_node_twice.
    unfold with_termination_future, with_q, with_ex. simpl. by rewrite Hq.
Qed.

End SourceFacts.

(** ** The worker of a [Source], statement by statement *)

Section LoopStepFacts.
Context `{PythonLib}.
Variables (w : world) (self : nat) (st : source_state).
Variables (outs : list pyobj) (trf : callable2).
Hypothesis Hn : nodes w !! self = Some (mkNode (Source st) outs trf).

Lemma loop_step_Starting fuel :
  src_thread st = Starting ->
  loop_step fuel self AtGet w
  = Some (with_node w self
            (mkNode (Source (with_thread
                               (with_termination_future st (Some Pending))
                               InLoop)) outs trf),
          Returns AtGet).
Proof.
  intros Hpc. unfold loop_step.
  rewrite (get_source_found _ _ _ _ _ Hn), Hpc.
  by rewrite (bind_returns _ _ _ _ _ (set_source_found _ _ _ _ _ _ Hn)).
Qed.

Lemma loop_step_get fuel element rest :
  src_thread st = InLoop ->
  src_q st = element :: rest ->
  loop_step fuel self AtGet w
  = Some (with_node w self (mkNode (Source (with_q st rest)) outs trf),
          Returns (Holding element)).
Proof.
  intros Hpc Hq. unfold loop_step.
  rewrite (get_source_found _ _ _ _ _ Hn), Hpc, Hq.
  by rewrite (bind_returns _ _ _ _ _ (set_source_found _ _ _ _ _ _ Hn)).
Qed.

Lemma loop_step_get_waits fuel :
  src_thread st = InLoop ->
  src_q st = [] ->
  loop_step fuel self AtGet w = None.
Proof.
  intros Hpc Hq. unfold loop_step.
  by rewrite (get_source_found _ _ _ _ _ Hn), Hpc, Hq.
Qed.

Lemma loop_step_Holding fuel element :
  src_thread st = InLoop ->
  loop_step fuel self (Holding element) w
  = Some (match _run_loop_try fuel self element w with
          | (w', Returns brk) =>
              (st' <- get_source self ;;
               set_source self
                 (with_thread st'
                    (if brk : bool then LoopExited else InLoop)) ;;
               ret AtGet) w'
          | (w', Raises ex) => (w', Returns (Caught ex))
          | (w', OutOfFuel) => (w', OutOfFuel)
          end).
Proof.
  intros Hpc. unfold loop_step.
  by rewrite (get_source_found _ _ _ _ _ Hn), Hpc.
Qed.

(** The element makes [_do_downstream] raise: the exception is caught. *)
Lemma loop_step_Holding_raises fuel element w1 e :
  src_thread st = InLoop ->
  _do_downstream (do_ fuel) self element w = (w1, Raises e) ->
  loop_step fuel self (Holding element) w = Some (w1, Returns (Caught e)).
Proof.
  intros Hpc Hfail. rewrite (loop_step_Holding _ _ Hpc).
  unfold _run_loop_try. by rewrite (bind_raises _ _ _ _ _ Hfail).
Qed.

Lemma loop_step_Caught fuel e :
  src_thread st = InLoop ->
  loop_step fuel self (Caught e) w
  = Some (with_node w self (mkNode (Source (with_ex st (Some e))) outs trf),
          Returns Recorded).
Proof.
  intros Hpc. unfold loop_step.
  rewrite (get_source_found _ _ _ _ _ Hn), Hpc.
  by rewrite (bind_returns _ _ _ _ _ (record_ex_found _ _ _ _ _ e Hn)).
Qed.

Lemma loop_step_Recorded fuel :
  src_thread st = InLoop ->
  loop_step fuel self Recorded w
  = Some (w, Returns (if is_nil (src_q st) then Drained else Draining)).
Proof.
  intros Hpc. unfold loop_step.
  rewrite (get_source_found _ _ _ _ _ Hn), Hpc.
  rewrite (bind_returns _ _ _ _ _ (q_empty_found _ _ _ _ _ Hn)).
  by destruct (src_q st).
Qed.

Lemma loop_step_Draining fuel element rest :
  src_thread st = InLoop ->
  src_q st = element :: rest ->
  loop_step fuel self Draining w
  = Some (with_node w self (mkNode (Source (with_q st rest)) outs trf),
          Returns Drained).
Proof.
  intros Hpc Hq. unfold loop_step.
  rewrite (get_source_found _ _ _ _ _ Hn), Hpc, Hq.
  rewrite (bind_returns _ _ _ _ _ (q_drop_found _ _ _ _ _ Hn)).
  by rewrite Hq.
Qed.

Lemma loop_step_Draining_waits fuel :
  src_thread st = InLoop ->
  src_q st = [] ->
  loop_step fuel self Draining w = None.
Proof.
  intros Hpc Hq. unfold loop_step.
  by rewrite (get_source_found _ _ _ _ _ Hn), Hpc, Hq.
Qed.

Lemma loop_step_Drained fuel :
  src_thread st = InLoop ->
  src_termination_future st = Some Pending ->
  loop_step fuel self Drained w
  = Some (with_node w self
            (mkNode (Source (with_thread
                               (with_termination_future st
                                  (Some (Resolved VNone)))
                               LoopExited)) outs trf),
          Returns AtGet).
Proof.
  intros Hpc Hfut. unfold loop_step.
  rewrite (get_source_found _ _ _ _ _ Hn), Hpc.
  rewrite (set_result_pending _ _ _ _ _ VNone Hn Hfut).
  erewrite bind_returns by (eapply get_source_found, with_node_lookup).
  erewrite bind_returns by (eapply set_source_found, with_node_lookup).
  by rewrite with_node_twice.
Qed.

Lemma loop_step_LoopExited fuel :
  src_thread st = LoopExited ->
  src_termination_q st = [] ->
  loop_step fuel self AtGet w
  = Some (with_node w self
            (mkNode (Source (with_thread (with_termination_q st [src_ex st])
                                         ThreadFinished)) outs trf),
          Returns AtGet).
Proof.
  intros Hpc Htq. unfold loop_step.
  rewrite (get_source_found _ _ _ _ _ Hn), Hpc, Htq.
  by rewrite (bind_returns _ _ _ _ _ (set_source_found _ _ _ _ _ _ Hn)).
Qed.

Lemma loop_step_ThreadFinished fuel pc :
  src_thread st = ThreadFinished ->
  loop_step fuel self pc w = None.
Proof.
  intros Hpc. unfold loop_step.
  rewrite (get_source_found _ _ _ _ _ Hn), Hpc. by destruct pc.
Qed.

End LoopStepFacts.

Section SourceFailure.
Context `{PythonLib}.

(** C3.  The worker thread of a source is in its loop with [element] at
    the head of the queue, and processing [element] raises [e].  Then the
    worker's turn records [e] in [_ex], takes at most one more entry off
    the queue, resolves the termination future with [None] and leaves the
    loop, whether the turn is taken as one move or statement by statement;
    its only further move puts [e] on [_termination_q], after which it
    moves no more and the queue is never touched again.  From then on
    [_emit] raises [FlowException] from [e] at its first statement,
    without enqueuing and without waiting, and [await_termination], which
    waits until the thread has finished, raises [FlowException] from [e].
    [_emit] checks twice.  A caller who finds no failure and the queue
    full waits in [put]; after the worker's turn the rest of [_emit]
    enqueues and raises.  And on the schedule [late_failure] the caller
    passes the first check, the worker takes [element] and fails on it,
    the caller enqueues, the worker records [e], the check after the
    [put] raises [FlowException] from [e], and the worker drops one entry,
    resolves the future and finishes. *)
Theorem Source_failure_is_deferred fuel self st outs trf w element rest w1 e :
  nodes w !! self = Some (mkNode (Source st) outs trf) ->
  src_thread st = InLoop ->
  src_q st = element :: rest ->
  src_termination_q st = [] ->
  src_termination_future st = Some Pending ->
  _do_downstream (do_ fuel) self element
    (with_node w self (mkNode (Source (with_q st rest)) outs trf))
  = (w1, Raises e) ->
  worker_step fuel self w
  = Some (after_failure w1 self st outs trf e LoopExited [] (tail rest),
          Returns tt) /\
  whole_turn fuel self w
  = Some (after_failure w1 self st outs trf e LoopExited [] (tail rest),
          Returns tt) /\
  (forall fuel',
      worker_step fuel' self
        (after_failure w1 self st outs trf e LoopExited [] (tail rest))
      = Some (after_failure w1 self st outs trf e ThreadFinished [Some e]
                (tail rest),
              Returns tt)) /\
  (forall fuel',
      worker_step fuel' self
        (after_failure w1 self st outs trf e ThreadFinished [Some e]
           (tail rest))
      = None) /\
  (forall x,
      run_ops self (_emit x)
        (after_failure w1 self st outs trf e LoopExited [] (tail rest))
      = Some (after_failure w1 self st outs trf e LoopExited [] (tail rest),
              Raises (execution_error e))) /\
  (forall x,
      run_ops self (_emit x)
        (after_failure w1 self st outs trf e ThreadFinished [Some e]
           (tail rest))
      = Some (after_failure w1 self st outs trf e ThreadFinished [Some e]
                (tail rest),
              Raises (execution_error e))) /\
  await_termination self
    (after_failure w1 self st outs trf e LoopExited [] (tail rest))
  = None /\
  await_termination self
    (after_failure w1 self st outs trf e ThreadFinished [Some e] (tail rest))
  = Some (after_failure w1 self st outs trf e ThreadFinished [] (tail rest),
          Raises (execution_error e)) /\
  (forall x,
      src_ex st = None ->
      length (src_q st) = buffer_size st ->
      run_ops self (take 1 (_emit x)) w = Some (w, Returns tt) /\
      run_ops self (_emit x) w = None /\
      run_ops self (drop 1 (_emit x))
        (after_failure w1 self st outs trf e LoopExited [] (tail rest))
      = Some (after_failure w1 self st outs trf e LoopExited []
                (tail rest ++ [x]),
              Raises (execution_error e))) /\
  (forall x,
      src_ex st = None ->
      (length (src_q st) <= buffer_size st)%nat ->
      run_moves late_failure fuel self (w, AtGet, _emit x) (Returns tt)
      = Some (after_failure w1 self st outs trf e ThreadFinished [Some e]
                (tail (rest ++ [x])),
              AtGet, [], Raises (execution_error e))).
Proof.
  intros Hn Hpc Hq Htq Hfut Hfail. unfold after_failure.
  pose (failed := fun pc tq q => mkNode (failed_source st e pc tq q) outs trf).
  repeat match goal with
         | |- context [mkNode (failed_source st e ?pc ?tq ?q) outs trf] =>
             change (mkNode (failed_source st e pc tq q) outs trf)
               with (failed pc tq q)
         end.
  set (w2 := with_node w1 self (failed LoopExited [] (tail rest))).
  set (w3 := with_node w1 self (failed ThreadFinished [Some e] (tail rest))).
  set (wq := with_node w self (mkNode (Source (with_q st rest)) outs trf))
    in *.
  assert (Hnq : nodes wq !! self
                = Some (mkNode (Source (with_q st rest)) outs trf))
    by apply with_node_lookup.
  assert (Hn1 : nodes w1 !! self
                = Some (mkNode (Source (with_q st rest)) outs trf)).
  { eapply (framed_do_downstream _ (framed_do fuel)); [exact Hfail| |done].
    apply with_node_lookup. }
  assert (Hn2 : nodes w2 !! self = Some (failed LoopExited [] (tail rest)))
    by apply with_node_lookup.
  assert (Hn3 : nodes w3 !! self
                = Some (failed ThreadFinished [Some e] (tail rest)))
    by apply with_node_lookup.
  assert (Hstep : worker_step fuel self w = Some (w2, Returns tt)).
  { unfold worker_step. rewrite (get_source_found _ _ _ _ _ Hn), Hpc, Hq.
    f_equal.
    rewrite (bind_returns _ _ _ _ _ (set_source_found _ _ _ _ _ _ Hn)).
    fold wq. unfold _run_loop_turn, try_except, _run_loop_try.
    rewrite (bind_raises _ _ _ _ _ Hfail).
    rewrite (bind_returns _ _ _ _ _
               (run_loop_except_found _ _ _ _ _ e Hn1 Hfut)).
    unfold ret at 1.
    erewrite bind_returns
      by (eapply get_source_found, with_node_lookup).
    erewrite set_source_found by apply with_node_lookup.
    rewrite with_node_twice. unfold w2, failed, with_thread. simpl.
    by rewrite Htq. }
  split; [exact Hstep|]. split; [|split; [|split; [|split; [|split;
    [|split; [|split; [|split]]]]]]].
  - (* statement by statement *)
    unfold whole_turn.
    rewrite (loop_step_get _ _ _ _ _ Hn fuel element rest Hpc Hq). fold wq.
    cbn [finish_turn].
    rewrite (loop_step_Holding_raises _ _ _ _ _ Hnq fuel element w1 e Hpc
               Hfail).
    rewrite (loop_step_Caught _ _ _ _ _ Hn1 fuel e Hpc).
    set (wr := with_node w1 self _).
    assert (Hnr : nodes wr !! self
                  = Some (mkNode (Source (with_ex (with_q st rest) (Some e)))
                                 outs trf)) by apply with_node_lookup.
    rewrite (loop_step_Recorded _ _ _ _ _ Hnr fuel Hpc).
    change (src_q (with_ex (with_q st rest) (Some e))) with rest.
    destruct rest as [|y rest']; cbn [is_nil].
    + rewrite (loop_step_Drained _ _ _ _ _ Hnr fuel Hpc Hfut).
      unfold wr, w2. rewrite with_node_twice. cbn [finish_turn].
      unfold failed, failed_source, with_thread, with_termination_future,
        with_ex, with_q. cbn. by rewrite Htq.
    + rewrite (loop_step_Draining _ _ _ _ _ Hnr fuel y rest' Hpc eq_refl).
      unfold wr. rewrite with_node_twice.
      erewrite loop_step_Drained;
        [|apply with_node_lookup|exact Hpc|exact Hfut].
      rewrite with_node_twice. cbn [finish_turn]. unfold w2.
      unfold failed, failed_source, with_thread, with_termination_future,
        with_ex, with_q. cbn. by rewrite Htq.
  - intros fuel'.
    rewrite (worker_step_LoopExited fuel' _ _ _ _ _ Hn2) by reflexivity.
    unfold w2, w3. by rewrite with_node_twice.
  - intros fuel'. by rewrite (worker_step_ThreadFinished fuel' _ _ _ _ _ Hn3).
  - intros x. cbn [run_ops _emit].
    by rewrite (RaiseOnError_recorded _ _ _ _ _ e Hn2).
  - intros x. cbn [run_ops _emit].
    by rewrite (RaiseOnError_recorded _ _ _ _ _ e Hn3).
  - by rewrite (await_termination_waits _ _ _ _ _ Hn2).
  - rewrite (await_termination_failed _ _ _ _ _ e [] e Hn3) by reflexivity.
    unfold w3. by rewrite with_node_twice.
  - (* the caller who waited on the full queue *)
    intros x Hex Hfull. split; [|split].
    + cbn [_emit take run_ops].
      by rewrite (RaiseOnError_clear _ _ _ _ _ Hn Hex).
    + cbn [_emit run_ops].
      rewrite (RaiseOnError_clear _ _ _ _ _ Hn Hex).
      by rewrite (QPut_full _ _ _ _ _ x Hn) by lia.
    + cbn [_emit drop run_ops].
      assert (Hroom : (length (tail rest) < buffer_size st)%nat).
      { rewrite <- Hfull, Hq. simpl. destruct rest; simpl; lia. }
      rewrite (QPut_room _ _ _ _ _ x Hn2) by exact Hroom.
      unfold w2. rewrite with_node_twice.
      match goal with
      | |- context [exec_op self RaiseOnError (with_node ?a ?b ?c)] =>
          rewrite (RaiseOnError_recorded (with_node a b c) self _ outs trf e
                     (with_node_lookup a b c) eq_refl)
      end.
      reflexivity.
  - (* the schedule [late_failure] *)
    intros x Hex Hlen. rewrite Hq in Hlen. cbn [length] in Hlen.
    unfold late_failure. cbn [run_moves _emit].
    rewrite (RaiseOnError_clear _ _ _ _ _ Hn Hex).
    rewrite (loop_step_get _ _ _ _ _ Hn fuel element rest Hpc Hq). fold wq.
    rewrite (loop_step_Holding_raises _ _ _ _ _ Hnq fuel element w1 e Hpc
               Hfail).
    rewrite (QPut_room _ _ _ _ _ x Hn1) by (cbn; lia).
    erewrite loop_step_Caught; [|apply with_node_lookup|exact Hpc].
    rewrite with_node_twice.
    erewrite RaiseOnError_recorded; [|apply with_node_lookup|reflexivity].
    erewrite loop_step_Recorded; [|apply with_node_lookup|exact Hpc].
    cbn [src_q with_q with_ex].
    assert (Hsome : exists y q', rest ++ [x] = y :: q').
    { destruct rest as [|y q']; cbn; eauto. }
    destruct Hsome as (y & q' & Hsome). rewrite Hsome. cbn [is_nil tail].
    erewrite loop_step_Draining;
      [|apply with_node_lookup|exact Hpc|reflexivity].
    rewrite with_node_twice.
    erewrite loop_step_Drained;
      [|apply with_node_lookup|exact Hpc|exact Hfut].
    rewrite with_node_twice.
    erewrite loop_step_LoopExited;
      [|apply with_node_lookup|reflexivity|exact Htq].
    rewrite with_node_twice. reflexivity.
Qed.

End SourceFailure.

(** ** [JoinWithTable] *)

Lemma get_join_runtime_found w self ke jf gi rt outs trf :
  nodes w !! self = Some (mkNode (JoinWithTable ke jf gi (Some rt)) outs trf) ->
  get_join_runtime self w = (w, Returns rt).
Proof.
  intros Hn. unfold get_join_runtime.
  by rewrite (bind_returns _ _ _ _ _ (get_node_found _ _ _ Hn)).
Qed.

Lemma set_join_runtime_found w self ke jf gi rt0 rt outs trf :
  nodes w !! self = Some (mkNode (JoinWithTable ke jf gi rt0) outs trf) ->
  set_join_runtime self rt w
  = (with_node w self (mkNode (JoinWithTable ke jf gi (Some rt)) outs trf),
     Returns tt).
Proof.
  intros Hn. unfold set_join_runtime.
  by rewrite (bind_returns _ _ _ _ _ (get_node_found _ _ _ Hn)).
Qed.

Lemma get_join_function_found w self ke jf gi rt outs trf :
  nodes w !! self = Some (mkNode (JoinWithTable ke jf gi rt) outs trf) ->
  get_join_function self w = (w, Returns jf).
Proof.
  intros Hn. unfold get_join_function.
  by rewrite (bind_returns _ _ _ _ _ (get_node_found _ _ _ Hn)).
Qed.

Section JoinFacts.
Context `{PythonLib}.

(** C10.  Once the worker task of a [JoinWithTable] node is done, [do]
    processes nothing: it extracts no key, issues no request, enqueues
    nothing and leaves the store as it is.  It raises the exception that
    ended the worker if there is one, and otherwise
    [Exception("JoinWithTable worker has already terminated")]; this for
    an element and for the marker alike. *)
Theorem JoinWithTable_do_after_worker_done
    fuel self ke jf gi rt outs trf w element failure :
  nodes w !! self = Some (mkNode (JoinWithTable ke jf gi (Some rt)) outs trf) ->
  join_worker rt = TaskDone failure ->
  do_ (S fuel) (PNode self) element w
  = (w, Raises match failure with
               | Some ex => ex
               | None => Exception "JoinWithTable worker has already terminated"
               end).
Proof.
  intros Hn Hdone. cbn [do_].
  rewrite (bind_returns _ _ _ _ _ (get_node_found _ _ _ Hn)). simpl.
  unfold JoinWithTable_do.
  rewrite (bind_returns _ _ _ _ _ (get_node_found _ _ _ Hn)). simpl.
  rewrite bind_ret_l.
  rewrite (bind_returns _ _ _ _ _ (get_join_runtime_found _ _ _ _ _ _ _ _ Hn)).
  rewrite Hdone. by destruct failure.
Qed.

End JoinFacts.

(** ** The worker of [JoinWithTable], job by job *)

Section WorkerFacts.
Context `{PythonLib}.
Variable do_ : pyobj -> payload -> M value.

(** A response with status 404: nothing is forwarded, nothing is raised. *)
Lemma worker_job_not_found self element resp w :
  status resp = 404 ->
  _worker_job do_ self element (Returns resp) w = (w, Returns tt).
Proof.
  intros Hst. unfold _worker_job. rewrite bind_lift_returns, Hst. reflexivity.
Qed.

(** A response with status 200 and a record that decodes to a non-empty
    dict: the join function is applied to the element and the record, and
    its result is forwarded, once. *)
Lemma worker_job_match self ke jf gi rt outs trf element resp record joined w :
  nodes w !! self = Some (mkNode (JoinWithTable ke jf gi rt) outs trf) ->
  status resp = 200 ->
  _parse_response (text resp) = Returns record ->
  truthy record = true ->
  jf element record = Returns joined ->
  _worker_job do_ self element (Returns resp) w
  = (_do_downstream do_ self (Elem joined) ;; ret tt) w.
Proof.
  intros Hn Hst Hparse Htruthy Hjoin. unfold _worker_job.
  unfold bind, lift, ret. rewrite Hst. change (Z.eqb 200 200) with true.
  cbv iota beta. rewrite Hparse, Htruthy.
  rewrite (get_join_function_found _ _ _ _ _ _ _ _ Hn).
  by rewrite Hjoin.
Qed.

(** A response with status 200 whose record is empty: nothing is
    forwarded and the join function is not applied. *)
Lemma worker_job_empty_record self element resp record w :
  status resp = 200 ->
  _parse_response (text resp) = Returns record ->
  truthy record = false ->
  _worker_job do_ self element (Returns resp) w = (w, Returns tt).
Proof.
  intros Hst Hparse Htruthy. unfold _worker_job.
  unfold bind, lift, ret. rewrite Hst. change (Z.eqb 200 200) with true.
  cbv iota beta. by rewrite Hparse, Htruthy.
Qed.

(** A response with status 200 that does not decode: the exception of
    [_parse_response] leaves the job. *)
Lemma worker_job_undecodable self element resp ex w :
  status resp = 200 ->
  _parse_response (text resp) = Raises ex ->
  _worker_job do_ self element (Returns resp) w = (w, Raises ex).
Proof.
  intros Hst Hparse. unfold _worker_job.
  unfold bind, lift, ret. rewrite Hst. change (Z.eqb 200 200) with true.
  cbv iota beta. by rewrite Hparse.
Qed.

(** Any other status: the job raises, nothing is forwarded. *)
Lemma worker_job_other_status self element resp w :
  status resp <> 200 -> status resp <> 404 ->
  _worker_job do_ self element (Returns resp) w
  = (w, Raises (get_item_error resp)).
Proof.
  intros H200 H404. unfold _worker_job, bind, lift, ret, raise.
  destruct (Z.eqb_spec (status resp) 200); [done|].
  by destruct (Z.eqb_spec (status resp) 404).
Qed.

Lemma drain_one_found w self ke jf gi rt outs trf :
  nodes w !! self = Some (mkNode (JoinWithTable ke jf gi (Some rt)) outs trf) ->
  drain_one self w
  = (with_node w self
       (mkNode (JoinWithTable ke jf gi
                  (Some (mkJoinRuntime (join_session rt) (tail (join_q rt))
                           (join_worker rt)))) outs trf),
     Returns tt).
Proof.
  intros Hn. unfold drain_one.
  rewrite (bind_returns _ _ _ _ _ (get_join_runtime_found _ _ _ _ _ _ _ _ Hn)).
  by rewrite (set_join_runtime_found _ _ _ _ _ _ _ _ _ Hn).
Qed.

Lemma worker_exit_found w self ke jf gi rt outs trf failure :
  nodes w !! self = Some (mkNode (JoinWithTable ke jf gi (Some rt)) outs trf) ->
  worker_exit self failure w
  = (with_node w self
       (mkNode (JoinWithTable ke jf gi
                  (Some (mkJoinRuntime SessionClosed (join_q rt)
                           (TaskDone failure)))) outs trf),
     Returns tt).
Proof.
  intros Hn. unfold worker_exit.
  rewrite (bind_returns _ _ _ _ _ (get_join_runtime_found _ _ _ _ _ _ _ _ Hn)).
  by rewrite (set_join_runtime_found _ _ _ _ _ _ _ _ _ Hn).
Qed.

(** A job that raises ends the worker: one more entry leaves the queue,
    the session is closed and the task is done with the exception. *)
Lemma worker_aborts self ke jf gi session q outs trf element request w w1 ex n :
  nodes w !! self
  = Some (mkNode (JoinWithTable ke jf gi
                    (Some (mkJoinRuntime session
                             (Job element request :: q) TaskRunning)))
                 outs trf) ->
  _worker_job do_ self element request
    (with_node w self
       (mkNode (JoinWithTable ke jf gi
                  (Some (mkJoinRuntime session q TaskRunning))) outs trf))
  = (w1, Raises ex) ->
  nodes w1 !! self
  = Some (mkNode (JoinWithTable ke jf gi
                    (Some (mkJoinRuntime session q TaskRunning))) outs trf) ->
  _worker do_ (S n) self w
  = (with_node w1 self
       (mkNode (JoinWithTable ke jf gi
                  (Some (mkJoinRuntime SessionClosed (tail q)
                           (TaskDone (Some ex))))) outs trf),
     Returns tt).
Proof.
  intros Hn Hjob Hn1. unfold _worker. cbn [_worker_loop].
  rewrite (bind_returns _ _ _ _ _ (get_join_runtime_found _ _ _ _ _ _ _ _ Hn)).
  cbn [join_q join_session join_worker].
  rewrite (bind_returns _ _ _ _ _
             (set_join_runtime_found _ _ _ _ _ _ _ _ _ Hn)).
  rewrite (bind_raises _ _ _ _ _ Hjob). cbv iota beta.
  rewrite (bind_returns _ _ _ _ _ (drain_one_found _ _ _ _ _ _ _ _ Hn1)).
  erewrite worker_exit_found by apply with_node_lookup.
  by rewrite with_node_twice.
Qed.

(** The marker at the head of the queue ends the worker normally: the
    session is closed and the task is done without exception. *)
Lemma worker_terminates self ke jf gi session q outs trf w n :
  nodes w !! self
  = Some (mkNode (JoinWithTable ke jf gi
                    (Some (mkJoinRuntime session (JobTermination :: q)
                             TaskRunning))) outs trf) ->
  _worker do_ (S n) self w
  = (with_node w self
       (mkNode (JoinWithTable ke jf gi
                  (Some (mkJoinRuntime SessionClosed q (TaskDone None))))
               outs trf),
     Returns tt).
Proof.
  intros Hn. unfold _worker. cbn [_worker_loop].
  rewrite (bind_returns _ _ _ _ _ (get_join_runtime_found _ _ _ _ _ _ _ _ Hn)).
  cbn [join_q join_session join_worker].
  rewrite (bind_returns _ _ _ _ _
             (set_join_runtime_found _ _ _ _ _ _ _ _ _ Hn)).
  unfold ret at 1. cbv iota beta.
  erewrite worker_exit_found by apply with_node_lookup.
  by rewrite with_node_twice.
Qed.

End WorkerFacts.

(** ** Decoding a response *)

Lemma is_digit_not_minus c : is_digit c = true -> is_minus c = false.
Proof.
  unfold is_digit, is_minus. intros Hd.
  apply andb_true_iff in Hd as [Hlo _]. apply Nat.leb_le in Hlo.
  apply Nat.eqb_neq. lia.
Qed.

Lemma all_digits_cons c s :
  all_digits (String c s) = true ->
  is_digit c = true /\ (s = EmptyString \/ all_digits s = true).
Proof.
  simpl. destruct s as [|c' s'].
  - intros Hc. split; [done|by left].
  - intros Hall. apply andb_true_iff in Hall as [Hc Hs]. split; [done|by right].
Qed.

Lemma digits_to_Z_positional s : forall acc,
  all_digits s = true ->
  digits_to_Z s acc
  = Some (acc * 10 ^ Z.of_nat (String.length s) + positional_value s).
Proof.
  induction s as [|c s IH]; intros acc Hall; [discriminate|].
  apply all_digits_cons in Hall as [Hc [->|Hs]].
  - simpl. rewrite Hc. f_equal. lia.
  - cbn [digits_to_Z]. rewrite Hc, (IH _ Hs).
    cbn [String.length positional_value]. f_equal.
    rewrite Nat2Z.inj_succ, Z.pow_succ_r by lia. lia.
Qed.

Lemma all_digits_no_other_char s :
  all_digits s = true -> non_int_char_pattern_search s = false.
Proof.
  induction s as [|c s IH]; intros Hall; [done|].
  apply all_digits_cons in Hall as [Hc [->|Hs]]; simpl; rewrite Hc.
  - by rewrite orb_true_r.
  - rewrite orb_true_r. simpl. by apply IH.
Qed.

Lemma py_int_digits s :
  all_digits s = true -> py_int s = Returns (positional_value s).
Proof.
  intros Hall. destruct s as [|c s]; [discriminate|].
  pose proof (all_digits_cons _ _ Hall) as [Hc _].
  unfold py_int. rewrite (is_digit_not_minus _ Hc).
  rewrite (digits_to_Z_positional _ 0 Hall). reflexivity.
Qed.

Lemma py_int_minus_digits s :
  all_digits s = true ->
  py_int (String "-"%char s) = Returns (- positional_value s).
Proof.
  intros Hall. unfold py_int.
  change (is_minus "-"%char) with true. cbv iota.
  destruct s as [|c s]; [discriminate|].
  rewrite (digits_to_Z_positional _ 0 Hall). reflexivity.
Qed.

Section DecodeFacts.
Context `{PythonLib}.

Lemma decode_type_to_value_app pre post : forall val,
  decode_type_to_value (pre ++ post) val
  = (val' <~ decode_type_to_value pre val ;; decode_type_to_value post val').
Proof.
  induction pre as [|[typ v] pre IH]; intros val; [done|].
  simpl. destruct (decode_attribute typ v); simpl; [apply IH|done..].
Qed.

Lemma decode_item_app pre post : forall ro,
  decode_item (pre ++ post) ro
  = (ro' <~ decode_item pre ro ;; decode_item post ro').
Proof.
  induction pre as [|[name ttv] pre IH]; intros ro; [done|].
  simpl. destruct (items ttv); simpl; [|done..].
  destruct (decode_type_to_value a VNone); simpl; [apply IH|done..].
Qed.

(** The first attribute, in document order, whose decoding raises
    decides what [_parse_response] raises. *)
Lemma parse_response_raises body document entries pre name tags post
    decoded ex :
  json_loads body = Returns document ->
  getitem document "Item" = Returns (VDict entries) ->
  entries = pre ++ (name, VDict tags) :: post ->
  decode_item pre entries = Returns decoded ->
  decode_type_to_value tags VNone = Raises ex ->
  _parse_response body = Raises ex.
Proof.
  intros Hjson Hitem -> Hpre Htags. unfold _parse_response.
  rewrite Hjson. simpl. rewrite Hitem. simpl.
  rewrite decode_item_app, Hpre. simpl. by rewrite Htags.
Qed.

Lemma decode_attribute_string v : decode_attribute "S" v = Returns v.
Proof. reflexivity. Qed.

Lemma decode_attribute_boolean v : decode_attribute "BOOL" v = Returns v.
Proof. reflexivity. Qed.

Lemma decode_attribute_number s :
  decode_attribute "N" (VStr s)
  = if non_int_char_pattern_search s
    then f <~ float_of_str s ;; Returns (VFloat f)
    else z <~ py_int s ;; Returns (VInt z).
Proof. reflexivity. Qed.

Lemma decode_attribute_digits s :
  all_digits s = true ->
  decode_attribute "N" (VStr s) = Returns (VInt (positional_value s)).
Proof.
  intros Hs. rewrite decode_attribute_number.
  by rewrite (all_digits_no_other_char _ Hs), (py_int_digits _ Hs).
Qed.

Lemma decode_attribute_minus_digits s :
  all_digits s = true ->
  decode_attribute "N" (VStr (String "-"%char s))
  = Returns (VInt (- positional_value s)).
Proof.
  intros Hs. rewrite decode_attribute_number.
  change (non_int_char_pattern_search (String "-"%char s))
    with (non_int_char_pattern_search s).
  by rewrite (all_digits_no_other_char _ Hs), (py_int_minus_digits _ Hs).
Qed.

Lemma decode_attribute_float s :
  non_int_char_pattern_search s = true ->
  decode_attribute "N" (VStr s) = (f <~ float_of_str s ;; Returns (VFloat f)).
Proof. intros Hs. by rewrite decode_attribute_number, Hs. Qed.

Lemma decode_attribute_unknown typ v :
  known_tag typ = false ->
  decode_attribute typ v
  = Raises (Exception ("Unsupported type: " ++ repr_str typ)%string).
Proof.
  unfold known_tag, decode_attribute. intros Hk.
  apply orb_false_iff in Hk as [Hk ->]. by rewrite Hk.
Qed.

(** C6, as amended.  In a decoded response an attribute tagged ["S"] or
    ["BOOL"] keeps its value; an attribute tagged ["N"] whose text is one
    or more digits, after an optional leading minus sign, becomes the
    signed integer the digits denote; an attribute tagged ["N"] whose
    text holds any other character becomes what [float] makes of the
    text; any other tag raises [Exception("Unsupported type: ...")], and
    when the decoding of a response reaches such a tag the worker ends
    with that exception: the session is closed and the task is done. *)
Theorem decode_attribute_by_tag :
  (forall v, decode_attribute "S" v = Returns v) /\
  (forall v, decode_attribute "BOOL" v = Returns v) /\
  (forall s, all_digits s = true ->
     decode_attribute "N" (VStr s) = Returns (VInt (positional_value s)) /\
     decode_attribute "N" (VStr (String "-"%char s))
     = Returns (VInt (- positional_value s))) /\
  (forall s, non_int_char_pattern_search s = true ->
     decode_attribute "N" (VStr s)
     = (f <~ float_of_str s ;; Returns (VFloat f))) /\
  (forall typ v, known_tag typ = false ->
     decode_attribute typ v
     = Raises (Exception ("Unsupported type: " ++ repr_str typ)%string)) /\
  (forall do_ self ke jf gi session q outs trf element resp w n
          document entries pre name tpre typ v tpost post decoded val,
     nodes w !! self
     = Some (mkNode (JoinWithTable ke jf gi
                       (Some (mkJoinRuntime session
                                (Job element (Returns resp) :: q)
                                TaskRunning))) outs trf) ->
     status resp = 200 ->
     json_loads (text resp) = Returns document ->
     getitem document "Item" = Returns (VDict entries) ->
     entries = pre ++ (name, VDict (tpre ++ (typ, v) :: tpost)) :: post ->
     decode_item pre entries = Returns decoded ->
     decode_type_to_value tpre VNone = Returns val ->
     known_tag typ = false ->
     _worker do_ (S n) self w
     = (with_node w self
          (mkNode (JoinWithTable ke jf gi
                     (Some (mkJoinRuntime SessionClosed (tail q)
                              (TaskDone
                                 (Some (Exception
                                          ("Unsupported type: "
                                             ++ repr_str typ)%string))))))
                  outs trf),
        Returns tt)).
Proof.
  split; [apply decode_attribute_string|].
  split; [apply decode_attribute_boolean|].
  split.
  { intros s Hs. split.
    - by apply decode_attribute_digits.
    - by apply decode_attribute_minus_digits. }
  split; [apply decode_attribute_float|].
  split; [apply decode_attribute_unknown|].
  intros do_ self ke jf gi session q outs trf element resp w n
    document entries pre name tpre typ v tpost post decoded val
    Hn Hst Hjson Hitem Hentries Hpre Htpre Hk.
  assert (Hparse : _parse_response (text resp)
                   = Raises (Exception ("Unsupported type: "
                                          ++ repr_str typ)%string)).
  { eapply parse_response_raises; try eassumption.
    rewrite decode_type_to_value_app, Htpre. simpl.
    by rewrite (decode_attribute_unknown _ _ Hk). }
  erewrite worker_aborts; [|exact Hn| |apply with_node_lookup].
  - by rewrite with_node_twice.
  - by apply worker_job_undecodable.
Qed.

End DecodeFacts.

(** ** The marker through [_do_downstream] *)

Section TerminationFacts.
Variable do_ : pyobj -> payload -> M value.

(** The loop over the indices [i, i + count) is the fold over the outlets
    from position [i] on. *)
Lemma fold_termination_fold_outlets outs fn count : forall i acc w,
  (i + count = length outs)%nat ->
  fold_termination do_ outs fn i count acc w
  = fold_outlets do_ fn (drop i outs) acc w.
Proof.
  induction count as [|count IH]; intros i acc w Hlen.
  - rewrite drop_ge by lia. reflexivity.
  - destruct (outs !! i) as [outlet|] eqn:Hi.
    2: { apply lookup_ge_None in Hi. lia. }
    rewrite (drop_S _ _ _ Hi). cbn [fold_termination fold_outlets].
    unfold index. rewrite Hi, bind_ret_l.
    unfold bind, lift.
    destruct (do_ outlet TerminationObj w) as [w1 [r|e|]]; [|done..].
    destruct (fn acc r); [|done..].
    apply IH. lia.
Qed.

(** The marker through [_do_downstream] on a node with at least one
    outlet: outlet 0 is awaited first, then the results of the later
    outlets are folded in, in registration order, with
    [termination_result_fn(accumulated, next)]; the folded result is what
    the call returns.  An outlet that raises, or a combining function
    that raises, ends the dispatch there. *)
Lemma do_downstream_termination_folds self n outlet0 later w :
  nodes w !! self = Some n ->
  outlets n = outlet0 :: later ->
  _do_downstream do_ self TerminationObj w
  = terminate_outlets do_ (termination_result_fn n) outlet0 later w.
Proof.
  intros Hn Houts. unfold _do_downstream, terminate_outlets.
  rewrite (bind_returns _ _ _ _ _ (get_node_found _ _ _ Hn)), Houts.
  unfold index. cbn [lookup list_lookup]. rewrite bind_ret_l.
  unfold bind.
  destruct (do_ outlet0 TerminationObj w) as [w1 [r|e|]]; [|done..].
  rewrite fold_termination_fold_outlets by (simpl; lia).
  reflexivity.
Qed.

(** With no outlet the marker makes [_do_downstream] raise. *)
Lemma do_downstream_termination_no_outlet self n w :
  nodes w !! self = Some n ->
  outlets n = [] ->
  _do_downstream do_ self TerminationObj w = (w, Raises IndexError).
Proof.
  intros Hn Houts. unfold _do_downstream.
  by rewrite (bind_returns _ _ _ _ _ (get_node_found _ _ _ Hn)), Houts.
Qed.

End TerminationFacts.

Section TerminationEngine.
Context `{PythonLib}.

(** [Map], [Filter] and [FlatMap] hand the marker to [_do_downstream]. *)
Lemma do_unary_termination fuel self n w :
  nodes w !! self = Some n ->
  match cls n with
  | Map _ | Filter _ | FlatMap _ => True
  | _ => False
  end ->
  do_ (S fuel) (PNode self) TerminationObj w
  = _do_downstream (do_ fuel) self TerminationObj w.
Proof.
  intros Hn Hcls. cbn [do_].
  rewrite (bind_returns _ _ _ _ _ (get_node_found _ _ _ Hn)).
  by destruct (cls n).
Qed.

(** An element needs no outlet: no task is created and [_do_downstream]
    returns [None]. *)
Lemma do_downstream_element_no_outlet fuel self n x w :
  nodes w !! self = Some n ->
  outlets n = [] ->
  _do_downstream (do_ fuel) self (Elem x) w = (w, Returns VNone).
Proof.
  intros Hn Houts. unfold _do_downstream.
  by rewrite (bind_returns _ _ _ _ _ (get_node_found _ _ _ Hn)), Houts.
Qed.

(** C9.  A node with no outlet.  [Flow._do_downstream] copes with it for
    an element, for which it creates no task and returns [None], but not
    for the marker, where [self._outlets[0]] raises [IndexError].  So of
    the classes only [Reduce], which answers the marker in its own [do],
    returns its locally held result.  [Map], [Filter] and [FlatMap] hand
    the marker to [_do_downstream] and raise [IndexError], and for a
    [Source] the turn of the worker on the marker ends in the [except]
    clause with [IndexError].  ([JoinWithTable] does not hand the marker
    on at all.) *)
Theorem marker_needs_an_outlet fuel self n w :
  nodes w !! self = Some n ->
  outlets n = [] ->
  (forall x, _do_downstream (do_ fuel) self (Elem x) w = (w, Returns VNone)) /\
  _do_downstream (do_ fuel) self TerminationObj w = (w, Raises IndexError) /\
  match cls n with
  | Reduce _ acc =>
      do_ (S fuel) (PNode self) TerminationObj w = (w, Returns acc)
  | Map _ | Filter _ | FlatMap _ =>
      do_ (S fuel) (PNode self) TerminationObj w = (w, Raises IndexError)
  | Source _ =>
      _run_loop_turn fuel self TerminationObj w
      = (_run_loop_except self IndexError ;; ret true) w
  | JoinWithTable _ _ _ _ => True
  end.
Proof.
  intros Hn Houts.
  pose proof (do_downstream_termination_no_outlet (do_ fuel) self n w Hn
                Houts) as Hmarker.
  split; [|split; [exact Hmarker|]].
  - intros x. by apply do_downstream_element_no_outlet with (n := n).
  - destruct n as [c outs trf]. cbn [cls outlets] in *.
    destruct c as [st|fn|fn|fn|fn acc|ke jf gi rt].
    + unfold _run_loop_turn, try_except, _run_loop_try.
      by rewrite (bind_raises _ _ _ _ _ Hmarker).
    + by rewrite (do_unary_termination fuel self _ w Hn).
    + by rewrite (do_unary_termination fuel self _ w Hn).
    + by rewrite (do_unary_termination fuel self _ w Hn).
    + rewrite (do_Reduce _ _ _ _ _ _ _ _ Hn).
      by apply Reduce_do_termination with (fn := fn) (outs := outs)
                                          (trf := trf).
    + exact I.
Qed.

End TerminationEngine.

(** ** The recorded failure under the moves of both threads *)

Section StableFailure.
Context `{PythonLib}.

Lemma failure_recorded_step self e w ops w' ops' :
  sys_step self (w, ops) (w', ops') ->
  failure_recorded self e w -> failure_recorded self e w'.
Proof.
  intros Hstep (st & outs & trf & Hn & Hex & Hpc).
  inversion Hstep as [? ? op ? Hop|? ? op ? e' Hop|? ? ? fuel r Hw Hr]; subst.
  - destruct op as [|element].
    + rewrite (RaiseOnError_recorded _ _ _ _ _ e Hn Hex) in Hop. discriminate.
    + unfold exec_op in Hop. rewrite (get_source_found _ _ _ _ _ Hn) in Hop.
      destruct (length (src_q st) <? buffer_size st)%nat; [|discriminate].
      rewrite (set_source_found _ _ _ _ _ _ Hn) in Hop.
      injection Hop as <-.
      exists (with_q st (src_q st ++ [element])), outs, trf.
      split; [apply with_node_lookup|done].
  - destruct op as [|element].
    + rewrite (RaiseOnError_recorded _ _ _ _ _ e Hn Hex) in Hop.
      injection Hop as <- _. by exists st, outs, trf.
    + unfold exec_op in Hop. rewrite (get_source_found _ _ _ _ _ Hn) in Hop.
      destruct (length (src_q st) <? buffer_size st)%nat; [|discriminate].
      rewrite (set_source_found _ _ _ _ _ _ Hn) in Hop. discriminate.
  - destruct Hpc as [Hpc|Hpc].
    + unfold worker_step in Hw.
      rewrite (get_source_found _ _ _ _ _ Hn), Hpc in Hw.
      destruct (src_termination_q st); [|discriminate].
      rewrite (set_source_found _ _ _ _ _ _ Hn) in Hw.
      injection Hw as <- _.
      exists (with_thread (with_termination_q st [src_ex st]) ThreadFinished),
        outs, trf.
      split; [apply with_node_lookup|]. split; [done|by right].
    + by rewrite (worker_step_ThreadFinished _ _ _ _ _ _ Hn Hpc) in Hw.
Qed.

(** Once the failure is recorded and the worker has left its loop, no
    move of either thread removes it: whenever the caller next enters
    [_emit], the first statement raises. *)
Lemma failure_recorded_stays self e s s' :
  rtc (sys_step self) s s' ->
  failure_recorded self e (fst s) ->
  failure_recorded self e (fst s') /\
  forall x, run_ops self (_emit x) (fst s')
            = Some (fst s', Raises (execution_error e)).
Proof.
  intros Hsteps Hrec.
  assert (Hrec' : failure_recorded self e (fst s')).
  { induction Hsteps as [|[w ops] [w1 ops1] s3 Hstep _ IH]; [done|].
    apply IH. by eapply failure_recorded_step. }
  split; [done|]. intros x.
  destruct Hrec' as (st & outs & trf & Hn & Hex & _).
  cbn [run_ops _emit].
  by rewrite (RaiseOnError_recorded _ _ _ _ _ e Hn Hex).
Qed.

End StableFailure.

(** ** The claims on the sample pipelines *)

(** C1 on [Source, Map, [Map, Reduce], Reduce]: the branch [Map, Reduce]
    and the last [Reduce] are both outlets of the first [Map]. *)
Lemma build_flow_matches_nesting_witness :
  snd (build_flow nesting_steps nesting_store) = Returns (PNode 0) /\
  outlets_of (fst (build_flow nesting_steps nesting_store)) 0 = [PNode 1] /\
  outlets_of (fst (build_flow nesting_steps nesting_store)) 1
  = [PNode 2; PNode 4] /\
  outlets_of (fst (build_flow nesting_steps nesting_store)) 2 = [PNode 3] /\
  outlets_of (fst (build_flow nesting_steps nesting_store)) 3 = [].
Proof.
  destruct (build_flow_matches_nesting nesting_steps nesting_store
              eq_refl eq_refl)
    as (id & w' & Hroot & Hbuild & _ & _ & Houts).
  injection Hroot as <-. rewrite Hbuild. cbn [fst snd]. rewrite !Houts.
  repeat split.
Defined.

(** C8.  [build_flow([])] prints its message and then raises [IndexError]
    from [steps[0]]. *)
Theorem build_flow_empty_raises (w : world) :
  build_flow [] w
  = (mkWorld (nodes w) (stdout w ++ ["Cannot build an empty flow"]),
     Raises IndexError).
Proof. reflexivity. Qed.

(** C4 on [Reduce(0, add)]: fed 1, 2, 3 and then the marker, it returns 6. *)
Lemma Reduce_folds_in_arrival_order_witness :
  (feed (@do_ sample_lib 1 (PNode 0)) [VInt 1; VInt 2; VInt 3] ;;
   @do_ sample_lib 1 (PNode 0) TerminationObj) sum_store
  = (with_node sum_store 0 (new_node (Reduce py_add (VInt 6))),
     Returns (VInt 6)).
Proof.
  exact (proj1 (proj2
           (@Reduce_folds_in_arrival_order sample_lib 0 0 py_add (VInt 0) []
              default_termination_result_fn sum_store
              [VInt 1; VInt 2; VInt 3] (VInt 6) eq_refl eq_refl))).
Defined.

(** C5 on [FlatMap(lambda x: [x, x])]: fed 1 and 2, its outlet receives
    1, 1, 2, 2 in that order. *)
Lemma FlatMap_forwards_in_order_witness :
  exists w',
    feed (@do_ sample_lib 2 (PNode 0)) [VInt 1; VInt 2] flat_store
    = (w', Returns tt) /\
    accumulator_of w' 1 = Some (VList [VInt 1; VInt 1; VInt 2; VInt 2]).
Proof.
  eexists. split.
  - eapply (proj2 (proj2
              (@FlatMap_forwards_in_order sample_lib 1 0 py_twice [PNode 1]
                 default_termination_result_fn flat_store eq_refl)))
      with (items_of := fun x => [x; x]).
    + repeat constructor; eexists; split; reflexivity.
    + cbn [concat map app].
      repeat (eapply forwards_cons; [vm_compute; reflexivity|]).
      apply forwards_nil.
  - vm_compute. reflexivity.
Defined.

(** C2 at a [JoinWithTable] node with one outlet, [Reduce(7, add)]: the
    node answers the marker with [None] and its outlet is never asked,
    although dispatching the marker to that outlet returns 7.  Run from a
    source with the elements 1 and 2, [await_termination] returns [None]
    while the accumulator of the [Reduce] node stands at 10. *)
Theorem JoinWithTable_keeps_the_marker :
  snd (@do_ sample_lib 4 (PNode 1) TerminationObj
         (join_store (mkResponse 200 body_age)))
  = Returns VNone /\
  snd (terminate_outlets (@do_ sample_lib 3) default_termination_result_fn
         (PNode 2) [] (join_store (mkResponse 200 body_age)))
  = Returns (VInt 7) /\
  snd (join_end_to_end sample_lib (mkResponse 200 body_age)) = Returns VNone /\
  accumulator_of (fst (join_end_to_end sample_lib (mkResponse 200 body_age))) 2
  = Some (VInt 10).
Proof. vm_compute. repeat split. Qed.

(** C3 on a source whose worker meets a string that [Reduce(0, add)]
    cannot add: the worker records the [TypeError], takes one more entry
    off the queue and leaves the loop; [emit] then raises
    [FlowException]; and on the schedule [late_failure] the call of
    [emit] that passed its first check is raised [FlowException] by its
    second. *)
Lemma Source_failure_is_deferred_witness :
  option_map (fun r => source_of (fst r) 0)
             (@worker_step sample_lib 5 0 stuck_store)
  = Some (Some (mkSource 3 [Elem (VInt 2)] [] 
                  (Some (TypeError "unsupported operand type(s) for +"))
                  (Some (Resolved VNone)) LoopExited)) /\
  option_map snd
    (run_ops 0 (_emit (Elem (VInt 3)))
       (after_failure (stuck_after_failure sample_lib) 0 stuck_source
          [PNode 1] default_termination_result_fn
          (TypeError "unsupported operand type(s) for +") LoopExited []
          [Elem (VInt 2)]))
  = Some (Raises (execution_error
                    (TypeError "unsupported operand type(s) for +"))) /\
  option_map snd
    (@run_moves sample_lib late_failure 5 0
       (stuck_store, AtGet, _emit (Elem (VInt 3))) (Returns tt))
  = Some (Raises (execution_error
                    (TypeError "unsupported operand type(s) for +"))).
Proof.
  destruct (@Source_failure_is_deferred sample_lib 5 0 stuck_source [PNode 1]
              default_termination_result_fn stuck_store (Elem (VStr "x"))
              [Elem (VInt 1); Elem (VInt 2)] (stuck_after_failure sample_lib)
              (TypeError "unsupported operand type(s) for +")
              eq_refl eq_refl eq_refl eq_refl eq_refl
              ltac:(vm_compute; reflexivity))
    as (Hstep & _ & _ & _ & Hemit & _ & _ & _ & _ & Hlate).
  split; [|split].
  - rewrite Hstep. vm_compute. reflexivity.
  - cbn [tail] in Hemit. by rewrite Hemit.
  - by rewrite (Hlate (Elem (VInt 3)) eq_refl ltac:(simpl; lia)).
Defined.

(** C6 as stated fails on a leading plus sign: the text ["+5"] holds a
    sign and digits only, and it is decoded by [float], not as the
    integer 5. *)
Lemma plus_sign_decodes_as_float :
  @decode_attribute sample_lib "N" (VStr "+5")
  = Returns (VFloat (FFinite 5 0)) /\
  @decode_attribute sample_lib "N" (VStr "+5") <> Returns (VInt 5).
Proof. split; [reflexivity|discriminate]. Qed.

(** C6, as amended, on the texts ["42"] and ["-42"] and on a response
    tagged ["L"]. *)
Lemma decode_attribute_by_tag_witness :
  @decode_attribute sample_lib "N" (VStr "42") = Returns (VInt 42) /\
  @decode_attribute sample_lib "N" (VStr "-42") = Returns (VInt (-42)) /\
  @decode_attribute sample_lib "N" (VStr "1.5")
  = Returns (VFloat (FFinite 3 (-1))) /\
  @decode_attribute sample_lib "L" (VStr "x")
  = Raises (Exception "Unsupported type: 'L'").
Proof.
  destruct (@decode_attribute_by_tag sample_lib)
    as (_ & _ & Hint & Hfloat & Hother & _).
  destruct (Hint "42" eq_refl) as [Hpos Hneg].
  split; [exact Hpos|]. split; [exact Hneg|].
  split; [exact (Hfloat "1.5" eq_refl)|exact (Hother "L" (VStr "x") eq_refl)].
Defined.

(** C7 at a response of status 200 whose record is empty: the body
    [{"Item": {}}] decodes to the empty dict, and the element is dropped
    as if the key had not been found; the accumulator downstream stays at
    7.  With the record [{"age": 42}] the same element arrives and the
    accumulator is 8. *)
Theorem JoinWithTable_drops_empty_record :
  @_parse_response sample_lib body_empty_item = Returns (VDict []) /\
  snd (join_one_element sample_lib (mkResponse 200 body_empty_item))
  = Returns VNone /\
  accumulator_of
    (fst (join_one_element sample_lib (mkResponse 200 body_empty_item))) 2
  = Some (VInt 7) /\
  accumulator_of
    (fst (join_one_element sample_lib (mkResponse 200 body_age))) 2
  = Some (VInt 8).
Proof. vm_compute. repeat split. Qed.

(** C9 on [Map(lambda x: x)] with no outlet: the marker makes it raise
    [IndexError], although an element passes. *)
Lemma marker_needs_an_outlet_witness :
  @do_ sample_lib 2 (PNode 0) TerminationObj lone_map_store
  = (lone_map_store, Raises IndexError) /\
  @do_ sample_lib 2 (PNode 0) (Elem (VInt 1)) lone_map_store
  = (lone_map_store, Returns VNone).
Proof.
  split.
  - exact (proj2 (proj2 (@marker_needs_an_outlet sample_lib 1 0
                           (new_node (Map py_identity)) lone_map_store
                           eq_refl eq_refl))).
  - reflexivity.
Defined.

(** [build_flow([Source(), Map(lambda x: x)]).run()], [emit(1)] and
    [terminate()]: both calls return, the element passes, and the marker
    ends the worker with [IndexError], so that [await_termination] raises
    where the flow had nothing to fail on. *)
Lemma flow_ending_in_Map_fails :
  snd (dead_end_session sample_lib) = Returns tt /\
  option_map src_ex (source_of (fst (dead_end_answer sample_lib)) 0)
  = Some (Some IndexError) /\
  snd (dead_end_answer sample_lib) = Raises (execution_error IndexError).
Proof. vm_compute. repeat split. Qed.

(** C10 on the [JoinWithTable] node of [join_store] after it has processed
    the marker: a further element is refused. *)
Lemma JoinWithTable_do_after_worker_done_witness :
  @do_ sample_lib 4 (PNode 1) (Elem (VInt 5))
    (fst (join_one_element sample_lib (mkResponse 200 body_age)))
  = (fst (join_one_element sample_lib (mkResponse 200 body_age)),
     Raises (Exception "JoinWithTable worker has already terminated")).
Proof.
  exact (@JoinWithTable_do_after_worker_done sample_lib 3 1 py_identity
           py_keep_element (fun _ => Returns (mkResponse 200 body_age))
           (mkJoinRuntime SessionClosed [] (TaskDone None)) [PNode 2]
           default_termination_result_fn
           (fst (join_one_element sample_lib (mkResponse 200 body_age)))
           (Elem (VInt 5)) None
           ltac:(vm_compute; reflexivity) eq_refl).
Defined.

(** ** [build_flow]: what it never does, and how it fails *)

Lemma node_extended_refl n : node_extended n n.
Proof. repeat split. exists []. by rewrite app_nil_r. Qed.

Lemma node_extended_trans n1 n2 n3 :
  node_extended n1 n2 -> node_extended n2 n3 -> node_extended n1 n3.
Proof.
  intros (Hc1 & Ht1 & a1 & Ho1) (Hc2 & Ht2 & a2 & Ho2).
  split; [congruence|]. split; [congruence|].
  exists (a1 ++ a2). by rewrite Ho2, Ho1, app_assoc.
Qed.

Lemma store_extended_refl w : store_extended w w.
Proof.
  split.
  - intros id. destruct (nodes w !! id); [apply node_extended_refl|done].
  - exists []. by rewrite app_nil_r.
Qed.

Lemma store_extended_trans w1 w2 w3 :
  store_extended w1 w2 -> store_extended w2 w3 -> store_extended w1 w3.
Proof.
  intros [Hn1 (p1 & Hp1)] [Hn2 (p2 & Hp2)]. split.
  - intros id. specialize (Hn1 id). specialize (Hn2 id).
    destruct (nodes w1 !! id), (nodes w2 !! id), (nodes w3 !! id);
      try done. by eapply node_extended_trans.
  - exists (p1 ++ p2). by rewrite Hp2, Hp1, app_assoc.
Qed.

Lemma to_extends self outlet w w' r :
  to self outlet w = (w', r) -> store_extended w w'.
Proof.
  destruct self as [id|items]; simpl.
  2: { intros [= <- _]. apply store_extended_refl. }
  unfold bind, get_node.
  destruct (nodes w !! id) as [n|] eqn:Hn.
  2: { intros [= <- _]. apply store_extended_refl. }
  assert (Hset : store_extended w
                   (mkWorld (<[id := append_outlet n outlet]> (nodes w))
                            (stdout w))).
  { split; [|exists []; simpl; by rewrite app_nil_r].
    intros id0. simpl. destruct (decide (id = id0)) as [<-|Hne].
    - rewrite lookup_insert_eq, Hn. repeat split. by exists [outlet].
    - rewrite lookup_insert_ne by done.
      destruct (nodes w !! id0); [apply node_extended_refl|done]. }
  destruct (cls n); simpl; unfold set_node, ret;
    intros [= <- _]; first [exact Hset|apply store_extended_refl].
Qed.

Lemma build_flow_loop_extends rest :
  Forall (fun o => forall w w' r,
              build_flow_obj o w = (w', r) -> store_extended w w') rest ->
  forall cur w w' r,
    build_flow_loop build_flow_obj rest cur w = (w', r) ->
    store_extended w w'.
Proof.
  induction 1 as [|next rest Hnext _ IH]; intros cur w w' r.
  - intros [= <- _]. apply store_extended_refl.
  - destruct next as [id|sub]; cbn [build_flow_loop]; unfold bind.
    + destruct (to cur (PNode id) w) as [w1 [a| |]] eqn:Hto; intros Hr.
      * eapply store_extended_trans; [by eapply to_extends|by eapply IH].
      * injection Hr as <- _. by eapply to_extends.
      * injection Hr as <- _. by eapply to_extends.
    + destruct cur as [c|items]; cbn [bound_to ret raise];
        [|intros [= <- _]; apply store_extended_refl].
      destruct (build_flow_obj (PList sub) w) as [w1 r1] eqn:Hsub.
      pose proof (Hnext _ _ _ Hsub) as Hext1.
      destruct r1 as [root| |]; [|by intros [= <- _]..].
      destruct (to (PNode c) root w1) as [w2 [a| |]] eqn:Hto; intros Hr.
      * eapply store_extended_trans; [exact Hext1|].
        eapply store_extended_trans; [by eapply to_extends|by eapply IH].
      * injection Hr as <- _.
        eapply store_extended_trans; [exact Hext1|by eapply to_extends].
      * injection Hr as <- _.
        eapply store_extended_trans; [exact Hext1|by eapply to_extends].
Qed.

(** X1.  Whatever the definition, and whether [build_flow] returns or
    raises, it only appends: the store keeps the same instances, no class,
    accumulator or combining function changes, every outlet list keeps its
    former entries in place with the new ones after them, and what was
    printed before stays printed. *)
Theorem build_flow_only_appends (steps : list pyobj) (w w' : world)
    (r : outcome pyobj) :
  build_flow steps w = (w', r) -> store_extended w w'.
Proof.
  unfold build_flow. revert w w' r.
  induction (PList steps) as [id|items IH] using pyobj_nested_ind;
    intros w w' r.
  - intros [= <- _]. apply store_extended_refl.
  - destruct items as [|first rest]; cbn [build_flow_obj]; unfold bind.
    + unfold print, raise. intros [= <- _]. split.
      * intros id. simpl. destruct (nodes w !! id);
          [apply node_extended_refl|done].
      * by eexists.
    + apply Forall_cons in IH as [_ IH].
      destruct (build_flow_loop build_flow_obj rest first w)
        as [w1 [a| |]] eqn:Hloop; intros [= <- _];
        by eapply build_flow_loop_extends.
Qed.

Lemma to_Reduce_raises w parent child :
  is_reduce w parent = true ->
  to parent child w = (w, Raises (Exception "Non-terminal Reduce")).
Proof.
  destruct parent as [id|items]; simpl; [|discriminate].
  unfold to, bind, get_node.
  destruct (nodes w !! id) as [n|]; [|discriminate].
  by destruct (cls n).
Qed.

Lemma is_reduce_link w l parent :
  is_reduce w parent = true -> is_reduce (link w l) parent = true.
Proof.
  destruct parent as [id|items]; simpl; [|discriminate].
  destruct (nodes w !! id) as [n|] eqn:Hn; [|discriminate]. intros Hcls.
  unfold link.
  destruct (fst l) as [p|]; [|by rewrite Hn].
  destruct (nodes w !! p) as [np|] eqn:Hp; [|by rewrite Hn]. simpl.
  destruct (decide (p = id)) as [->|Hne].
  - rewrite Hn in Hp. injection Hp as <-. by rewrite lookup_insert_eq.
  - rewrite lookup_insert_ne by done. by rewrite Hn.
Qed.

Lemma is_reduce_links w links parent :
  is_reduce w parent = true -> is_reduce (foldl link w links) parent = true.
Proof.
  revert w. induction links as [|l links IH]; intros w Hw; simpl; [done|].
  apply IH, is_reduce_link, Hw.
Qed.

(** Where a list that is a concatenation is cut by an element. *)
Lemma app_cut {A} (l1 l2 pre post : list A) (x : A) :
  l1 ++ l2 = pre ++ x :: post ->
  (exists post1, l1 = pre ++ x :: post1 /\ post = post1 ++ l2) \/
  (exists pre2, pre = l1 ++ pre2 /\ l2 = pre2 ++ x :: post).
Proof.
  revert pre. induction l1 as [|a l1 IH]; intros pre Heq.
  - right. by exists pre.
  - destruct pre as [|b pre]; simpl in Heq.
    + injection Heq as -> <-. left. by exists l1.
    + injection Heq as -> Heq.
      destruct (IH _ Heq) as [(p1 & -> & ->)|(p2 & -> & ->)].
      * left. by exists p1.
      * right. by exists p2.
Qed.

(** What [build_flow] does on a well-nested definition one link of which
    hangs under a [Reduce]. *)
Definition stops_at_reduce (o : pyobj) : Prop :=
  forall w pre parent child post,
    well_nested o = true ->
    links_of o = pre ++ (parent, child) :: post ->
    links_accepted w pre = true ->
    is_reduce w parent = true ->
    build_flow_obj o w
    = (foldl link w pre, Raises (Exception "Non-terminal Reduce")).

Lemma build_flow_loop_stops rest :
  Forall stops_at_reduce rest ->
  forall c w pre parent child post,
    forallb well_nested rest = true ->
    links_chain links_of rest (PNode c) = pre ++ (parent, child) :: post ->
    links_accepted w pre = true ->
    is_reduce w parent = true ->
    build_flow_loop build_flow_obj rest (PNode c) w
    = (foldl link w pre, Raises (Exception "Non-terminal Reduce")).
Proof.
  induction 1 as [|next rest Hnext Hrest IH];
    intros c w pre parent child post Hwn Hlinks Hacc Hred.
  - by destruct pre.
  - simpl in Hwn. apply andb_true_iff in Hwn as [Hwn1 Hwn2].
    destruct next as [id|sub].
    + cbn [links_chain] in Hlinks. cbn [build_flow_loop].
      destruct pre as [|l pre]; simpl in Hlinks.
      * injection Hlinks as -> _ _.
        by rewrite (bind_raises _ _ _ _ _ (to_Reduce_raises _ _ _ Hred)).
      * injection Hlinks as <- Hlinks.
        apply links_accepted_cons in Hacc as [Hcur Hacc].
        rewrite (bind_returns _ _ _ _ _ (to_link w (PNode c) (PNode id) Hcur)).
        apply (IH _ _ _ _ _ _ Hwn2 Hlinks).
        -- by apply (links_accepted_later w [(PNode c, PNode id)]).
        -- by apply is_reduce_link.
    + cbn [links_chain] in Hlinks. cbn [build_flow_loop bound_to].
      rewrite bind_ret_l.
      apply app_cut in Hlinks as [(post1 & Hsub & _)|(pre2 & -> & Hlinks)].
      * unfold bind at 1.
        by rewrite (Hnext _ _ _ _ _ Hwn1 Hsub Hacc Hred).
      * apply links_accepted_app in Hacc as [Hacc1 Hacc2].
        destruct (build_flow_obj_links (PList sub) w Hwn1 Hacc1)
          as (first & Hfirst & Hbuild).
        unfold bind at 1. rewrite Hbuild, Hfirst in *.
        rewrite foldl_app.
        set (w1 := foldl link w (links_of (PList sub))) in *.
        assert (Hacc2' : links_accepted w1 pre2 = true)
          by (by apply links_accepted_later).
        assert (Hred' : is_reduce w1 parent = true)
          by (by apply is_reduce_links).
        clearbody w1.
        destruct pre2 as [|l pre2]; simpl in Hlinks.
        -- injection Hlinks as -> _ _.
           by rewrite (bind_raises _ _ _ _ _ (to_Reduce_raises _ _ _ Hred')).
        -- injection Hlinks as <- Hlinks.
           apply links_accepted_cons in Hacc2' as [Hcur Hacc2'].
           rewrite (bind_returns _ _ _ _ _ (to_link w1 (PNode c) first Hcur)).
           apply (IH _ _ _ _ _ _ Hwn2 Hlinks).
           ++ by apply (links_accepted_later w1 [(PNode c, first)]).
           ++ by apply is_reduce_link.
Qed.

Lemma build_flow_obj_stops o : stops_at_reduce o.
Proof.
  induction o as [id|items IH] using pyobj_nested_ind;
    intros w pre parent child post Hwn Hlinks Hacc Hred.
  - by destruct pre.
  - destruct items as [|first rest]; [discriminate|].
    destruct first as [id|]; [|discriminate].
    apply Forall_cons in IH as [_ IH].
    cbn [build_flow_obj links_of] in *.
    by rewrite (bind_raises _ _ _ _ _
                  (build_flow_loop_stops rest IH _ _ _ _ _ _ Hwn Hlinks
                     Hacc Hred)).
Qed.

(** X2.  In a well-nested definition, the first link that would hang under
    a [Reduce] node stops [build_flow]: it raises
    [Exception("Non-terminal Reduce")], the links that come before it in
    the order of the nesting have been made and stay, and none of the
    later ones is made. *)
Theorem build_flow_stops_at_Reduce (steps : list pyobj) (w : world)
    (pre post : list (pyobj * pyobj)) (parent child : pyobj) :
  well_nested (PList steps) = true ->
  links_of (PList steps) = pre ++ (parent, child) :: post ->
  links_accepted w pre = true ->
  is_reduce w parent = true ->
  build_flow steps w
  = (foldl link w pre, Raises (Exception "Non-terminal Reduce")) /\
  forall n, outlets_of (foldl link w pre) n
            = outlets_of w n ++ children_of n pre.
Proof.
  intros Hwn Hlinks Hacc Hred. split.
  - by eapply build_flow_obj_stops.
  - intros n. by apply outlets_of_links.
Qed.

(** ** Linear pipelines: [Map], [Filter], [FlatMap] into [Reduce] *)

Lemma fold_elements_app fn xs ys : forall acc,
  fold_elements fn acc (xs ++ ys)
  = (acc1 <~ fold_elements fn acc xs ;; fold_elements fn acc1 ys).
Proof.
  induction xs as [|x xs IH]; intros acc; [done|].
  simpl. destruct (fn acc x); simpl; [apply IH|done..].
Qed.

Lemma each_items_singletons xs :
  each_items (fun x => Returns [x]) xs = Returns xs.
Proof. induction xs as [|x xs IH]; [done|]. simpl. by rewrite IH. Qed.

Lemma is_chain_with_node w head stages last k n n' :
  nodes w !! k = Some n ->
  (forall s, cls n <> stage_class s) ->
  is_chain w head stages last ->
  is_chain (with_node w k n') head stages last.
Proof.
  intros Hk Hcls. revert head.
  induction stages as [|s stages IH]; intros head; [done|].
  intros (next & trf & Hhead & Hrest).
  exists next, trf. split; [|by apply IH].
  unfold with_node. simpl. rewrite lookup_insert_ne; [done|].
  intros <-. rewrite Hk in Hhead. injection Hhead as ->.
  by apply (Hcls s).
Qed.

Section ChainFacts.
Context `{PythonLib}.

(** A node with one outlet hands an element to that outlet and to nothing
    else. *)
Lemma do_downstream_single_outlet do_ self n next x w :
  nodes w !! self = Some n ->
  outlets n = [PNode next] ->
  _do_downstream do_ self (Elem x) w
  = match do_ (PNode next) (Elem x) w with
    | (w', Returns _) => (w', Returns VNone)
    | (w', Raises e) => (w', Raises e)
    | (w', OutOfFuel) => (w', OutOfFuel)
    end.
Proof.
  intros Hn Houts. unfold _do_downstream.
  rewrite (bind_returns _ _ _ _ _ (get_node_found _ _ _ Hn)), Houts.
  unfold bind, ret, lift. simpl. unfold bind, ret.
  by destruct (do_ (PNode next) (Elem x) w) as [w' [r|e|]].
Qed.

Lemma forward_each_single_outlet fuel self n next items : forall w,
  nodes w !! self = Some n ->
  passive n = true ->
  outlets n = [PNode next] ->
  forward_each (_do_downstream (do_ fuel) self) items w
  = feed (do_ fuel (PNode next)) items w.
Proof.
  induction items as [|y items IH]; intros w Hn Hpassive Houts; [done|].
  cbn [forward_each feed]. unfold bind.
  rewrite (do_downstream_single_outlet _ _ _ _ _ _ Hn Houts).
  destruct (do_ fuel (PNode next) (Elem y) w) as [w1 [r|e|]] eqn:Hdo;
    [|done..].
  apply IH; [|done..].
  by apply (framed_do fuel _ _ _ _ _ Hdo).
Qed.

(** What [do] makes of an element on a transforming node with one outlet:
    the items of the stage are fed to the outlet. *)
Lemma do_stage_element fuel self s next trf x items w :
  nodes w !! self = Some (mkNode (stage_class s) [PNode next] trf) ->
  stage_items s x = Returns items ->
  do_ (S fuel) (PNode self) (Elem x) w
  = (feed (do_ fuel (PNode next)) items ;; ret VNone) w.
Proof.
  intros Hn Hitems. cbn [do_].
  rewrite (bind_returns _ _ _ _ _ (get_node_found _ _ _ Hn)).
  assert (Hfw : forall ys w0,
             nodes w0 !! self
             = Some (mkNode (stage_class s) [PNode next] trf) ->
             forward_each (_do_downstream (do_ fuel) self) ys w0
             = feed (do_ fuel (PNode next)) ys w0).
  { intros ys w0 Hn0.
    eapply forward_each_single_outlet; [exact Hn0| |done]. by destruct s. }
  destruct s as [fn|fn|fn]; cbn [cls stage_class stage_items] in *;
    unfold UnaryFunctionFlow_do;
    destruct (fn x) as [y| |] eqn:Hfn; try discriminate;
    simpl in Hitems; rewrite bind_lift_returns.
  - injection Hitems as <-.
    change (Map_do_internal (_do_downstream (do_ fuel) self) x y)
      with (forward_each (_do_downstream (do_ fuel) self) [y]).
    unfold bind. by rewrite (Hfw [y] w Hn).
  - unfold Filter_do_internal. destruct (truthy y).
    + injection Hitems as <-.
      change (_do_downstream (do_ fuel) self (Elem x) ;; ret tt)
        with (forward_each (_do_downstream (do_ fuel) self) [x]).
      unfold bind. by rewrite (Hfw [x] w Hn).
    + by injection Hitems as <-.
  - unfold FlatMap_do_internal, bind, lift. rewrite Hitems.
    by rewrite (Hfw items w Hn).
Qed.

Lemma chain_feed stages :
  forall fuel head last g outs trf w acc xs ys acc',
    is_chain w head stages last ->
    nodes w !! last = Some (mkNode (Reduce g acc) outs trf) ->
    each_items (chain_items stages) xs = Returns ys ->
    fold_elements g acc ys = Returns acc' ->
    (length stages < fuel)%nat ->
    feed (do_ fuel (PNode head)) xs w
    = (with_node w last (mkNode (Reduce g acc') outs trf), Returns tt).
Proof.
  induction stages as [|s stages IH];
    intros fuel head last g outs trf w acc xs ys acc' Hchain Hlast Hitems
      Hfold Hfuel.
  - simpl in Hchain. subst head.
    change (chain_items []) with (fun x : value => Returns [x]) in Hitems.
    rewrite each_items_singletons in Hitems. injection Hitems as <-.
    destruct fuel as [|fuel]; [simpl in Hfuel; lia|].
    by apply feed_Reduce with (acc := acc).
  - destruct fuel as [|fuel]; [simpl in Hfuel; lia|].
    simpl in Hfuel.
    revert w acc ys acc' Hchain Hlast Hitems Hfold.
    induction xs as [|x xs IHxs];
      intros w acc ys acc' Hchain Hlast Hitems Hfold.
    + injection Hitems as <-. injection Hfold as <-.
      simpl. by rewrite with_node_same.
    + cbn [each_items] in Hitems.
      destruct (chain_items (s :: stages) x) as [a| |] eqn:Hx; try done.
      cbn [obind] in Hitems.
      destruct (each_items (chain_items (s :: stages)) xs) as [b| |] eqn:Hxs;
        try done.
      injection Hitems as <-.
      rewrite fold_elements_app in Hfold.
      destruct (fold_elements g acc a) as [acc1| |] eqn:Hacc1; try done.
      cbn [obind] in Hfold.
      cbn [chain_items] in Hx.
      destruct (stage_items s x) as [items| |] eqn:Hs; try done.
      cbn [obind] in Hx.
      pose proof Hchain as (next & trf0 & Hhead & Hrest).
      cbn [feed]. unfold bind at 1.
      rewrite (do_stage_element _ _ _ _ _ _ _ _ Hhead Hs).
      rewrite (bind_returns _ _ _ _ _
                 (IH fuel next last g outs trf w acc items a acc1
                     Hrest Hlast Hx Hacc1 ltac:(lia))).
      unfold ret at 1.
      rewrite (IHxs _ acc1 b acc'); [by rewrite with_node_twice| | |done..].
      * eapply is_chain_with_node; [exact Hlast| |done]. by intros [].
      * apply with_node_lookup.
Qed.

Lemma chain_termination stages :
  forall fuel head last g outs trf w acc,
    is_chain w head stages last ->
    nodes w !! last = Some (mkNode (Reduce g acc) outs trf) ->
    (length stages < fuel)%nat ->
    do_ fuel (PNode head) TerminationObj w = (w, Returns acc).
Proof.
  induction stages as [|s stages IH];
    intros fuel head last g outs trf w acc Hchain Hlast Hfuel;
    (destruct fuel as [|fuel]; [simpl in Hfuel; lia|]).
  - simpl in Hchain. subst head.
    rewrite (do_Reduce _ _ _ _ _ _ _ _ Hlast).
    by eapply Reduce_do_termination.
  - destruct Hchain as (next & trf0 & Hhead & Hrest).
    rewrite (do_unary_termination _ _ _ _ Hhead) by (by destruct s).
    rewrite (do_downstream_termination_folds _ _ _ (PNode next) [] _ Hhead)
      by done.
    unfold terminate_outlets.
    by rewrite (bind_returns _ _ _ _ _
                  (IH fuel next last g outs trf w acc Hrest Hlast
                      ltac:(simpl in Hfuel; lia))).
Qed.

(** X3.  A linear pipeline of [Map], [Filter] and [FlatMap] nodes that ends
    in a [Reduce] computes the fold of the reducing function over what the
    stages make of the elements, in the order of arrival: [Map] hands on
    the image, [Filter] the original element when the predicate is true,
    [FlatMap] the items one by one, and a later stage has finished with an
    item before the earlier stage hands on the next.  The stages keep no
    state: only the accumulator changes.  The marker then travels down the
    pipeline and brings the accumulator back unchanged. *)
Theorem pipeline_computes_fold
    fuel head last stages g outs trf w acc xs ys acc' :
  is_chain w head stages last ->
  nodes w !! last = Some (mkNode (Reduce g acc) outs trf) ->
  each_items (chain_items stages) xs = Returns ys ->
  fold_elements g acc ys = Returns acc' ->
  (length stages < fuel)%nat ->
  feed (do_ fuel (PNode head)) xs w
  = (with_node w last (mkNode (Reduce g acc') outs trf), Returns tt) /\
  do_ fuel (PNode head) TerminationObj
    (with_node w last (mkNode (Reduce g acc') outs trf))
  = (with_node w last (mkNode (Reduce g acc') outs trf), Returns acc').
Proof.
  intros Hchain Hlast Hitems Hfold Hfuel. split.
  - by eapply chain_feed.
  - eapply chain_termination; [|apply with_node_lookup|done].
    eapply is_chain_with_node; [exact Hlast| |done]. by intros [].
Qed.

End ChainFacts.

(** ** [Source]: capacity, invariants and the worker's run *)

Lemma run_ops_app self ops1 ops2 w :
  run_ops self (ops1 ++ ops2) w
  = match run_ops self ops1 w with
    | Some (w', Returns _) => run_ops self ops2 w'
    | other => other
    end.
Proof.
  revert w. induction ops1 as [|op ops1 IH]; intros w; [done|].
  cbn [run_ops app].
  destruct (exec_op self op w) as [[w1 [[]|e|]]|]; [apply IH|done..].
Qed.

Lemma with_q_same st : with_q st (src_q st) = st.
Proof. by destruct st. Qed.

Lemma emits_with_room self outs trf xs : forall st w,
  nodes w !! self = Some (mkNode (Source st) outs trf) ->
  src_ex st = None ->
  (length (src_q st) + length xs <= buffer_size st)%nat ->
  run_ops self (concat (map _emit xs)) w
  = Some (with_node w self (mkNode (Source (with_q st (src_q st ++ xs)))
                                   outs trf),
          Returns tt).
Proof.
  induction xs as [|x xs IH]; intros st w Hn Hex Hroom.
  - simpl. by rewrite app_nil_r, with_q_same, with_node_same.
  - cbn [map concat]. rewrite run_ops_app. cbn [run_ops _emit].
    simpl in Hroom.
    rewrite (RaiseOnError_clear _ _ _ _ _ Hn Hex).
    rewrite (QPut_room _ _ _ _ _ x Hn) by lia.
    rewrite (RaiseOnError_clear _ _ (with_q st (src_q st ++ [x])) outs trf)
      by (apply with_node_lookup || done).
    unfold atomic, ret. cbv iota beta.
    rewrite (IH (with_q st (src_q st ++ [x])));
      [|apply with_node_lookup|done|simpl; rewrite length_app; simpl; lia].
    rewrite with_node_twice. simpl. by rewrite <- app_assoc.
Qed.

(** X4.  A source that holds no recorded failure takes, without waiting
    and whatever the worker does or does not do, as many [emit] calls as
    its queue has free places, and keeps the elements in the order of the
    calls; the next [emit] then waits in [put], having enqueued nothing. *)
Theorem Source_accepts_up_to_capacity self st outs trf w xs :
  nodes w !! self = Some (mkNode (Source st) outs trf) ->
  src_ex st = None ->
  (length (src_q st) + length xs = buffer_size st)%nat ->
  run_ops self (concat (map FlowController_emit xs)) w
  = Some (with_node w self (mkNode (Source (with_q st (src_q st ++ xs)))
                                   outs trf),
          Returns tt) /\
  forall x,
    run_ops self (concat (map FlowController_emit (xs ++ [x]))) w = None.
Proof.
  intros Hn Hex Hroom.
  pose proof (emits_with_room self outs trf xs st w Hn Hex ltac:(lia))
    as Hfill.
  change FlowController_emit with _emit.
  split; [exact Hfill|]. intros x.
  rewrite map_app, concat_app, run_ops_app, Hfill.
  cbn [map concat app run_ops _emit].
  rewrite (RaiseOnError_clear _ _ (with_q st (src_q st ++ xs)) outs trf)
    by (apply with_node_lookup || done).
  rewrite (QPut_full _ _ (with_q st (src_q st ++ xs)) outs trf);
    [done|apply with_node_lookup|].
  simpl. rewrite length_app. lia.
Qed.

Section WorkerAnalysis.
Context `{PythonLib}.

(** One turn of the loop on a source whose future is pending, by the way
    the processing of the element ends. *)
Lemma run_loop_turn_cases fuel self st outs trf element w :
  nodes w !! self = Some (mkNode (Source st) outs trf) ->
  src_termination_future st = Some Pending ->
  exists w1 r1,
    _do_downstream (do_ fuel) self element w = (w1, r1) /\
    nodes w1 !! self = Some (mkNode (Source st) outs trf) /\
    _run_loop_turn fuel self element w
    = match r1 with
      | Returns result =>
          match element with
          | TerminationObj =>
              (with_node w1 self
                 (mkNode (Source (with_termination_future st
                                    (Some (Resolved result)))) outs trf),
               Returns true)
          | Elem _ => (w1, Returns false)
          end
      | Raises e =>
          (with_node w1 self
             (mkNode (Source (mkSource (buffer_size st) (tail (src_q st))
                                (src_termination_q st) (Some e)
                                (Some (Resolved VNone)) (src_thread st)))
                     outs trf),
           Returns true)
      | OutOfFuel => (w1, OutOfFuel)
      end.
Proof.
  intros Hn Hfut.
  destruct (_do_downstream (do_ fuel) self element w) as [w1 r1] eqn:Hdown.
  assert (Hn1 : nodes w1 !! self = Some (mkNode (Source st) outs trf)).
  { by eapply (framed_do_downstream _ (framed_do fuel)). }
  exists w1, r1. split; [done|]. split; [done|].
  unfold _run_loop_turn, try_except, _run_loop_try, bind at 1. rewrite Hdown.
  destruct r1 as [result|e|]; [| |done].
  - destruct element as [v|]; [done|].
    unfold termination_future_set_result, bind at 1.
    rewrite (bind_returns _ _ _ _ _ (get_source_found _ _ _ _ _ Hn1)), Hfut.
    by rewrite (set_source_found _ _ _ _ _ _ Hn1).
  - by rewrite (bind_returns _ _ _ _ _
                  (run_loop_except_found _ _ _ _ _ e Hn1 Hfut)).
Qed.

(** One move of the worker from inside its loop, by the way the processing
    of the element at the head of the queue ends. *)
Lemma worker_step_InLoop fuel self st outs trf element rest w :
  nodes w !! self = Some (mkNode (Source st) outs trf) ->
  src_thread st = InLoop ->
  src_q st = element :: rest ->
  src_termination_future st = Some Pending ->
  exists w1 r1,
    _do_downstream (do_ fuel) self element
      (with_node w self (mkNode (Source (with_q st rest)) outs trf))
    = (w1, r1) /\
    nodes w1 !! self = Some (mkNode (Source (with_q st rest)) outs trf) /\
    worker_step fuel self w
    = Some
        match r1 with
        | Returns result =>
            match element with
            | TerminationObj =>
                (with_node w1 self
                   (mkNode (Source (mkSource (buffer_size st) rest
                                      (src_termination_q st) (src_ex st)
                                      (Some (Resolved result)) LoopExited))
                           outs trf),
                 Returns tt)
            | Elem _ =>
                (with_node w1 self
                   (mkNode (Source (mkSource (buffer_size st) rest
                                      (src_termination_q st) (src_ex st)
                                      (Some Pending) InLoop))
                           outs trf),
                 Returns tt)
            end
        | Raises e =>
            (with_node w1 self
               (mkNode (Source (mkSource (buffer_size st) (tail rest)
                                  (src_termination_q st) (Some e)
                                  (Some (Resolved VNone)) LoopExited))
                       outs trf),
             Returns tt)
        | OutOfFuel => (w1, OutOfFuel)
        end.
Proof.
  intros Hn Hpc Hq Hfut.
  destruct (run_loop_turn_cases fuel self (with_q st rest) outs trf element
              (with_node w self (mkNode (Source (with_q st rest)) outs trf))
              (with_node_lookup _ _ _) Hfut)
    as (w1 & r1 & Hdown & Hn1 & Hturn).
  exists w1, r1. split; [done|]. split; [done|].
  unfold worker_step. rewrite (get_source_found _ _ _ _ _ Hn), Hpc, Hq.
  f_equal.
  rewrite (bind_returns _ _ _ _ _ (set_source_found _ _ _ _ _ _ Hn)), Hturn.
  destruct r1 as [result|e|]; [| |done].
  - destruct element as [v|].
    + rewrite (bind_returns _ _ _ _ _ (get_source_found _ _ _ _ _ Hn1)).
      rewrite (set_source_found _ _ _ _ _ _ Hn1).
      unfold with_thread, with_q. simpl. by rewrite Hfut.
    + erewrite bind_returns by (eapply get_source_found, with_node_lookup).
      erewrite set_source_found by apply with_node_lookup.
      by rewrite with_node_twice.
  - erewrite bind_returns by (eapply get_source_found, with_node_lookup).
    erewrite set_source_found by apply with_node_lookup.
    by rewrite with_node_twice.
Qed.






End WorkerAnalysis.

Lemma with_node_lookup_ne w k n j :
  j <> k -> nodes (with_node w k n) !! j = nodes w !! j.
Proof. intros Hne. unfold with_node. simpl. by rewrite lookup_insert_ne. Qed.

Section SourcePipeline.
Context `{PythonLib}.

Lemma worker_moves_app n m fuel self w :
  worker_moves (n + m) fuel self w
  = match worker_moves n fuel self w with
    | Some (w', Returns _) => worker_moves m fuel self w'
    | other => other
    end.
Proof.
  revert w. induction n as [|n IH]; intros w; [done|].
  cbn [worker_moves Nat.add].
  destruct (worker_step fuel self w) as [[w1 [[]|e|]]|]; [apply IH|done..].
Qed.

Lemma do_stage_raises fuel self s next trf x e w :
  nodes w !! self = Some (mkNode (stage_class s) [PNode next] trf) ->
  stage_items s x = Raises e ->
  do_ (S fuel) (PNode self) (Elem x) w = (w, Raises e).
Proof.
  intros Hn Hitems. cbn [do_].
  rewrite (bind_returns _ _ _ _ _ (get_node_found _ _ _ Hn)).
  destruct s as [fn|fn|fn]; cbn [cls stage_class stage_items] in *;
    unfold UnaryFunctionFlow_do, bind, lift;
    destruct (fn x) as [y| |] eqn:Hfn; try discriminate;
    simpl in Hitems; try (by injection Hitems as ->).
  unfold FlatMap_do_internal, bind, lift. by rewrite Hitems.
Qed.

Lemma chain_fails stages : forall fuel head last w x e,
  is_chain w head stages last ->
  fails_clean stages x e ->
  (length stages < fuel)%nat ->
  do_ fuel (PNode head) (Elem x) w = (w, Raises e).
Proof.
  induction stages as [|s stages IH]; intros fuel head last w x e
    Hchain Hfails Hfuel; [done|].
  destruct fuel as [|fuel]; [simpl in Hfuel; lia|]. simpl in Hfuel.
  destruct Hchain as (next & trf & Hhead & Hrest).
  destruct Hfails as [Hraise|(y & Hitems & Hfails)].
  - by eapply do_stage_raises.
  - rewrite (do_stage_element _ _ _ _ _ _ _ _ Hhead Hitems).
    cbn [feed]. unfold bind.
    by rewrite (IH fuel next last w y e Hrest Hfails ltac:(lia)).
Qed.

(** The worker of a source over a pipeline takes the elements at the head
    of its queue one by one, in order. *)
Lemma worker_moves_elements fuel self head stages last g outs trf trf_s xs :
  forall w st acc ys acc' rest,
    nodes w !! self = Some (mkNode (Source st) [PNode head] trf_s) ->
    src_thread st = InLoop ->
    src_termination_future st = Some Pending ->
    src_q st = map Elem xs ++ rest ->
    is_chain w head stages last ->
    nodes w !! last = Some (mkNode (Reduce g acc) outs trf) ->
    each_items (chain_items stages) xs = Returns ys ->
    fold_elements g acc ys = Returns acc' ->
    (length stages < fuel)%nat ->
    exists w',
      worker_moves (length xs) fuel self w = Some (w', Returns tt) /\
      nodes w' !! self
      = Some (mkNode (Source (mkSource (buffer_size st) rest
                                (src_termination_q st) (src_ex st)
                                (Some Pending) InLoop))
                     [PNode head] trf_s) /\
      nodes w' !! last = Some (mkNode (Reduce g acc') outs trf) /\
      is_chain w' head stages last.
Proof.
  induction xs as [|x xs IH];
    intros w st acc ys acc' rest Hn Hpc Hfut Hq Hchain Hlast Hitems Hfold
      Hfuel.
  - injection Hitems as <-. injection Hfold as <-.
    exists w. split; [done|]. split; [|done].
    rewrite Hn. destruct st. simpl in *. by subst.
  - cbn [each_items] in Hitems.
    destruct (chain_items stages x) as [a| |] eqn:Hx; try done.
    cbn [obind] in Hitems.
    destruct (each_items (chain_items stages) xs) as [b| |] eqn:Hxs; try done.
    injection Hitems as <-.
    rewrite fold_elements_app in Hfold.
    destruct (fold_elements g acc a) as [acc1| |] eqn:Hacc1; try done.
    cbn [obind] in Hfold.
    assert (Hne : self <> last) by (intros ->; congruence).
    destruct (worker_step_InLoop fuel self st [PNode head] trf_s (Elem x)
                (map Elem xs ++ rest) w Hn Hpc Hq Hfut)
      as (w1 & r1 & Hdown & Hn1 & Hstep).
    set (wq := with_node w self
                 (mkNode (Source (with_q st (map Elem xs ++ rest)))
                         [PNode head] trf_s)) in *.
    assert (Hchainq : is_chain wq head stages last).
    { eapply is_chain_with_node; [exact Hn| |done]. by intros []. }
    assert (Hlastq : nodes wq !! last = Some (mkNode (Reduce g acc) outs trf)).
    { unfold wq, with_node. simpl. by rewrite lookup_insert_ne. }
    pose proof (chain_feed stages fuel head last g outs trf wq acc [x] a acc1
                  Hchainq Hlastq) as Hfeed.
    cbn [each_items] in Hfeed. rewrite Hx in Hfeed. cbn [obind] in Hfeed.
    rewrite app_nil_r in Hfeed.
    specialize (Hfeed eq_refl Hacc1 Hfuel). cbn [feed] in Hfeed.
    rewrite (do_downstream_single_outlet _ _ _ head x wq
               (with_node_lookup _ _ _) eq_refl) in Hdown.
    unfold bind in Hfeed.
    destruct (do_ fuel (PNode head) (Elem x) wq) as [wd [v| |]]; try done.
    injection Hfeed as ->. injection Hdown as <- <-.
    cbn [worker_moves length]. rewrite Hstep.
    set (st2 := mkSource (buffer_size st) (map Elem xs ++ rest)
                  (src_termination_q st) (src_ex st) (Some Pending) InLoop).
    set (wd := with_node wq last (mkNode (Reduce g acc1) outs trf)) in *.
    set (w2 := with_node wd self (mkNode (Source st2) [PNode head] trf_s)).
    assert (H2 : nodes w2 !! self
                 = Some (mkNode (Source st2) [PNode head] trf_s))
      by apply with_node_lookup.
    assert (Hchain2 : is_chain w2 head stages last).
    { eapply is_chain_with_node; [exact Hn1| |]; [by intros []|].
      eapply is_chain_with_node; [exact Hlastq| |done]. by intros []. }
    assert (Hlast2 : nodes w2 !! last
                     = Some (mkNode (Reduce g acc1) outs trf)).
    { unfold w2. rewrite with_node_lookup_ne by done.
      apply with_node_lookup. }
    destruct (IH w2 st2 acc1 b acc' rest H2 eq_refl eq_refl eq_refl Hchain2
                Hlast2 eq_refl Hfold Hfuel)
      as (w' & Hmoves & Hself & Hlast' & Hchain').
    exists w'. by rewrite Hmoves.
Qed.

(** X6.  The worker of a running source over a linear pipeline that ends in
    a [Reduce] takes its queue in the order of arrival up to the marker:
    when it has finished, the accumulator is the fold over what the stages
    make of the elements in that order, the termination future holds the
    accumulator, no failure is recorded, and the entries that were queued
    behind the marker are still in the queue, never processed.
    [await_termination] then returns the accumulator. *)
Theorem Source_drains_pipeline
    fuel self st trf_s head stages last g outs trf w acc xs ys acc' rest :
  nodes w !! self = Some (mkNode (Source st) [PNode head] trf_s) ->
  src_thread st = InLoop ->
  src_termination_future st = Some Pending ->
  src_ex st = None ->
  src_termination_q st = [] ->
  src_q st = map Elem xs ++ TerminationObj :: rest ->
  is_chain w head stages last ->
  nodes w !! last = Some (mkNode (Reduce g acc) outs trf) ->
  each_items (chain_items stages) xs = Returns ys ->
  fold_elements g acc ys = Returns acc' ->
  (length stages < fuel)%nat ->
  exists w' w'',
    worker_moves (length xs + 2) fuel self w = Some (w', Returns tt) /\
    source_of w' self
    = Some (mkSource (buffer_size st) rest [None] None
                     (Some (Resolved acc')) ThreadFinished) /\
    accumulator_of w' last = Some acc' /\
    (forall fuel', worker_step fuel' self w' = None) /\
    await_termination self w' = Some (w'', Returns acc').
Proof.
  intros Hn Hpc Hfut Hex Htq Hq Hchain Hlast Hitems Hfold Hfuel.
  destruct (worker_moves_elements fuel self head stages last g outs trf trf_s
              xs w st acc ys acc' (TerminationObj :: rest)
              Hn Hpc Hfut Hq Hchain Hlast Hitems Hfold Hfuel)
    as (w1 & Hmoves & Hself & Hlast1 & Hchain1).
  rewrite Hex, Htq in Hself.
  assert (Hne : self <> last) by (intros ->; congruence).
  destruct (worker_step_InLoop fuel self _ [PNode head] trf_s TerminationObj
              rest w1 Hself eq_refl eq_refl eq_refl)
    as (w2 & r2 & Hdown & Hn2 & Hstep).
  cbn [buffer_size src_termination_q src_ex] in Hstep.
  match type of Hdown with
  | _do_downstream _ _ _ ?wq0 = _ => set (wq := wq0) in *
  end.
  assert (Hchainq : is_chain wq head stages last).
  { eapply is_chain_with_node; [exact Hself| |done]. by intros []. }
  assert (Hlastq : nodes wq !! last = Some (mkNode (Reduce g acc') outs trf)).
  { unfold wq, with_node. simpl. by rewrite lookup_insert_ne. }
  rewrite (do_downstream_termination_folds _ _ _ (PNode head) [] wq
             (with_node_lookup _ _ _) eq_refl) in Hdown.
  unfold terminate_outlets in Hdown.
  rewrite (bind_returns _ _ _ _ _
             (chain_termination stages fuel head last g outs trf wq acc'
                Hchainq Hlastq Hfuel)) in Hdown.
  injection Hdown as <- <-.
  set (w3 := with_node wq self
               (mkNode (Source (mkSource (buffer_size st) rest [] None
                                  (Some (Resolved acc')) LoopExited))
                       [PNode head] trf_s)) in *.
  pose proof (worker_step_LoopExited fuel w3 self _ _ _
                (with_node_lookup _ _ _) eq_refl eq_refl) as Hstep2.
  cbn [with_thread with_termination_q buffer_size src_q src_ex
       src_termination_future] in Hstep2.
  match type of Hstep2 with
  | _ = Some (?wf, _) => set (w4 := wf) in *
  end.
  assert (Hn4 : nodes w4 !! self
                = Some (mkNode (Source (mkSource (buffer_size st) rest [None]
                                          None (Some (Resolved acc'))
                                          ThreadFinished))
                               [PNode head] trf_s))
    by apply with_node_lookup.
  exists w4. eexists. split; [|split; [|split; [|split]]].
  - rewrite worker_moves_app, Hmoves. cbn [worker_moves].
    by rewrite Hstep, Hstep2.
  - unfold source_of. by rewrite Hn4.
  - unfold accumulator_of, w4, w3.
    rewrite !with_node_lookup_ne by done. by rewrite Hlastq.
  - intros fuel'. by eapply worker_step_ThreadFinished.
  - unfold await_termination.
    rewrite (get_source_found _ _ _ _ _ Hn4). simpl. f_equal.
    rewrite (bind_returns _ _ _ _ _ (set_source_found _ _ _ _ _ _ Hn4)).
    rewrite bind_ret_l. unfold termination_future_result.
    erewrite bind_returns by (eapply get_source_found, with_node_lookup).
    reflexivity.
Qed.

(** X7.  When an element makes a function of the pipeline raise, the worker
    stops there: the accumulator of the [Reduce] is the fold over the
    elements that came before, the exception is recorded in [_ex], the
    future is resolved with [None], the entry queued just behind the failing
    element is thrown away unprocessed, what follows it stays in the queue,
    and [await_termination] raises the [FlowException] caused by the
    recorded exception. *)
Theorem Source_failure_stops_pipeline
    fuel self st trf_s head stages last g outs trf w acc pre bad e ys acc'
    rest :
  nodes w !! self = Some (mkNode (Source st) [PNode head] trf_s) ->
  src_thread st = InLoop ->
  src_termination_future st = Some Pending ->
  src_ex st = None ->
  src_termination_q st = [] ->
  src_q st = map Elem pre ++ Elem bad :: rest ->
  is_chain w head stages last ->
  nodes w !! last = Some (mkNode (Reduce g acc) outs trf) ->
  each_items (chain_items stages) pre = Returns ys ->
  fold_elements g acc ys = Returns acc' ->
  fails_clean stages bad e ->
  (length stages < fuel)%nat ->
  exists w' w'',
    worker_moves (length pre + 2) fuel self w = Some (w', Returns tt) /\
    source_of w' self
    = Some (mkSource (buffer_size st) (tail rest) [Some e] (Some e)
                     (Some (Resolved VNone)) ThreadFinished) /\
    accumulator_of w' last = Some acc' /\
    await_termination self w' = Some (w'', Raises (execution_error e)).
Proof.
  intros Hn Hpc Hfut Hex Htq Hq Hchain Hlast Hitems Hfold Hfails Hfuel.
  destruct (worker_moves_elements fuel self head stages last g outs trf trf_s
              pre w st acc ys acc' (Elem bad :: rest)
              Hn Hpc Hfut Hq Hchain Hlast Hitems Hfold Hfuel)
    as (w1 & Hmoves & Hself & Hlast1 & Hchain1).
  rewrite Hex, Htq in Hself.
  assert (Hne : self <> last) by (intros ->; congruence).
  destruct (worker_step_InLoop fuel self _ [PNode head] trf_s (Elem bad)
              rest w1 Hself eq_refl eq_refl eq_refl)
    as (w2 & r2 & Hdown & Hn2 & Hstep).
  cbn [buffer_size src_termination_q src_ex] in Hstep.
  match type of Hdown with
  | _do_downstream _ _ _ ?wq0 = _ => set (wq := wq0) in *
  end.
  assert (Hchainq : is_chain wq head stages last).
  { eapply is_chain_with_node; [exact Hself| |done]. by intros []. }
  assert (Hlastq : nodes wq !! last = Some (mkNode (Reduce g acc') outs trf)).
  { unfold wq. by rewrite with_node_lookup_ne. }
  rewrite (do_downstream_single_outlet _ _ _ head bad wq
             (with_node_lookup _ _ _) eq_refl) in Hdown.
  rewrite (chain_fails stages fuel head last wq bad e Hchainq Hfails Hfuel)
    in Hdown.
  injection Hdown as <- <-.
  match type of Hstep with
  | _ = Some (?wf, _) => set (w3 := wf) in *
  end.
  pose proof (worker_step_LoopExited fuel w3 self _ _ _
                (with_node_lookup _ _ _) eq_refl eq_refl) as Hstep2.
  cbn [with_thread with_termination_q buffer_size src_q src_ex
       src_termination_future] in Hstep2.
  match type of Hstep2 with
  | _ = Some (?wf, _) => set (w4 := wf) in *
  end.
  assert (Hn4 : nodes w4 !! self
                = Some (mkNode (Source (mkSource (buffer_size st) (tail rest)
                                          [Some e] (Some e)
                                          (Some (Resolved VNone))
                                          ThreadFinished))
                               [PNode head] trf_s))
    by apply with_node_lookup.
  exists w4. eexists. split; [|split; [|split]].
  - rewrite worker_moves_app, Hmoves. cbn [worker_moves].
    by rewrite Hstep, Hstep2.
  - unfold source_of. by rewrite Hn4.
  - unfold accumulator_of, w4, w3.
    rewrite !with_node_lookup_ne by done. by rewrite Hlastq.
  - unfold await_termination.
    rewrite (get_source_found _ _ _ _ _ Hn4).
    cbn [src_termination_q]. f_equal.
    rewrite (bind_returns _ _ _ _ _ (set_source_found _ _ _ _ _ _ Hn4)).
    unfold _raise_on_error, bind.
    erewrite get_source_found by apply with_node_lookup.
    reflexivity.
Qed.

End SourcePipeline.
(** ** What [do] may write *)

Lemma node_kept_refl n : node_kept n n.
Proof. repeat split. destruct (cls n); eauto. Qed.

Lemma node_kept_trans n1 n2 n3 :
  node_kept n1 n2 -> node_kept n2 n3 -> node_kept n1 n3.
Proof.
  intros (Ho1 & Ht1 & Hc1) (Ho2 & Ht2 & Hc2).
  split; [congruence|]. split; [congruence|].
  destruct (cls n1); try (by rewrite Hc1 in Hc2).
  - destruct Hc1 as [acc' Hc1]. by rewrite Hc1 in Hc2.
  - destruct Hc1 as [rt' Hc1]. by rewrite Hc1 in Hc2.
Qed.

Lemma store_kept_refl w : store_kept w w.
Proof.
  split; [done|]. intros id.
  destruct (nodes w !! id) as [n|]; [|done].
  exists n. split; [done|apply node_kept_refl].
Qed.

Lemma store_kept_trans w1 w2 w3 :
  store_kept w1 w2 -> store_kept w2 w3 -> store_kept w1 w3.
Proof.
  intros [Hout1 Hn1] [Hout2 Hn2]. split; [congruence|].
  intros id. specialize (Hn1 id). specialize (Hn2 id).
  destruct (nodes w1 !! id) as [n1|].
  - destruct Hn1 as (n2 & Hn2' & Hk1). rewrite Hn2' in Hn2.
    destruct Hn2 as (n3 & Hn3 & Hk2). exists n3.
    split; [done|by eapply node_kept_trans].
  - by rewrite Hn1 in Hn2.
Qed.

Lemma store_kept_set_node w id n n' :
  nodes w !! id = Some n -> node_kept n n' ->
  store_kept w (mkWorld (<[id := n']> (nodes w)) (stdout w)).
Proof.
  intros Hn Hk. split; [done|]. intros id0. simpl.
  destruct (decide (id = id0)) as [<-|Hne].
  - rewrite Hn, lookup_insert_eq. by exists n'.
  - rewrite lookup_insert_ne by done.
    destruct (nodes w !! id0) as [n0|]; [|done].
    exists n0. split; [done|apply node_kept_refl].
Qed.

(** A passive node that is kept is unchanged. *)
Lemma node_kept_passive n n' :
  node_kept n n' -> passive n = true -> n' = n.
Proof.
  destruct n as [c outs trf], n' as [c' outs' trf'].
  unfold node_kept, passive. cbn. intros (-> & -> & Hc) Hp.
  by destruct c; try discriminate; rewrite Hc.
Qed.

Create HintDb keeps.

Lemma keeps_ret {A} (a : A) : keeps (ret a).
Proof. intros w w' r [= <- _]. apply store_kept_refl. Qed.

Lemma keeps_raise {A} e : keeps (@raise A e).
Proof. intros w w' r [= <- _]. apply store_kept_refl. Qed.

Lemma keeps_out_of_fuel {A} : keeps (@out_of_fuel A).
Proof. intros w w' r [= <- _]. apply store_kept_refl. Qed.

Lemma keeps_lift {A} (o : outcome A) : keeps (lift o).
Proof. intros w w' r [= <- _]. apply store_kept_refl. Qed.

Lemma keeps_bind {A B} (c : M A) (k : A -> M B) :
  keeps c -> (forall a, keeps (k a)) -> keeps (bind c k).
Proof.
  intros Hc Hk w w' r. unfold bind.
  destruct (c w) as [w1 [a|e|]] eqn:Hcw; intros Hr.
  - eapply store_kept_trans; [by eapply Hc|by eapply Hk].
  - injection Hr as <- _. by eapply Hc.
  - injection Hr as <- _. by eapply Hc.
Qed.

Lemma keeps_get_node id : keeps (get_node id).
Proof.
  intros w w' r. unfold get_node.
  destruct (nodes w !! id); intros [= <- _]; apply store_kept_refl.
Qed.

Lemma keeps_index {A} (l : list A) i : keeps (index l i).
Proof.
  unfold index. destruct (l !! i); [apply keeps_ret|apply keeps_raise].
Qed.

#[local] Hint Resolve keeps_ret keeps_raise keeps_out_of_fuel keeps_lift
  keeps_get_node keeps_index : keeps.

(** Splits a goal [keeps c] along the binds and the case distinctions of
    [c]. *)
Ltac keeps_split :=
  first
    [ solve [eauto with keeps]
    | apply keeps_bind; [keeps_split | intros ?; keeps_split]
    | match goal with
      | |- keeps (match ?x with _ => _ end) => destruct x; keeps_split
      | |- keeps (if ?b then _ else _) => destruct b; keeps_split
      end
    | idtac ].

Lemma keeps_Reduce_do self element : keeps (Reduce_do self element).
Proof.
  intros w w' r. unfold Reduce_do, bind, get_node.
  destruct (nodes w !! self) as [n|] eqn:Hn;
    [|intros [= <- _]; apply store_kept_refl].
  destruct (cls n) eqn:Hcls; try (intros [= <- _]; apply store_kept_refl).
  destruct element as [v|]; [|intros [= <- _]; apply store_kept_refl].
  unfold lift.
  destruct (fn result v); try (intros [= <- _]; apply store_kept_refl).
  unfold set_node, ret. intros [= <- _].
  eapply store_kept_set_node; [exact Hn|].
  repeat split. rewrite Hcls. by eexists.
Qed.

Lemma keeps_get_join_runtime self : keeps (get_join_runtime self).
Proof. unfold get_join_runtime. keeps_split. Qed.

Lemma keeps_get_join_function self : keeps (get_join_function self).
Proof. unfold get_join_function. keeps_split. Qed.

Lemma keeps_set_join_runtime self rt : keeps (set_join_runtime self rt).
Proof.
  intros w w' r. unfold set_join_runtime, bind, get_node.
  destruct (nodes w !! self) as [n|] eqn:Hn;
    [|intros [= <- _]; apply store_kept_refl].
  destruct (cls n) eqn:Hcls; try (intros [= <- _]; apply store_kept_refl).
  unfold set_node. intros [= <- _].
  eapply store_kept_set_node; [exact Hn|].
  repeat split. rewrite Hcls. by eexists.
Qed.

#[local] Hint Resolve keeps_Reduce_do keeps_get_join_runtime
  keeps_get_join_function keeps_set_join_runtime : keeps.

Section KeepsDispatch.
Context `{PythonLib}.
Variable do_ : pyobj -> payload -> M value.
Hypothesis keeps_do : forall o p, keeps (do_ o p).

Lemma keeps_fold_termination outs fn count : forall i acc,
  keeps (fold_termination do_ outs fn i count acc).
Proof.
  induction count as [|count IH]; intros i acc; simpl; keeps_split.
Qed.

Lemma keeps_create_tasks outs : keeps (create_tasks outs).
Proof.
  induction outs as [|o outs IH]; simpl; [apply keeps_ret|].
  unfold bound_do. keeps_split.
Qed.

Lemma keeps_run_tasks element tasks : keeps (run_tasks do_ tasks element).
Proof.
  induction tasks as [|t tasks IH]; simpl; [apply keeps_ret|].
  intros w w' r.
  destruct (do_ t element w) as [w1 r1] eqn:Hdo.
  pose proof (keeps_do _ _ _ _ _ Hdo) as Hframe1.
  assert (Hrest : keeps (bind (run_tasks do_ tasks element)
                               (fun rs => ret (r1 :: rs))))
    by keeps_split.
  destruct r1; intros Hr.
  - eapply store_kept_trans; [exact Hframe1|by eapply Hrest].
  - eapply store_kept_trans; [exact Hframe1|by eapply Hrest].
  - by injection Hr as <- _.
Qed.

Lemma keeps_await_tasks results : keeps (await_tasks results).
Proof. induction results as [|r results IH]; simpl; keeps_split. Qed.

Lemma keeps_do_downstream self element :
  keeps (_do_downstream do_ self element).
Proof.
  unfold _do_downstream.
  pose proof keeps_fold_termination. pose proof keeps_create_tasks.
  pose proof keeps_run_tasks. pose proof keeps_await_tasks.
  keeps_split.
Qed.

Lemma keeps_forward_each (forward : payload -> M value) items :
  (forall p, keeps (forward p)) -> keeps (forward_each forward items).
Proof. intros Hf. induction items as [|x items IH]; simpl; keeps_split. Qed.

Lemma keeps_UnaryFunctionFlow_do (forward : payload -> M value) fn
    do_internal element :
  (forall p, keeps (forward p)) ->
  (forall v r, keeps (do_internal v r)) ->
  keeps (UnaryFunctionFlow_do forward fn do_internal element).
Proof. intros Hf Hi. unfold UnaryFunctionFlow_do. keeps_split. Qed.

Lemma keeps_worker_job self element request :
  keeps (_worker_job do_ self element request).
Proof.
  unfold _worker_job. pose proof keeps_do_downstream. keeps_split.
Qed.

Lemma keeps_worker_loop self n : keeps (_worker_loop do_ n self).
Proof.
  induction n as [|n IH]; simpl; [apply keeps_ret|].
  pose proof keeps_worker_job. keeps_split.
Qed.

Lemma keeps_worker_exit self failure : keeps (worker_exit self failure).
Proof. unfold worker_exit. keeps_split. Qed.

Lemma keeps_drain_one self : keeps (drain_one self).
Proof. unfold drain_one. keeps_split. Qed.

Lemma keeps_worker self n : keeps (_worker do_ n self).
Proof.
  intros w w' r. unfold _worker.
  destruct (_worker_loop do_ n self w) as [w1 r1] eqn:Hloop.
  pose proof (keeps_worker_loop _ _ _ _ _ Hloop) as Hframe1.
  pose proof keeps_worker_exit. pose proof keeps_drain_one.
  destruct r1 as [[]|ex|]; intros Hr.
  - eapply store_kept_trans; [exact Hframe1|]. by eapply keeps_worker_exit.
  - by injection Hr as <- _.
  - eapply store_kept_trans; [exact Hframe1|].
    assert (Hh : keeps (drain_one self ;; worker_exit self (Some ex)))
      by keeps_split.
    by eapply Hh.
  - by injection Hr as <- _.
Qed.

Lemma keeps_JoinWithTable_do self element :
  keeps (JoinWithTable_do do_ self element).
Proof.
  pose proof keeps_worker.
  unfold JoinWithTable_do, join_q_put, await_worker, await_done, _lazy_init.
  keeps_split.
Qed.

End KeepsDispatch.

Section KeepsEngine.
Context `{PythonLib}.

(** No call of [do], on any object and at any depth, adds or removes an
    instance, changes a class, a function or an outlet list, or prints. *)
Lemma keeps_do fuel : forall o p, keeps (do_ fuel o p).
Proof.
  induction fuel as [|fuel IH]; intros o p; cbn [do_].
  - apply keeps_out_of_fuel.
  - pose proof (keeps_do_downstream _ IH) as Hdown.
    pose proof (keeps_JoinWithTable_do _ IH) as Hjoin.
    destruct o as [id|items]; [|apply keeps_raise].
    apply keeps_bind; [apply keeps_get_node|]. intros n.
    destruct (cls n); try apply keeps_raise; try apply keeps_Reduce_do;
      try apply Hjoin.
    + apply keeps_UnaryFunctionFlow_do; [auto|].
      intros v r. unfold Map_do_internal. keeps_split.
    + apply keeps_UnaryFunctionFlow_do; [auto|].
      intros v r. unfold Filter_do_internal. keeps_split.
    + apply keeps_UnaryFunctionFlow_do; [auto|].
      intros v r. unfold FlatMap_do_internal.
      apply keeps_bind; [apply keeps_lift|]. intros items.
      by apply keeps_forward_each.
Qed.

End KeepsEngine.


Section AwaitTermination.
Context `{PythonLib}.

(** X8.  Once the thread of a source has finished and left its entry in
    [_termination_q], [await_termination] returns at once: it raises the
    [FlowException] caused by the recorded exception if there is one, and
    returns the result of the termination future otherwise, never an
    [InvalidStateError].  It takes the only entry of [_termination_q] with
    it, so a second call waits for ever, the thread having nothing more to
    put there. *)
Theorem await_termination_answers_once self st outs trf w :
  nodes w !! self = Some (mkNode (Source st) outs trf) ->
  source_inv st = true ->
  src_termination_q st <> [] ->
  exists result w',
    src_termination_future st = Some (Resolved result) /\
    await_termination self w
    = Some (w', match src_ex st with
                | Some e => Raises (execution_error e)
                | None => Returns result
                end) /\
    await_termination self w' = None /\
    forall fuel, worker_step fuel self w' = None.
Proof.
  intros Hn Hinv Htq. destruct st as [bs q tq ex fut pc].
  unfold source_inv in Hinv. cbn in Hinv, Htq.
  apply andb_prop in Hinv as [_ Hinv].
  destruct pc; try (by destruct ex, tq); try (by destruct fut as [[]|], tq).
  - apply andb_prop in Hinv as [_ Hinv]. by destruct tq.
  - destruct tq as [|got [|]]; try done.
    apply andb_prop in Hinv as [Hgot Hres].
    assert (Hfut : exists result, fut = Some (Resolved result)).
    { destruct ex, fut as [[|r]|]; try done; by exists r. }
    destruct Hfut as [result ->]. exists result.
    set (st' := mkSource bs q [] ex (Some (Resolved result)) ThreadFinished).
    exists (with_node w self (mkNode (Source st') outs trf)).
    assert (Hn' : nodes (with_node w self (mkNode (Source st') outs trf))
                  !! self = Some (mkNode (Source st') outs trf))
      by apply with_node_lookup.
    split; [done|]. split; [|split].
    + unfold await_termination.
      rewrite (get_source_found _ _ _ _ _ Hn). cbn [src_termination_q].
      f_equal.
      rewrite (bind_returns _ _ _ _ _ (set_source_found _ _ _ _ _ _ Hn)).
      unfold with_termination_q. cbn. fold st'.
      destruct got as [e0|], ex as [e|]; try done; cbn [_raise_on_error].
      * unfold bind. rewrite (get_source_found _ _ _ _ _ Hn'). reflexivity.
      * rewrite bind_ret_l. unfold termination_future_result.
        rewrite (bind_returns _ _ _ _ _ (get_source_found _ _ _ _ _ Hn')).
        reflexivity.
    + unfold await_termination.
      by rewrite (get_source_found _ _ _ _ _ Hn').
    + intros fuel. by eapply worker_step_ThreadFinished.
Qed.

(** X9.  However a call of [do] ends, on whatever graph, it prints nothing
    and leaves every [Source], [Map], [Filter] and [FlatMap] instance as it
    was, outlets included.  It adds no instance and removes none, and
    every instance keeps its outlets, its combining function, its class
    and the functions it was constructed with: all a call ever writes to
    is the accumulator of a [Reduce] and the queue, session and worker of
    a [JoinWithTable]. *)
Theorem do_writes_only_to_Reduce_and_Join fuel o element w w' r :
  do_ fuel o element w = (w', r) ->
  stdout w' = stdout w /\
  (forall id n,
      nodes w !! id = Some n -> passive n = true ->
      nodes w' !! id = Some n) /\
  store_kept w w'.
Proof.
  intros Hdo. pose proof (keeps_do fuel o element w w' r Hdo) as Hkept.
  split; [apply Hkept|]. split; [|exact Hkept].
  intros id n Hn Hp. destruct Hkept as [_ Hkept]. specialize (Hkept id).
  rewrite Hn in Hkept. destruct Hkept as (n' & Hn' & Hk).
  by rewrite (node_kept_passive _ _ Hk Hp) in Hn'.
Qed.

End AwaitTermination.

(** ** Access to the table *)

Lemma matches_http_scheme_added s :
  matches_http_scheme ("http://" ++ s) = true.
Proof.
  unfold matches_http_scheme. apply orb_true_iff. left.
  cbn. by destruct s.
Qed.

Lemma matches_http_scheme_not_empty s :
  matches_http_scheme s = true -> String.eqb s "" = false.
Proof. by destruct s. Qed.

(** X10.  Whatever the arguments and the environment, when
    [NeedsV3ioAccess.__init__] returns it has chosen an address and a key,
    each the argument when that is given and not empty and the value of
    its environment variable otherwise.  The address it keeps is the
    chosen one if that starts with [http://] or [https://] and the chosen
    one after [http://] if not, so it always starts with one of the two;
    an address that was kept is kept as it is when it is given again.  The
    headers are those of [GetItem] with the chosen key as session key. *)
Theorem NeedsV3ioAccess_url_has_scheme getenv webapi access_key access :
  NeedsV3ioAccess_init getenv webapi access_key = Returns access ->
  exists address key,
    chosen getenv webapi "V3IO_API" = Some address /\
    chosen getenv access_key "V3IO_ACCESS_KEY" = Some key /\
    _webapi_url access
    = (if matches_http_scheme address then address
       else ("http://" ++ address)%string) /\
    _get_item_headers access
    = [("X-v3io-function", "GetItem"); ("X-v3io-session-key", key)] /\
    matches_http_scheme (_webapi_url access) = true /\
    (forall getenv' access_key' access',
        NeedsV3ioAccess_init getenv' (Some (_webapi_url access)) access_key'
        = Returns access' ->
        _webapi_url access' = _webapi_url access).
Proof.
  unfold NeedsV3ioAccess_init. intros Hinit.
  assert (Hchosen : forall arg name msg,
             match arg with
             | Some s =>
                 if String.eqb s ""
                 then match getenv name with
                      | Some v => Returns v
                      | None => Raises (ValueError msg)
                      end
                 else Returns s
             | None => match getenv name with
                       | Some v => Returns v
                       | None => Raises (ValueError msg)
                       end
             end
             = match chosen getenv arg name with
               | Some v => Returns v
               | None => Raises (ValueError msg)
               end).
  { intros [s|] name msg; unfold chosen; [|done].
    by destruct (String.eqb s ""). }
  rewrite !Hchosen in Hinit.
  destruct (chosen getenv webapi "V3IO_API") as [address|]; [|done].
  cbn [obind] in Hinit.
  destruct (chosen getenv access_key "V3IO_ACCESS_KEY") as [key|]; [|done].
  cbn [obind] in Hinit. injection Hinit as <-.
  exists address, key. cbn [_webapi_url _get_item_headers].
  set (url := if matches_http_scheme address then address
              else ("http://" ++ address)%string).
  assert (Hurl : matches_http_scheme url = true).
  { unfold url. destruct (matches_http_scheme address) eqn:Haddress; [done|].
    apply matches_http_scheme_added. }
  repeat split; [done|].
  intros getenv' access_key' access'.
  rewrite (matches_http_scheme_not_empty _ Hurl). cbn [obind].
  rewrite Hurl. intros Hinit.
  match type of Hinit with
  | obind ?c _ = _ => destruct c as [key'| |]; try done
  end.
  cbn [obind] in Hinit. by injection Hinit as <-.
Qed.

(** X11.  [NeedsV3ioAccess.__init__] raises exactly when an argument is
    [None] or empty and its environment variable is not set, and the
    address is looked at first; an environment variable that is set, even
    to the empty string, is taken as it is. *)
Theorem NeedsV3ioAccess_raises_iff_missing getenv webapi access_key :
  match NeedsV3ioAccess_init getenv webapi access_key with
  | Returns _ =>
      missing getenv webapi "V3IO_API" = false /\
      missing getenv access_key "V3IO_ACCESS_KEY" = false
  | Raises e =>
      (missing getenv webapi "V3IO_API" = true /\
       e = ValueError "webapi or V3IO_API must be set") \/
      (missing getenv webapi "V3IO_API" = false /\
       missing getenv access_key "V3IO_ACCESS_KEY" = true /\
       e = ValueError "access_key or V3IO_ACCESS_KEY must be set")
  | OutOfFuel => False
  end.
Proof.
  unfold NeedsV3ioAccess_init, missing.
  destruct webapi as [[|c s]|], access_key as [[|c' s']|]; cbn;
    destruct (getenv "V3IO_API"), (getenv "V3IO_ACCESS_KEY"); cbn; auto.
Qed.

(** ** Whole records *)

Lemma dict_set_fresh done name v val rest :
  name ∉ map fst done ->
  dict_set (done ++ (name, v) :: rest) name val
  = done ++ (name, val) :: rest.
Proof.
  induction done as [|[k x] done IH]; intros Hfresh; simpl.
  - by rewrite String.eqb_refl.
  - apply not_elem_of_cons in Hfresh as [Hne Hfresh]. simpl in Hne.
    destruct (String.eqb k name) eqn:Hk.
    + apply String.eqb_eq in Hk. congruence.
    + by rewrite IH.
Qed.

Lemma is_minus_char c : is_minus c = true -> c = "-"%char.
Proof.
  unfold is_minus. intros Hc. apply Nat.eqb_eq in Hc.
  rewrite <- (Ascii.ascii_nat_embedding c), Hc. reflexivity.
Qed.

Lemma digits_to_Z_all_digits s : forall acc z,
  digits_to_Z s acc = Some z -> s <> EmptyString -> all_digits s = true.
Proof.
  induction s as [|c s IH]; intros acc z Hz Hne; [done|].
  cbn [digits_to_Z] in Hz. destruct (is_digit c) eqn:Hc; [|done].
  destruct s as [|c' s']; [by simpl|].
  cbn [all_digits]. rewrite Hc. simpl. by eapply IH.
Qed.

Lemma py_int_integer_text s z :
  py_int s = Returns z -> is_integer_text s = true.
Proof.
  destruct s as [|c s]; [done|]. unfold py_int, is_integer_text.
  destruct (is_minus c).
  - destruct s as [|c' s']; [done|].
    destruct (digits_to_Z (String c' s') 0) as [z'|] eqn:Hz; [|done].
    intros _. by eapply digits_to_Z_all_digits.
  - destruct (digits_to_Z (String c s) 0) as [z'|] eqn:Hz; [|done].
    intros _. by eapply digits_to_Z_all_digits.
Qed.

Lemma integer_text_no_other_char s :
  is_integer_text s = true -> non_int_char_pattern_search s = false.
Proof.
  destruct s as [|c s]; [done|]. unfold is_integer_text.
  destruct (is_minus c) eqn:Hc; intros Hs.
  - cbn [non_int_char_pattern_search]. rewrite Hc. simpl.
    by apply all_digits_no_other_char.
  - by apply all_digits_no_other_char.
Qed.

Section RecordFacts.
Context `{PythonLib}.

Lemma decode_item_decodes todo : forall done out,
  NoDup (map fst (done ++ todo)) ->
  decode_item todo (done ++ todo) = Returns out <->
  exists decoded, out = done ++ decoded /\ Forall2 decodes_to todo decoded.
Proof.
  induction todo as [|[name ttv] todo IH]; intros done out Hnodup.
  - simpl. rewrite app_nil_r. split.
    + intros [= <-]. exists []. by rewrite app_nil_r.
    + intros (decoded & -> & Hall). apply Forall2_nil_inv_l in Hall as ->.
      by rewrite app_nil_r.
  - assert (Hfresh : name ∉ map fst done).
    { rewrite map_app in Hnodup. apply NoDup_app in Hnodup as (_ & Hd & _).
      intros Hin. apply (Hd _ Hin). simpl. left. }
    cbn [decode_item]. destruct ttv as [| | | | | |tags];
      try (split; [done|];
           intros (decoded & _ & Hall);
           apply Forall2_cons_inv_l in Hall as (d & ? & (_ & t & ? & _) & _);
           done).
    cbn [items obind].
    destruct (decode_type_to_value tags VNone) as [val| |] eqn:Hval;
      cbn [obind].
    + rewrite dict_set_fresh by done.
      specialize (IH (done ++ [(name, val)]) out).
      rewrite <- !app_assoc in IH. cbn [app] in IH.
      rewrite IH.
      2:{ by rewrite !map_app in *. }
      split.
      * intros (decoded & -> & Hall). exists ((name, val) :: decoded).
        split; [by rewrite <- app_assoc|]. constructor; [|done].
        split; [done|]. by exists tags.
      * intros (decoded & -> & Hall).
        apply Forall2_cons_inv_l in Hall
          as ([name' val'] & decoded' & (Hname & t & Ht & Hdec) & Hall & ->).
        cbn in Hname, Ht, Hdec. subst name'. injection Ht as <-.
        rewrite Hval in Hdec. injection Hdec as <-.
        exists decoded'. by rewrite <- app_assoc.
    + split; [done|]. intros (decoded & _ & Hall).
      apply Forall2_cons_inv_l in Hall
        as (d & ? & (_ & t & Ht & Hdec) & _).
      cbn in Ht. injection Ht as <-. by rewrite Hval in Hdec.
    + split; [done|]. intros (decoded & _ & Hall).
      apply Forall2_cons_inv_l in Hall
        as (d & ? & (_ & t & Ht & Hdec) & _).
      cbn in Ht. injection Ht as <-. by rewrite Hval in Hdec.
Qed.

(** X12.  [_parse_response] returns a record exactly when every attribute
    of the item decodes, and the record then has the attributes of the
    item under their names and in their order, each with the value its
    type tags decode to.  (The names of a dict are distinct.) *)
Theorem parse_response_keeps_names_and_order body document entries out :
  json_loads body = Returns document ->
  getitem document "Item" = Returns (VDict entries) ->
  NoDup (map fst entries) ->
  _parse_response body = Returns out <->
  exists decoded, out = VDict decoded /\ Forall2 decodes_to entries decoded.
Proof.
  intros Hjson Hitem Hnodup. unfold _parse_response.
  rewrite Hjson. cbn [obind]. rewrite Hitem. cbn [obind items].
  pose proof (fun out' => decode_item_decodes entries [] out' Hnodup)
    as Hdec.
  cbn [app] in Hdec.
  destruct (decode_item entries entries) as [dec| |] eqn:Hrun; cbn [obind].
  - split.
    + intros [= <-].
      destruct (proj1 (Hdec dec) eq_refl) as (decoded & -> & Hall).
      by exists decoded.
    + intros (decoded & -> & Hall). f_equal.
      assert (Returns dec = Returns decoded) as Hsame
        by (apply Hdec; by exists decoded).
      by injection Hsame as ->.
  - split; [done|]. intros (decoded & -> & Hall).
    assert (Raises e = Returns decoded) as Hsame
      by (apply Hdec; by exists decoded).
    done.
  - split; [done|]. intros (decoded & -> & Hall).
    assert (@OutOfFuel (list (string * value)) = Returns decoded) as Hsame
      by (apply Hdec; by exists decoded).
    done.
Qed.

(** X13.  An attribute tagged ["N"] decodes to an integer exactly when its
    text is one or more digits after an optional minus sign.  A text of
    minus signs and digits only that is not of this form, such as the
    empty text, ["-"] or ["1-2"], does not decode at all: [int] raises a
    [ValueError]. *)
Theorem number_decodes_to_int_iff s :
  ((exists z, decode_attribute "N" (VStr s) = Returns (VInt z)) <->
   is_integer_text s = true) /\
  (non_int_char_pattern_search s = false ->
   is_integer_text s = false ->
   exists message,
     decode_attribute "N" (VStr s) = Raises (ValueError message)).
Proof.
  rewrite decode_attribute_number. split; [split|].
  - intros [z Hz].
    destruct (non_int_char_pattern_search s).
    + by destruct (float_of_str s).
    + destruct (py_int s) as [z'| |] eqn:Hint; [|done..].
      by eapply py_int_integer_text.
  - intros Hs. rewrite (integer_text_no_other_char _ Hs).
    destruct s as [|c s]; [done|]. unfold is_integer_text in Hs.
    destruct (is_minus c) eqn:Hc.
    + apply is_minus_char in Hc as ->.
      rewrite (py_int_minus_digits _ Hs). by eexists.
    + rewrite (py_int_digits _ Hs). by eexists.
  - intros -> Hs.
    destruct (py_int s) as [z| |] eqn:Hint.
    + apply py_int_integer_text in Hint. congruence.
    + cbn. exists "invalid literal for int() with base 10". f_equal.
      revert Hint. unfold py_int, int_error.
      repeat case_match; congruence.
    + revert Hint. unfold py_int. repeat case_match; congruence.
Qed.

End RecordFacts.

(** ** Fan-out *)

Section FanOut.
Context `{PythonLib}.

Lemma create_tasks_nodes ids w :
  create_tasks (map PNode ids) w = (w, Returns (map PNode ids)).
Proof.
  induction ids as [|id ids IH]; [done|].
  cbn [map create_tasks bound_do]. rewrite bind_ret_l.
  by rewrite (bind_returns _ _ _ _ _ IH).
Qed.

Lemma run_tasks_reduces fuel y ids : forall w,
  NoDup ids ->
  (forall id, id ∈ ids ->
     is_reduce w (PNode id) = true /\ reduce_call w id y <> OutOfFuel) ->
  exists w',
    run_tasks (do_ (S fuel)) (map PNode ids) (Elem y) w
    = (w', Returns (map (task_answer w y) ids)) /\
    (forall id, id ∉ ids -> nodes w' !! id = nodes w !! id) /\
    (forall id, id ∈ ids ->
       accumulator_of w' id
       = match reduce_call w id y with
         | Returns a => Some a
         | _ => accumulator_of w id
         end).
Proof.
  induction ids as [|id ids IH]; intros w Hnodup Hall.
  - exists w. split; [done|]. split; [done|]. intros id Hin.
    by apply elem_of_nil in Hin.
  - apply NoDup_cons in Hnodup as [Hfresh Hnodup].
    destruct (Hall id ltac:(left)) as [Hred Hcall].
    unfold is_reduce in Hred. unfold reduce_call in Hcall.
    destruct (nodes w !! id) as [[c outs trf]|] eqn:Hn; [|done].
    cbn [cls] in Hred, Hcall. destruct c as [| | | |g acc|]; try done.
    cbn [map run_tasks].
    rewrite (do_Reduce _ _ _ _ _ _ _ _ Hn),
      (Reduce_do_element _ _ _ _ _ _ _ Hn).
    set (w1 := match g acc y with
               | Returns acc' =>
                   with_node w id (mkNode (Reduce g acc') outs trf)
               | _ => w
               end).
    assert (Hsame : forall id', id' <> id -> nodes w1 !! id' = nodes w !! id').
    { intros id' Hne. unfold w1. destruct (g acc y); [|done..].
      by apply with_node_lookup_ne. }
    assert (Hcalls : forall id', id' ∈ ids ->
              reduce_call w1 id' y = reduce_call w id' y).
    { intros id' Hin. unfold reduce_call. rewrite Hsame; [done|].
      by intros ->. }
    destruct (IH w1 Hnodup) as (w' & Hrun & Hout & Hin).
    { intros id' Hid'. destruct (Hall id' ltac:(by right)) as [Hr Hc].
      rewrite (Hcalls _ Hid'). split; [|done].
      unfold is_reduce in *. rewrite Hsame; [done|]. by intros ->. }
    exists w'.
    assert (Hanswers : map (task_answer w1 y) ids = map (task_answer w y) ids).
    { apply map_ext_in. intros id' Hid'. unfold task_answer.
      rewrite Hcalls; [done|]. by apply list_elem_of_In. }
    rewrite Hanswers in Hrun.
    assert (Hhere : task_answer w y id
                    = match g acc y with
                      | Returns _ => Returns VNone
                      | other => other
                      end).
    { unfold task_answer, reduce_call. by rewrite Hn. }
    split; [|split].
    + rewrite Hhere. unfold w1 in Hrun.
      destruct (g acc y) as [acc'|e|]; [| |done];
        unfold bind; by rewrite Hrun.
    + intros id' Hid'. apply not_elem_of_cons in Hid' as [Hne Hid'].
      rewrite (Hout _ Hid'). by apply Hsame.
    + intros id' Hid'. apply elem_of_cons in Hid' as [->|Hid'].
      * unfold accumulator_of at 1. rewrite (Hout _ Hfresh).
        unfold reduce_call, accumulator_of. rewrite Hn. cbn [cls].
        unfold w1. destruct (g acc y); [|by rewrite Hn..].
        by rewrite with_node_lookup.
      * rewrite (Hin _ Hid'), (Hcalls _ Hid').
        unfold accumulator_of. rewrite Hsame; [done|]. by intros ->.
Qed.

Lemma await_tasks_all_returned (rs : list (outcome value)) w :
  Forall (fun r => exists a, r = Returns a) rs ->
  await_tasks rs w = (w, Returns tt).
Proof.
  induction rs as [|r rs IH]; intros Hall; [done|].
  apply Forall_cons in Hall as [[a ->] Hall].
  cbn [await_tasks]. rewrite bind_lift_returns. by apply IH.
Qed.

Lemma await_tasks_first_failure (pre post : list (outcome value)) e w :
  Forall (fun r => exists a, r = Returns a) pre ->
  await_tasks (pre ++ Raises e :: post) w = (w, Raises e).
Proof.
  induction pre as [|r pre IH]; intros Hall.
  - cbn [app await_tasks]. by rewrite bind_lift_raises.
  - apply Forall_cons in Hall as [[a ->] Hall].
    cbn [app await_tasks]. rewrite bind_lift_returns. by apply IH.
Qed.

(** X14.  Fan-out to [Reduce] nodes whose functions return or raise
    without waiting, which is what a [callable2] is: plain functions, and
    coroutine functions that never suspend.  The event loop then runs each
    created task to its end, in creation order, before [_do_downstream]
    resumes from its first [await], so the element reaches every outlet.
    For outlets that are distinct such nodes: each accumulator takes the
    element in, also behind an outlet whose function raises, whose
    accumulator stays as it was; nothing else in the store changes; the
    call returns [None] when every function returned and raises the
    exception of the first outlet, in registration order, whose function
    raised.  (A function that waits is outside the model: its task can
    still be pending when [_do_downstream] raises.) *)
Theorem fan_out_reaches_every_Reduce fuel self n ids y w :
  nodes w !! self = Some n ->
  outlets n = map PNode ids ->
  NoDup ids ->
  (forall id, id ∈ ids ->
     is_reduce w (PNode id) = true /\ reduce_call w id y <> OutOfFuel) ->
  exists w' r,
    _do_downstream (do_ (S fuel)) self (Elem y) w = (w', r) /\
    (forall id, id ∈ ids ->
       accumulator_of w' id
       = match reduce_call w id y with
         | Returns a => Some a
         | _ => accumulator_of w id
         end) /\
    (forall id, id ∉ ids -> nodes w' !! id = nodes w !! id) /\
    ((forall id, id ∈ ids -> exists a, reduce_call w id y = Returns a) ->
     r = Returns VNone) /\
    (forall pre id post e,
       ids = pre ++ id :: post ->
       (forall id', id' ∈ pre -> exists a, reduce_call w id' y = Returns a) ->
       reduce_call w id y = Raises e ->
       r = Raises e).
Proof.
  intros Hn Houts Hnodup Hall.
  destruct (run_tasks_reduces fuel y ids w Hnodup Hall)
    as (w' & Hrun & Hout & Hin).
  assert (Hdown : _do_downstream (do_ (S fuel)) self (Elem y) w
                  = (await_tasks (map (task_answer w y) ids) ;; ret VNone) w').
  { unfold _do_downstream.
    rewrite (bind_returns _ _ _ _ _ (get_node_found _ _ _ Hn)), Houts.
    rewrite (bind_returns _ _ _ _ _ (create_tasks_nodes ids w)).
    by rewrite (bind_returns _ _ _ _ _ Hrun). }
  rewrite Hdown. clear Hdown.
  destruct ((await_tasks (map (task_answer w y) ids) ;; ret VNone) w')
    as [w'' r] eqn:Hawait.
  assert (Hw'' : w'' = w').
  { revert Hawait. unfold bind.
    generalize (map (task_answer w y) ids). intros rs. revert r.
    induction rs as [|[a|e|] rs IH]; intros r; cbn [await_tasks].
    - by intros [= <- _].
    - rewrite bind_lift_returns. apply IH.
    - rewrite bind_lift_raises. by intros [= <- _].
    - unfold bind, lift. by intros [= <- _]. }
  subst w''. exists w', r. split; [done|]. split; [done|]. split; [done|].
  split.
  - intros Hok. revert Hawait. unfold bind.
    rewrite await_tasks_all_returned; [by intros [= <-]|].
    apply Forall_forall. intros r0 Hr0.
    apply (list_elem_of_fmap (task_answer w y)) in Hr0 as (id & -> & Hid).
    destruct (Hok _ Hid) as [a Ha]. unfold task_answer. rewrite Ha.
    by eexists.
  - intros pre id post e -> Hpre Hfail. revert Hawait. unfold bind.
    rewrite map_app. cbn [map]. unfold task_answer at 2. rewrite Hfail.
    rewrite await_tasks_first_failure; [by intros [= <-]|].
    apply Forall_forall. intros r0 Hr0.
    apply (list_elem_of_fmap (task_answer w y)) in Hr0 as (id' & -> & Hid').
    destruct (Hpre _ Hid') as [a Ha]. unfold task_answer. rewrite Ha.
    by eexists.
Qed.

Lemma accumulators_of_fold fuel combine : forall ids accs w accumulated,
  accumulators_of w ids = Some accs ->
  fold_outlets (do_ (S fuel)) combine (map PNode ids) accumulated w
  = (w, fold_elements combine accumulated accs).
Proof.
  induction ids as [|id ids IH]; intros accs w accumulated Haccs.
  - by injection Haccs as <-.
  - cbn [accumulators_of] in Haccs. unfold accumulator_of in Haccs.
    destruct (nodes w !! id) as [[c outs trf]|] eqn:Hn; [|done].
    cbn [cls] in Haccs. destruct c as [| | | |g acc|]; try done.
    destruct (accumulators_of w ids) as [accs'|] eqn:Hrest; [|done].
    injection Haccs as <-.
    cbn [map fold_outlets fold_elements].
    rewrite (bind_returns _ _ _ _ _
               (eq_trans (do_Reduce _ _ _ _ _ _ _ _ Hn)
                         (Reduce_do_termination _ _ _ _ _ _ Hn))).
    unfold bind, lift. destruct (combine accumulated acc); [|done..].
    by apply IH.
Qed.

(** X15.  The marker that a node hands downstream to outlets that are
    [Reduce] nodes changes nothing in the store, and the call returns the
    accumulator of the first outlet with those of the later outlets folded
    in, in registration order, by the node's [termination_result_fn]; if
    that function raises, so does the call. *)
Theorem fan_out_combines_accumulators fuel self n id0 later acc0 accs w :
  nodes w !! self = Some n ->
  outlets n = map PNode (id0 :: later) ->
  accumulators_of w (id0 :: later) = Some (acc0 :: accs) ->
  _do_downstream (do_ (S fuel)) self TerminationObj w
  = (w, fold_elements (termination_result_fn n) acc0 accs).
Proof.
  intros Hn Houts Haccs.
  rewrite (do_downstream_termination_folds _ _ _ _ _ _ Hn Houts).
  unfold terminate_outlets.
  cbn [accumulators_of] in Haccs. unfold accumulator_of in Haccs.
  destruct (nodes w !! id0) as [[c outs trf]|] eqn:Hn0; [|done].
  cbn [cls] in Haccs. destruct c as [| | | |g acc|]; try done.
  destruct (accumulators_of w later) as [accs'|] eqn:Hrest; [|done].
  injection Haccs as <- <-.
  rewrite (bind_returns _ _ _ _ _
             (eq_trans (do_Reduce _ _ _ _ _ _ _ _ Hn0)
                       (Reduce_do_termination _ _ _ _ _ _ Hn0))).
  by apply accumulators_of_fold.
Qed.

End FanOut.

(** ** A session under every schedule *)

Lemma each_items_app f xs1 xs2 ys :
  each_items f (xs1 ++ xs2) = Returns ys ->
  exists ys1 ys2,
    each_items f xs1 = Returns ys1 /\ each_items f xs2 = Returns ys2 /\
    ys = ys1 ++ ys2.
Proof.
  revert ys. induction xs1 as [|x xs1 IH]; intros ys Hys.
  - by exists [], ys.
  - cbn [app each_items] in *.
    destruct (f x) as [a| |]; try done. cbn [obind] in *.
    destruct (each_items f (xs1 ++ xs2)) as [b| |] eqn:Hrest; try done.
    injection Hys as <-.
    destruct (IH b eq_refl) as (ys1 & ys2 & -> & Hys2 & ->).
    exists (a ++ ys1), ys2. by rewrite app_assoc.
Qed.

Lemma each_items_snoc f xs1 x ys1 a :
  each_items f xs1 = Returns ys1 ->
  f x = Returns a ->
  each_items f (xs1 ++ [x]) = Returns (ys1 ++ a).
Proof.
  revert ys1. induction xs1 as [|x1 xs1 IH]; intros ys1 Hys1 Hx.
  - injection Hys1 as <-. cbn. rewrite Hx. cbn. by rewrite app_nil_r.
  - cbn [app each_items] in *.
    destruct (f x1) as [a1| |]; try done. cbn [obind] in *.
    destruct (each_items f xs1) as [b| |]; try done.
    injection Hys1 as <-. rewrite (IH b eq_refl Hx). cbn.
    by rewrite app_assoc.
Qed.

Lemma stream_next_element done x tl (xs : list value) :
  map Elem done ++ Elem x :: tl = map Elem xs ++ [TerminationObj] ->
  exists later, xs = done ++ x :: later.
Proof.
  revert xs. induction done as [|d done IH]; intros [|x' xs] Heq;
    cbn in Heq; try done.
  - injection Heq as -> _. by exists xs.
  - injection Heq as -> Heq. destruct (IH _ Heq) as [later ->].
    by exists later.
Qed.

Lemma stream_next_marker done tl (xs : list value) :
  map Elem done ++ TerminationObj :: tl = map Elem xs ++ [TerminationObj] ->
  done = xs /\ tl = [].
Proof.
  revert xs. induction done as [|d done IH]; intros [|x' xs] Heq;
    cbn in Heq; try done.
  - by injection Heq as <-.
  - injection Heq as -> Heq. destruct (IH _ Heq) as [-> ->]. done.
Qed.

Lemma caller_at_inv pending op ops :
  caller_at pending (op :: ops) ->
  (op = RaiseOnError /\
   ((exists element pending',
       pending = element :: pending' /\
       ops = QPut element :: RaiseOnError :: concat (map _emit pending')) \/
    ops = concat (map _emit pending))) \/
  (exists element pending',
     op = QPut element /\ pending = element :: pending' /\
     ops = RaiseOnError :: concat (map _emit pending')).
Proof.
  intros Hat. remember (op :: ops) as l eqn:Heq.
  destruct Hat as [pending|element pending|pending].
  - destruct pending as [|element pending']; [done|].
    cbn in Heq. injection Heq as <- <-. left. split; [done|]. left.
    by exists element, pending'.
  - injection Heq as <- <-. right. by exists element, pending.
  - injection Heq as <- <-. left. split; [done|]. by right.
Qed.

Section SessionFacts.
Context `{PythonLib}.

Lemma chain_feed_any stages :
  forall fuel head last g outs trf w acc xs ys acc' w' r,
    is_chain w head stages last ->
    nodes w !! last = Some (mkNode (Reduce g acc) outs trf) ->
    each_items (chain_items stages) xs = Returns ys ->
    fold_elements g acc ys = Returns acc' ->
    feed (do_ fuel (PNode head)) xs w = (w', r) ->
    r <> OutOfFuel ->
    w' = with_node w last (mkNode (Reduce g acc') outs trf) /\
    r = Returns tt.
Proof.
  assert (Hzero : forall head last g outs trf w acc xs ys acc' w' r
                         (f : value -> outcome (list value)),
             nodes w !! last = Some (mkNode (Reduce g acc) outs trf) ->
             each_items f xs = Returns ys ->
             fold_elements g acc ys = Returns acc' ->
             feed (do_ 0 (PNode head)) xs w = (w', r) ->
             r <> OutOfFuel ->
             w' = with_node w last (mkNode (Reduce g acc') outs trf) /\
             r = Returns tt).
  { intros head last g outs trf w acc xs ys acc' w' r f Hlast Hitems Hfold
      Hfeed Hr.
    destruct xs as [|x xs].
    - injection Hitems as <-. injection Hfold as <-.
      injection Hfeed as <- <-. by rewrite with_node_same.
    - cbn in Hfeed. by injection Hfeed as _ <-. }
  induction stages as [|s stages IH];
    intros fuel head last g outs trf w acc xs ys acc' w' r Hchain Hlast
      Hitems Hfold Hfeed Hr;
    (destruct fuel as [|fuel]; [by eapply Hzero|]).
  - simpl in Hchain. subst head.
    change (chain_items []) with (fun x : value => Returns [x]) in Hitems.
    rewrite each_items_singletons in Hitems. injection Hitems as <-.
    rewrite (feed_Reduce _ _ _ _ _ _ _ _ _ Hlast Hfold) in Hfeed.
    by injection Hfeed as <- <-.
  - revert w acc ys acc' Hchain Hlast Hitems Hfold Hfeed.
    induction xs as [|x xs IHxs];
      intros w acc ys acc' Hchain Hlast Hitems Hfold Hfeed.
    + injection Hitems as <-. injection Hfold as <-.
      injection Hfeed as <- <-. by rewrite with_node_same.
    + cbn [each_items] in Hitems.
      destruct (chain_items (s :: stages) x) as [a| |] eqn:Hx; try done.
      cbn [obind] in Hitems.
      destruct (each_items (chain_items (s :: stages)) xs) as [b| |] eqn:Hxs;
        try done.
      injection Hitems as <-.
      rewrite fold_elements_app in Hfold.
      destruct (fold_elements g acc a) as [acc1| |] eqn:Hacc1; try done.
      cbn [obind] in Hfold.
      cbn [chain_items] in Hx.
      destruct (stage_items s x) as [items| |] eqn:Hs; try done.
      cbn [obind] in Hx.
      pose proof Hchain as (next & trf0 & Hhead & Hrest).
      cbn [feed] in Hfeed. unfold bind at 1 in Hfeed.
      rewrite (do_stage_element _ _ _ _ _ _ _ _ Hhead Hs) in Hfeed.
      unfold bind at 1 in Hfeed.
      destruct (feed (do_ fuel (PNode next)) items w) as [w1 r1] eqn:Hin.
      assert (Hr1 : r1 <> OutOfFuel).
      { intros ->. by injection Hfeed as _ <-. }
      destruct (IH fuel next last g outs trf w acc items a acc1 w1 r1
                  Hrest Hlast Hx Hacc1 Hin Hr1) as [-> ->].
      unfold ret at 1 in Hfeed.
      destruct (IHxs _ acc1 b acc'
                  ltac:(eapply is_chain_with_node;
                        [exact Hlast|by intros []|done])
                  (with_node_lookup _ _ _) eq_refl Hfold Hfeed)
        as [-> ->].
      by rewrite with_node_twice.
Qed.

Lemma chain_termination_any stages :
  forall fuel head last g outs trf w acc w' r,
    is_chain w head stages last ->
    nodes w !! last = Some (mkNode (Reduce g acc) outs trf) ->
    do_ fuel (PNode head) TerminationObj w = (w', r) ->
    r <> OutOfFuel ->
    w' = w /\ r = Returns acc.
Proof.
  induction stages as [|s stages IH];
    intros fuel head last g outs trf w acc w' r Hchain Hlast Hdo Hr;
    (destruct fuel as [|fuel]; [by injection Hdo as _ <-|]).
  - simpl in Hchain. subst head.
    rewrite (do_Reduce _ _ _ _ _ _ _ _ Hlast) in Hdo.
    rewrite (Reduce_do_termination _ _ _ _ _ _ Hlast) in Hdo.
    by injection Hdo as <- <-.
  - destruct Hchain as (next & trf0 & Hhead & Hrest).
    rewrite (do_unary_termination _ _ _ _ Hhead) in Hdo by (by destruct s).
    rewrite (do_downstream_termination_folds _ _ _ (PNode next) [] _ Hhead)
      in Hdo by done.
    unfold terminate_outlets, bind in Hdo.
    destruct (do_ fuel (PNode next) TerminationObj w) as [w1 r1] eqn:Hnext.
    assert (Hr1 : r1 <> OutOfFuel).
    { intros ->. by injection Hdo as _ <-. }
    destruct (IH fuel next last g outs trf w acc w1 r1 Hrest Hlast Hnext Hr1)
      as [-> ->].
    by injection Hdo as <- <-.
Qed.

Lemma worker_step_Starting fuel w self st outs trf :
  nodes w !! self = Some (mkNode (Source st) outs trf) ->
  src_thread st = Starting ->
  worker_step fuel self w
  = Some (with_node w self
            (mkNode (Source (with_thread
                               (with_termination_future st (Some Pending))
                               InLoop)) outs trf),
          Returns tt).
Proof.
  intros Hn Hpc. unfold worker_step.
  rewrite (get_source_found _ _ _ _ _ Hn), Hpc.
  by rewrite (set_source_found _ _ _ _ _ _ Hn).
Qed.

End SessionFacts.

Section SessionSchedules.
Context `{PythonLib}.
Variables (self head last : nat) (stages : list stage).
Variables (g : callable2) (acc0 : value) (xs : list value).
Variables (ys_all : list value) (acc_final : value).
Hypothesis Hall_items : each_items (chain_items stages) xs = Returns ys_all.
Hypothesis Hall_fold : fold_elements g acc0 ys_all = Returns acc_final.

Ltac measure_of Hn :=
  unfold session_measure, source_of; cbn [fst snd];
  rewrite ?with_node_lookup, ?Hn; cbn;
  repeat match goal with
         | Heq : src_thread _ = _ |- _ => rewrite Heq
         | Heq : src_q _ = _ |- _ => rewrite Heq
         end;
  rewrite ?length_app; cbn; lia.

Lemma session_caller_step w w' op ops r :
  session_inv self head last stages g acc0 xs (w, op :: ops) ->
  exec_op self op w = Some (w', r) ->
  r = Returns tt /\ session_inv self head last stages g acc0 xs (w', ops) /\
  (session_measure self (w', ops) < session_measure self (w, op :: ops))%nat.
Proof.
  intros (st & trf_s & outs & trf & done & ys & acc & pending & Hn & Hchain
          & Hlast & Hitems & Hfold & Hat & Hex & Hbs & Hpc) Hexec.
  cbn [fst snd] in *.
  assert (Hne : self <> last) by (intros ->; congruence).
  destruct (caller_at_inv _ _ _ Hat)
    as [[-> [(element & pending' & -> & ->)| ->]]
       |(element & pending' & -> & -> & ->)].
  - rewrite (RaiseOnError_clear _ _ _ _ _ Hn Hex) in Hexec.
    injection Hexec as <- <-. split; [done|]. split; [|measure_of Hn].
    exists st, trf_s, outs, trf, done, ys, acc, (element :: pending').
    cbn [fst snd]. repeat (split; [done|]). split; [constructor|]. done.
  - rewrite (RaiseOnError_clear _ _ _ _ _ Hn Hex) in Hexec.
    injection Hexec as <- <-. split; [done|]. split; [|measure_of Hn].
    exists st, trf_s, outs, trf, done, ys, acc, pending.
    cbn [fst snd]. repeat (split; [done|]). split; [constructor|]. done.
  - destruct (Nat.lt_ge_cases (length (src_q st)) (buffer_size st))
      as [Hroom|Hfull].
    2: { by rewrite (QPut_full _ _ _ _ _ _ Hn Hfull) in Hexec. }
    rewrite (QPut_room _ _ _ _ _ _ Hn Hroom) in Hexec.
    injection Hexec as <- <-. split; [done|]. split; [|measure_of Hn].
    exists (with_q st (src_q st ++ [element])), trf_s, outs, trf, done, ys,
      acc, pending'.
    cbn [fst snd]. split; [apply with_node_lookup|].
    split. { eapply is_chain_with_node; [exact Hn|by intros []|done]. }
    split. { by rewrite with_node_lookup_ne. }
    repeat (split; [done|]). split; [constructor|].
    repeat (split; [done|]). cbn.
    destruct (src_thread st); try done.
    + destruct Hpc as [-> Htq]. split; [|done]. by rewrite <- !app_assoc.
    + destruct Hpc as (-> & Htq & Hfut). split; [|done].
      by rewrite <- !app_assoc.
    + by destruct Hpc as (_ & _ & ? & _).
    + by destruct Hpc as (_ & _ & ? & _).
Qed.

Lemma session_worker_step w w' ops fuel r :
  session_inv self head last stages g acc0 xs (w, ops) ->
  worker_step fuel self w = Some (w', r) ->
  r <> OutOfFuel ->
  session_inv self head last stages g acc0 xs (w', ops) /\
  (session_measure self (w', ops) < session_measure self (w, ops))%nat.
Proof.
  intros (st & trf_s & outs & trf & done & ys & acc & pending & Hn & Hchain
          & Hlast & Hitems & Hfold & Hat & Hex & Hbs & Hpc) Hw Hr.
  cbn [fst snd] in *.
  assert (Hne : self <> last) by (intros ->; congruence).
  destruct (src_thread st) eqn:Hthread; try done.
  - (* the thread starts the loop *)
    destruct Hpc as [Hstream Htq].
    rewrite (worker_step_Starting _ _ _ _ _ _ Hn Hthread) in Hw.
    injection Hw as <- <-. split; [|measure_of Hn].
    eexists _, trf_s, outs, trf, done, ys, acc, pending.
    cbn [fst snd]. split; [apply with_node_lookup|].
    split. { eapply is_chain_with_node; [exact Hn|by intros []|done]. }
    split. { by rewrite with_node_lookup_ne. }
    repeat (split; [done|]). done.
  - (* one turn of the loop *)
    destruct Hpc as (Hstream & Htq & Hfut).
    destruct (src_q st) as [|element rest] eqn:Hq.
    { unfold worker_step in Hw.
      by rewrite (get_source_found _ _ _ _ _ Hn), Hthread, Hq in Hw. }
    destruct (worker_step_InLoop fuel self st [PNode head] trf_s element rest
                w Hn Hthread Hq Hfut) as (w1 & r1 & Hdown & Hn1 & Hws).
    rewrite Hws in Hw. clear Hws.
    set (wq := with_node w self
                 (mkNode (Source (with_q st rest)) [PNode head] trf_s)) in *.
    assert (Hchainq : is_chain wq head stages last).
    { eapply is_chain_with_node; [exact Hn|by intros []|done]. }
    assert (Hlastq : nodes wq !! last
                     = Some (mkNode (Reduce g acc) outs trf)).
    { unfold wq. by rewrite with_node_lookup_ne. }
    destruct element as [x|].
    + symmetry in Hstream. cbn [app] in Hstream.
      destruct (stream_next_element _ _ _ _ Hstream) as [later Hxs].
      pose proof Hall_items as Hsplit. rewrite Hxs in Hsplit.
      apply each_items_app in Hsplit as (ys1 & ys2 & Hys1 & Hys2 & Hys).
      rewrite Hitems in Hys1. injection Hys1 as <-.
      cbn [each_items] in Hys2.
      destruct (chain_items stages x) as [a| |] eqn:Hx; try done.
      cbn [obind] in Hys2.
      destruct (each_items (chain_items stages) later) as [b| |]; try done.
      injection Hys2 as <-.
      pose proof Hall_fold as Hfolds. rewrite Hys in Hfolds.
      rewrite fold_elements_app, Hfold in Hfolds. cbn [obind] in Hfolds.
      rewrite fold_elements_app in Hfolds.
      destruct (fold_elements g acc a) as [acc1| |] eqn:Hacc1; try done.
      rewrite (do_downstream_single_outlet _ _ _ head x wq
                 (with_node_lookup _ _ _) eq_refl) in Hdown.
      destruct (do_ fuel (PNode head) (Elem x) wq) as [wd rd] eqn:Hdo.
      assert (Hrd : rd <> OutOfFuel).
      { intros ->. injection Hdown as <- <-. by injection Hw as _ <-. }
      assert (Hfeed : feed (do_ fuel (PNode head)) [x] wq
                      = (wd, match rd with
                             | Returns _ => Returns tt
                             | Raises e => Raises e
                             | OutOfFuel => OutOfFuel
                             end)).
      { cbn [feed]. unfold bind. rewrite Hdo. by destruct rd. }
      assert (Hone : each_items (chain_items stages) [x] = Returns a).
      { cbn [each_items]. rewrite Hx. cbn. by rewrite app_nil_r. }
      assert (Hrd' : match rd with
                     | Returns _ => Returns tt
                     | Raises e => Raises e
                     | OutOfFuel => OutOfFuel
                     end <> OutOfFuel) by (by destruct rd).
      destruct (chain_feed_any stages fuel head last g outs trf wq acc [x] a
                  acc1 _ _ Hchainq Hlastq Hone Hacc1 Hfeed Hrd')
        as [Hwd Hrt].
      destruct rd as [v| |]; try done.
      injection Hdown as <- <-. injection Hw as <- <-. subst wd.
      split; [|measure_of Hn].
      eexists _, trf_s, outs, trf, (done ++ [x]), (ys ++ a), acc1, pending.
      cbn [fst snd]. split; [apply with_node_lookup|].
      split.
      { eapply is_chain_with_node; [exact Hn1|by intros []|].
        eapply is_chain_with_node; [exact Hlastq|by intros []|done]. }
      split. { rewrite with_node_lookup_ne by done. apply with_node_lookup. }
      split. { by apply each_items_snoc. }
      split. { by rewrite fold_elements_app, Hfold. }
      repeat (split; [done|]). cbn.
      split; [|done]. rewrite <- Hstream, map_app, <- app_assoc. done.
    + symmetry in Hstream. cbn [app] in Hstream.
      destruct (stream_next_marker _ _ _ Hstream) as [-> Hnil].
      apply app_eq_nil in Hnil as [-> ->].
      rewrite (do_downstream_termination_folds _ _ _ (PNode head) [] wq
                 (with_node_lookup _ _ _) eq_refl) in Hdown.
      unfold terminate_outlets, bind in Hdown.
      destruct (do_ fuel (PNode head) TerminationObj wq) as [wd rd] eqn:Hdo.
      assert (Hrd : rd <> OutOfFuel).
      { intros ->. injection Hdown as <- <-. by injection Hw as _ <-. }
      destruct (chain_termination_any stages fuel head last g outs trf wq acc
                  wd rd Hchainq Hlastq Hdo Hrd) as [-> ->].
      injection Hdown as <- <-. injection Hw as <- <-.
      split; [|measure_of Hn].
      eexists _, trf_s, outs, trf, xs, ys, acc, [].
      cbn [fst snd]. split; [apply with_node_lookup|].
      split. { eapply is_chain_with_node; [exact Hn1|by intros []|done]. }
      split. { by rewrite with_node_lookup_ne. }
      repeat (split; [done|]). done.
  - (* the thread leaves its entry in [_termination_q] *)
    destruct Hpc as (-> & Hq & -> & Htq & Hfut).
    rewrite (worker_step_LoopExited _ _ _ _ _ _ Hn Hthread Htq) in Hw.
    injection Hw as <- <-.
    split; [|measure_of Hn].
    eexists _, trf_s, outs, trf, xs, ys, acc, [].
    cbn [fst snd]. split; [apply with_node_lookup|].
    split. { eapply is_chain_with_node; [exact Hn|by intros []|done]. }
    split. { by rewrite with_node_lookup_ne. }
    repeat (split; [done|]). cbn. by rewrite Hex.
  - by rewrite (worker_step_ThreadFinished _ _ _ _ _ _ Hn Hthread) in Hw.
Qed.

Lemma session_step s s' :
  session_inv self head last stages g acc0 xs s -> sys_step self s s' ->
  session_inv self head last stages g acc0 xs s' /\
  (session_measure self s' < session_measure self s)%nat.
Proof.
  intros Hinv Hstep.
  destruct Hstep
    as [w w' op ops Hexec|w w' op ops e Hexec|w w' ops fuel r Hw Hr].
  - by destruct (session_caller_step _ _ _ _ _ Hinv Hexec) as (_ & ? & ?).
  - by destruct (session_caller_step _ _ _ _ _ Hinv Hexec) as (? & _).
  - by eapply session_worker_step.
Qed.

Lemma session_steps n s s' :
  session_inv self head last stages g acc0 xs s ->
  nsteps (sys_step self) n s s' ->
  session_inv self head last stages g acc0 xs s' /\
  (n + session_measure self s' <= session_measure self s)%nat.
Proof.
  intros Hinv Hsteps. induction Hsteps as [s|n s1 s2 s3 Hstep Hsteps IH].
  - split; [done|lia].
  - destruct (session_step _ _ Hinv Hstep) as [Hinv2 Hlt].
    destruct (IH Hinv2) as [Hinv3 Hle]. split; [done|lia].
Qed.

End SessionSchedules.

Lemma stream_has_marker (xs done : list value) :
  map Elem xs ++ [TerminationObj] <> map Elem done.
Proof.
  revert done. induction xs as [|x xs IH]; intros [|d done]; cbn;
    try (intros [=]; fail).
  intros [= _ Heq]. by eapply IH.
Qed.

Lemma session_ops_stream xs :
  session_ops xs = concat (map _emit (map Elem xs ++ [TerminationObj])).
Proof.
  unfold session_ops, FlowController_terminate, FlowController_emit.
  rewrite map_app, concat_app, map_map. reflexivity.
Qed.

Section SessionResults.
Context `{PythonLib}.
Variables (self head last : nat) (stages : list stage).
Variables (g : callable2) (acc0 : value) (xs : list value).
Variables (ys_all : list value) (acc_final : value).
Hypothesis Hall_items : each_items (chain_items stages) xs = Returns ys_all.
Hypothesis Hall_fold : fold_elements g acc0 ys_all = Returns acc_final.

Lemma session_starts st trf_s outs trf w :
  nodes w !! self = Some (mkNode (Source st) [PNode head] trf_s) ->
  src_thread st = Starting ->
  src_q st = [] ->
  src_termination_q st = [] ->
  src_ex st = None ->
  (0 < buffer_size st)%nat ->
  is_chain w head stages last ->
  nodes w !! last = Some (mkNode (Reduce g acc0) outs trf) ->
  session_inv self head last stages g acc0 xs (w, session_ops xs) /\
  session_measure self (w, session_ops xs) = (6 * length xs + 9)%nat.
Proof.
  intros Hn Hpc Hq Htq Hex Hbs Hchain Hlast. split.
  - exists st, trf_s, outs, trf, [], [], acc0,
      (map Elem xs ++ [TerminationObj]).
    cbn [fst snd]. repeat (split; [done|]).
    split. { rewrite session_ops_stream. constructor. }
    repeat (split; [done|]). rewrite Hpc, Hq. done.
  - unfold session_measure, source_of. cbn [fst snd]. rewrite Hn. cbn [cls].
    rewrite Hq, Hpc, session_ops_stream. cbn [length thread_distance].
    assert (Hlen : forall l,
               length (concat (map _emit l)) = (3 * length l)%nat).
    { induction l as [|p l IH]; [done|]. cbn. rewrite IH. lia. }
    rewrite Hlen, length_app, length_map. cbn. lia.
Qed.

(** The worker can take the entry at the head of its queue. *)
Lemma session_worker_can_move w ops st trf_s :
  session_inv self head last stages g acc0 xs (w, ops) ->
  nodes w !! self = Some (mkNode (Source st) [PNode head] trf_s) ->
  src_thread st = InLoop ->
  src_q st <> [] ->
  exists w', worker_step (S (length stages)) self w = Some (w', Returns tt).
Proof.
  intros (st' & trf_s' & outs & trf & done & ys & acc & pending & Hn' & Hchain
          & Hlast & Hitems & Hfold & Hat & Hex & Hbs & Hpc) Hn Hthread Hq.
  cbn [fst snd] in *. rewrite Hn in Hn'. injection Hn' as <- <-.
  rewrite Hthread in Hpc. destruct Hpc as (Hstream & Htq & Hfut).
  assert (Hne : self <> last) by (intros ->; congruence).
  destruct (src_q st) as [|element rest] eqn:Hqueue; [done|].
  destruct (worker_step_InLoop (S (length stages)) self st [PNode head] trf_s
              element rest w Hn Hthread Hqueue Hfut)
    as (w1 & r1 & Hdown & Hn1 & Hws).
  rewrite Hws. clear Hws.
  set (wq := with_node w self
               (mkNode (Source (with_q st rest)) [PNode head] trf_s)) in *.
  assert (Hchainq : is_chain wq head stages last).
  { eapply is_chain_with_node; [exact Hn|by intros []|done]. }
  assert (Hlastq : nodes wq !! last = Some (mkNode (Reduce g acc) outs trf)).
  { unfold wq. by rewrite with_node_lookup_ne. }
  destruct element as [x|].
  - symmetry in Hstream. cbn [app] in Hstream.
    destruct (stream_next_element _ _ _ _ Hstream) as [later Hxs].
    pose proof Hall_items as Hsplit. rewrite Hxs in Hsplit.
    apply each_items_app in Hsplit as (ys1 & ys2 & Hys1 & Hys2 & Hys).
    rewrite Hitems in Hys1. injection Hys1 as <-.
    cbn [each_items] in Hys2.
    destruct (chain_items stages x) as [a| |] eqn:Hx; try done.
    cbn [obind] in Hys2.
    destruct (each_items (chain_items stages) later) as [b| |]; try done.
    injection Hys2 as <-.
    pose proof Hall_fold as Hfolds. rewrite Hys in Hfolds.
    rewrite fold_elements_app, Hfold in Hfolds. cbn [obind] in Hfolds.
    rewrite fold_elements_app in Hfolds.
    destruct (fold_elements g acc a) as [acc1| |] eqn:Hacc1; try done.
    assert (Hone : each_items (chain_items stages) [x] = Returns a).
    { cbn [each_items]. rewrite Hx. cbn. by rewrite app_nil_r. }
    pose proof (chain_feed stages (S (length stages)) head last g outs trf wq
                  acc [x] a acc1 Hchainq Hlastq Hone Hacc1 ltac:(lia))
      as Hfeed.
    cbn [feed] in Hfeed. unfold bind in Hfeed.
    rewrite (do_downstream_single_outlet _ _ _ head x wq
               (with_node_lookup _ _ _) eq_refl) in Hdown.
    destruct (do_ (S (length stages)) (PNode head) (Elem x) wq)
      as [wd [v| |]]; try done.
    injection Hdown as <- <-. by eexists.
  - rewrite (do_downstream_termination_folds _ _ _ (PNode head) [] wq
               (with_node_lookup _ _ _) eq_refl) in Hdown.
    unfold terminate_outlets in Hdown.
    rewrite (bind_returns _ _ _ _ _
               (chain_termination stages (S (length stages)) head last g outs
                  trf wq acc Hchainq Hlastq ltac:(lia))) in Hdown.
    injection Hdown as <- <-. by eexists.
Qed.

Lemma session_progress s :
  session_inv self head last stages g acc0 xs s ->
  (exists s', sys_step self s s') \/ session_over self s.
Proof.
  destruct s as [w ops]. intros Hinv. pose proof Hinv as
    (st & trf_s & outs & trf & done & ys & acc & pending & Hn & Hchain
     & Hlast & Hitems & Hfold & Hat & Hex & Hbs & Hpc).
  cbn [fst snd] in *.
  assert (Hworker : src_thread st = Starting \/
                    (src_thread st = InLoop /\ src_q st <> []) \/
                    src_thread st = LoopExited ->
                    exists s', sys_step self (w, ops) s').
  { intros [Hthread|[[Hthread Hq]|Hthread]].
    - eexists. eapply step_worker with (fuel := O);
        [by apply (worker_step_Starting _ _ _ _ _ _ Hn Hthread)|done].
    - destruct (session_worker_can_move w ops st trf_s Hinv Hn Hthread Hq)
        as [w' Hw].
      eexists. by eapply step_worker; [exact Hw|].
    - rewrite Hthread in Hpc. destruct Hpc as (_ & _ & _ & Htq & _).
      eexists. eapply step_worker with (fuel := O);
        [by apply (worker_step_LoopExited _ _ _ _ _ _ Hn Hthread Htq)|done]. }
  destruct ops as [|op ops].
  - destruct (src_thread st) eqn:Hthread; try done.
    + left. apply Hworker. by left.
    + left. apply Hworker. right. left. split; [done|].
      destruct Hpc as (Hstream & _). intros Hq. rewrite Hq in Hstream.
      inversion Hat as [pending0 Hnil| |]; subst.
      destruct pending as [|p pending]; [|done].
      rewrite app_nil_r in Hstream. by apply stream_has_marker in Hstream.
    + left. apply Hworker. by right; right.
    + right. split; [done|]. exists st. split; [|done].
      unfold source_of. cbn [fst]. by rewrite Hn.
  - destruct (caller_at_inv _ _ _ Hat)
      as [[-> _]|(element & pending' & -> & -> & ->)].
    + left. eexists. apply step_caller.
      by apply (RaiseOnError_clear _ _ _ _ _ Hn Hex).
    + destruct (Nat.lt_ge_cases (length (src_q st)) (buffer_size st))
        as [Hroom|Hfull].
      * left. eexists. apply step_caller.
        by apply (QPut_room _ _ _ _ _ _ Hn Hroom).
      * left. apply Hworker.
        destruct (src_thread st) eqn:Hthread; try done.
        -- by left.
        -- right. left. split; [done|]. intros Hq. rewrite Hq in Hfull.
           cbn in Hfull. lia.
        -- by destruct Hpc as (_ & _ & ? & _).
        -- by destruct Hpc as (_ & _ & ? & _).
Qed.

Lemma session_answer s :
  session_inv self head last stages g acc0 xs s ->
  accumulator_of (fst s) last <> None /\
  (forall w' r,
      await_termination self (fst s) = Some (w', r) ->
      r = Returns acc_final /\
      accumulator_of (fst s) last = Some acc_final) /\
  (session_over self s ->
   exists w', await_termination self (fst s) = Some (w', Returns acc_final)).
Proof.
  intros (st & trf_s & outs & trf & done & ys & acc & pending & Hn & Hchain
          & Hlast & Hitems & Hfold & Hat & Hex & Hbs & Hpc).
  assert (Hacc : accumulator_of (fst s) last = Some acc).
  { unfold accumulator_of. by rewrite Hlast. }
  assert (Hfinished : src_thread st = ThreadFinished ->
            acc = acc_final /\
            exists w',
              await_termination self (fst s) = Some (w', Returns acc_final)).
  { intros Hthread. rewrite Hthread in Hpc.
    destruct Hpc as (-> & Hq & -> & Htq & Hfut).
    rewrite Hall_items in Hitems. injection Hitems as <-.
    rewrite Hall_fold in Hfold. injection Hfold as <-.
    split; [done|]. eexists. unfold await_termination.
    rewrite (get_source_found _ _ _ _ _ Hn), Htq. f_equal.
    rewrite (bind_returns _ _ _ _ _ (set_source_found _ _ _ _ _ _ Hn)).
    cbn [_raise_on_error]. rewrite bind_ret_l.
    unfold termination_future_result.
    erewrite bind_returns by (eapply get_source_found, with_node_lookup).
    cbn. by rewrite Hfut. }
  split; [by rewrite Hacc|]. split.
  - intros w' r Hawait.
    assert (Hwaits : src_thread st <> ThreadFinished ->
                     await_termination self (fst s) = None).
    { intros Hthread. apply (await_termination_waits _ _ _ _ _ Hn).
      destruct (src_thread st); try done.
      - by destruct Hpc as (_ & ?).
      - by destruct Hpc as (_ & ? & _).
      - by destruct Hpc as (_ & _ & _ & ? & _). }
    destruct (src_thread st) eqn:Hthread;
      try (by rewrite Hwaits in Hawait).
    destruct (Hfinished eq_refl) as [-> [w'' Hanswer]].
    rewrite Hanswer in Hawait. by injection Hawait as _ <-.
  - intros (_ & st' & Hst' & Hthread). unfold source_of in Hst'.
    rewrite Hn in Hst'. injection Hst' as <-.
    by destruct (Hfinished Hthread) as [_ ?].
Qed.

End SessionResults.

Section SessionTheorems.
Context `{PythonLib}.

(** X16.  A caller emits the elements [xs] to a started source over a
    linear pipeline that ends in a [Reduce], and terminates, while the
    thread of the source does its work; the functions of the pipeline
    return on what they are given.  Then, however the moves of the two
    threads are interleaved, [await_termination] returns nothing but the
    fold over what the stages make of [xs], in the order of emission, from
    the moment it returns at all, which it does once the caller's calls
    have returned and the thread has finished; the accumulator of the
    [Reduce] is then that fold as well. *)
Theorem every_schedule_gives_the_fold
    self head last stages g acc0 xs ys acc' st trf_s outs trf w s :
  nodes w !! self = Some (mkNode (Source st) [PNode head] trf_s) ->
  src_thread st = Starting ->
  src_q st = [] ->
  src_termination_q st = [] ->
  src_ex st = None ->
  (0 < buffer_size st)%nat ->
  is_chain w head stages last ->
  nodes w !! last = Some (mkNode (Reduce g acc0) outs trf) ->
  each_items (chain_items stages) xs = Returns ys ->
  fold_elements g acc0 ys = Returns acc' ->
  rtc (sys_step self) (w, session_ops xs) s ->
  (forall w' r,
      await_termination self (fst s) = Some (w', r) ->
      r = Returns acc' /\ accumulator_of (fst s) last = Some acc') /\
  (session_over self s ->
   exists w', await_termination self (fst s) = Some (w', Returns acc')).
Proof.
  intros Hn Hpc Hq Htq Hex Hbs Hchain Hlast Hitems Hfold Hrun.
  destruct (session_starts self head last stages g acc0 xs st trf_s outs trf
              w Hn Hpc Hq Htq Hex Hbs Hchain Hlast) as [Hinv _].
  apply rtc_nsteps in Hrun as [n Hrun].
  destruct (session_steps self head last stages g acc0 xs ys acc' Hitems
              Hfold n _ _ Hinv Hrun) as [Hinv' _].
  by destruct (session_answer self head last stages g acc0 xs ys acc' Hitems
                 Hfold s Hinv') as (_ & ? & ?).
Qed.

(** X17.  Under the same conditions no schedule blocks and none goes on for
    ever: from every state the two threads can reach, one of them can
    move, unless the caller's calls have returned and the thread has
    finished; and no run has more than [6 * len(xs) + 9] moves.  No move
    of the caller raises. *)
Theorem no_schedule_blocks
    self head last stages g acc0 xs ys acc' st trf_s outs trf w n s :
  nodes w !! self = Some (mkNode (Source st) [PNode head] trf_s) ->
  src_thread st = Starting ->
  src_q st = [] ->
  src_termination_q st = [] ->
  src_ex st = None ->
  (0 < buffer_size st)%nat ->
  is_chain w head stages last ->
  nodes w !! last = Some (mkNode (Reduce g acc0) outs trf) ->
  each_items (chain_items stages) xs = Returns ys ->
  fold_elements g acc0 ys = Returns acc' ->
  nsteps (sys_step self) n (w, session_ops xs) s ->
  (n <= 6 * length xs + 9)%nat /\
  ((exists s', sys_step self s s') \/ session_over self s) /\
  (forall op ops w' r,
      snd s = op :: ops -> exec_op self op (fst s) = Some (w', r) ->
      r = Returns tt).
Proof.
  intros Hn Hpc Hq Htq Hex Hbs Hchain Hlast Hitems Hfold Hrun.
  destruct (session_starts self head last stages g acc0 xs st trf_s outs trf
              w Hn Hpc Hq Htq Hex Hbs Hchain Hlast) as [Hinv Hmeasure].
  destruct (session_steps self head last stages g acc0 xs ys acc' Hitems
              Hfold n _ _ Hinv Hrun) as [Hinv' Hle].
  split; [lia|]. split.
  - by eapply session_progress.
  - intros op ops w' r Hops Hexec. destruct s as [w1 ops1].
    cbn [fst snd] in *. subst ops1.
    by destruct (session_caller_step self head last stages g acc0 xs
                   w1 w' op ops r Hinv' Hexec) as (? & _).
Qed.

End SessionTheorems.

(** ** The schedule of [drive] is one of the schedules *)

Section DriveFacts.
Context `{PythonLib}.

Lemma drive_sound sched fuel self : forall ops w w' r,
  drive sched fuel self ops w = (w', r) ->
  r <> OutOfFuel ->
  rtc (sys_step self) (w, ops) (w', []).
Proof.
  induction sched as [|sched IH]; intros ops w w' r Hdrive Hr.
  - by injection Hdrive as _ <-.
  - cbn [drive] in Hdrive. destruct ops as [|op ops].
    + injection Hdrive as <- _. apply rtc_refl.
    + destruct (exec_op self op w) as [[w1 [[]|e|]]|] eqn:Hexec.
      * eapply rtc_l; [by apply step_caller|by eapply (IH _ _ _ r)].
      * injection Hdrive as <- _. by eapply rtc_once, step_caller_raises.
      * by injection Hdrive as _ <-.
      * destruct (worker_step fuel self w) as [[w1 r1]|] eqn:Hw.
        2: { by injection Hdrive as _ <-. }
        assert (Hr1 : r1 <> OutOfFuel).
        { intros ->. by injection Hdrive as _ <-. }
        eapply rtc_l; [by eapply step_worker|].
        eapply (IH _ _ _ r); [|done]. by destruct r1.
Qed.

Lemma drive_await_termination_sound sched fuel self ops : forall w w' r,
  drive_await_termination sched fuel self w = (w', r) ->
  r <> OutOfFuel ->
  exists w1,
    rtc (sys_step self) (w, ops) (w1, ops) /\
    await_termination self w1 = Some (w', r).
Proof.
  induction sched as [|sched IH]; intros w w' r Hdrive Hr.
  - by injection Hdrive as _ <-.
  - cbn [drive_await_termination] in Hdrive.
    destruct (await_termination self w) as [[w1 r1]|] eqn:Hawait.
    + injection Hdrive as <- <-. exists w. by split.
    + destruct (worker_step fuel self w) as [[w1 r1]|] eqn:Hw.
      2: { by injection Hdrive as _ <-. }
      assert (Hr1 : r1 <> OutOfFuel).
      { intros ->. by injection Hdrive as _ <-. }
      assert (Hnext : drive_await_termination sched fuel self w1 = (w', r))
        by (by destruct r1).
      destruct (IH w1 w' r Hnext Hr) as (w2 & Hrun & Hanswer).
      exists w2. split; [|done].
      eapply rtc_l; [by eapply step_worker|done].
Qed.

End DriveFacts.

(** ** The further properties on the sample pipelines *)

(** X1 on [Source, Map, [Map, Reduce], Reduce]. *)
Lemma build_flow_only_appends_witness :
  store_extended nesting_store (fst (build_flow nesting_steps nesting_store)).
Proof.
  apply (build_flow_only_appends nesting_steps nesting_store _
           (snd (build_flow nesting_steps nesting_store))).
  by destruct (build_flow nesting_steps nesting_store).
Defined.

(** X2 on [Source, Reduce, Map]: the source is linked to the [Reduce] and
    the [Map] is not linked under the [Reduce]. *)
Lemma build_flow_stops_at_Reduce_witness :
  snd (build_flow [PNode 0; PNode 3; PNode 1] nesting_store)
  = Raises (Exception "Non-terminal Reduce") /\
  outlets_of (fst (build_flow [PNode 0; PNode 3; PNode 1] nesting_store)) 0
  = [PNode 3] /\
  outlets_of (fst (build_flow [PNode 0; PNode 3; PNode 1] nesting_store)) 3
  = [].
Proof.
  destruct (build_flow_stops_at_Reduce [PNode 0; PNode 3; PNode 1]
              nesting_store [(PNode 0, PNode 3)] [] (PNode 3) (PNode 1)
              eq_refl eq_refl eq_refl eq_refl) as [Hbuild Houts].
  rewrite Hbuild. cbn [fst snd]. rewrite !Houts. repeat split.
Defined.

(** X3 on [FlatMap(lambda x: [x, x])], [Filter(lambda x: x > 0)],
    [Reduce(0, add)] fed 1, -2 and 3: the accumulator is 8, which the
    marker brings back. *)
Lemma pipeline_computes_fold_witness :
  feed (@do_ sample_lib 3 (PNode 0)) [VInt 1; VInt (-2); VInt 3] chain_store
  = (with_node chain_store 2 (new_node (Reduce py_add (VInt 8))),
     Returns tt) /\
  @do_ sample_lib 3 (PNode 0) TerminationObj
    (with_node chain_store 2 (new_node (Reduce py_add (VInt 8))))
  = (with_node chain_store 2 (new_node (Reduce py_add (VInt 8))),
     Returns (VInt 8)).
Proof.
  apply (@pipeline_computes_fold sample_lib 3 0 2
           [SFlatMap py_twice; SFilter py_positive] py_add []
           default_termination_result_fn chain_store (VInt 0)
           [VInt 1; VInt (-2); VInt 3] [VInt 1; VInt 1; VInt 3; VInt 3]
           (VInt 8)).
  - do 2 eexists. split; [reflexivity|].
    do 2 eexists. split; [reflexivity|]. reflexivity.
  - reflexivity.
  - reflexivity.
  - reflexivity.
  - simpl. lia.
Defined.

(** X4 on a source of capacity 4 that holds one element: three more calls
    of [emit] return, a fourth one waits. *)
Lemma Source_accepts_up_to_capacity_witness :
  option_map (fun r => source_of (fst r) 0)
    (run_ops 0 (concat (map FlowController_emit
                          [Elem (VInt 2); Elem (VInt 3); Elem (VInt 4)]))
       (pipeline_store (looping [Elem (VInt 1)])))
  = Some (Some (looping [Elem (VInt 1); Elem (VInt 2); Elem (VInt 3);
                         Elem (VInt 4)])) /\
  run_ops 0 (concat (map FlowController_emit
                       [Elem (VInt 2); Elem (VInt 3); Elem (VInt 4);
                        Elem (VInt 5)]))
    (pipeline_store (looping [Elem (VInt 1)]))
  = None.
Proof.
  destruct (Source_accepts_up_to_capacity 0 (looping [Elem (VInt 1)])
              [PNode 1] default_termination_result_fn
              (pipeline_store (looping [Elem (VInt 1)]))
              [Elem (VInt 2); Elem (VInt 3); Elem (VInt 4)]
              eq_refl eq_refl eq_refl) as [Hfill Hwait].
  split.
  - rewrite Hfill. reflexivity.
  - exact (Hwait (Elem (VInt 5))).
Defined.

Lemma pipeline_store_is_chain st :
  is_chain (pipeline_store st) 1 pipeline_stages 3.
Proof.
  do 2 eexists. split; [reflexivity|].
  do 2 eexists. split; [reflexivity|]. reflexivity.
Qed.

(** The run of [drive] on the sample session is a run of the two
    threads. *)
Lemma driven_session_run :
  rtc (sys_step (H := sample_lib) 0)
    (pipeline_store started, session_ops [VInt 1; VInt (-2); VInt 3])
    (driven_session sample_lib [VInt 1; VInt (-2); VInt 3], []).
Proof.
  apply (@drive_sound sample_lib 100 5 0 _ _ _ (Returns tt));
    [|discriminate].
  unfold driven_session. by vm_compute.
Qed.


(** X6 on the sample pipeline with 1, -2, the marker and 9 in the queue:
    the worker stops behind the marker, 9 stays in the queue and
    [await_termination] returns 1. *)
Lemma Source_drains_pipeline_witness :
  exists w' w'',
    @worker_moves sample_lib 4 5 0
      (pipeline_store (looping [Elem (VInt 1); Elem (VInt (-2));
                                TerminationObj; Elem (VInt 9)]))
    = Some (w', Returns tt) /\
    source_of w' 0
    = Some (mkSource 4 [Elem (VInt 9)] [None] None
                     (Some (Resolved (VInt 1))) ThreadFinished) /\
    accumulator_of w' 3 = Some (VInt 1) /\
    (forall fuel', @worker_step sample_lib fuel' 0 w' = None) /\
    await_termination 0 w' = Some (w'', Returns (VInt 1)).
Proof.
  apply (@Source_drains_pipeline sample_lib 5 0
           (looping [Elem (VInt 1); Elem (VInt (-2)); TerminationObj;
                     Elem (VInt 9)])
           default_termination_result_fn 1 pipeline_stages 3 py_add []
           default_termination_result_fn _ (VInt 0) [VInt 1; VInt (-2)]
           [VInt 1] (VInt 1) [Elem (VInt 9)]);
    try reflexivity.
  - apply pipeline_store_is_chain.
  - simpl. lia.
Defined.

(** X7 on the sample pipeline with 1, a string, 5 and 6 in the queue: the
    filter raises on the string, 5 is thrown away, 6 stays, the
    accumulator is 1 and [await_termination] raises. *)
Lemma Source_failure_stops_pipeline_witness :
  exists w' w'',
    @worker_moves sample_lib 3 5 0
      (pipeline_store (looping [Elem (VInt 1); Elem (VStr "x");
                                Elem (VInt 5); Elem (VInt 6)]))
    = Some (w', Returns tt) /\
    source_of w' 0
    = Some (mkSource 4 [Elem (VInt 6)]
              [Some (TypeError "'>' not supported between 'str' and 'int'")]
              (Some (TypeError "'>' not supported between 'str' and 'int'"))
              (Some (Resolved VNone)) ThreadFinished) /\
    accumulator_of w' 3 = Some (VInt 1) /\
    await_termination 0 w'
    = Some (w'', Raises (execution_error
                           (TypeError
                              "'>' not supported between 'str' and 'int'"))).
Proof.
  apply (@Source_failure_stops_pipeline sample_lib 5 0
           (looping [Elem (VInt 1); Elem (VStr "x"); Elem (VInt 5);
                     Elem (VInt 6)])
           default_termination_result_fn 1 pipeline_stages 3 py_add []
           default_termination_result_fn _ (VInt 0) [VInt 1] (VStr "x")
           (TypeError "'>' not supported between 'str' and 'int'")
           [VInt 1] (VInt 1) [Elem (VInt 5); Elem (VInt 6)]);
    try reflexivity.
  - apply pipeline_store_is_chain.
  - right. exists (VStr "x"). split; [reflexivity|]. by left.
  - simpl. lia.
Defined.

(** X8 on a source whose thread has finished with the result 6: the first
    [await_termination] returns 6, the second one waits. *)
Lemma await_termination_answers_once_witness :
  exists result w',
    Some (Resolved (VInt 6)) = Some (Resolved result) /\
    await_termination 0
      (pipeline_store (mkSource 1 [] [None] None (Some (Resolved (VInt 6)))
                                ThreadFinished))
    = Some (w', Returns result) /\
    await_termination 0 w' = None /\
    forall fuel, @worker_step sample_lib fuel 0 w' = None.
Proof.
  exact (@await_termination_answers_once sample_lib 0
           (mkSource 1 [] [None] None (Some (Resolved (VInt 6)))
                     ThreadFinished)
           [PNode 1] default_termination_result_fn
           (pipeline_store (mkSource 1 [] [None] None
                              (Some (Resolved (VInt 6))) ThreadFinished))
           eq_refl eq_refl ltac:(discriminate)).
Defined.

(** X9 on [FlatMap(lambda x: [x, x])] over a [Reduce] that keeps what
    arrives, handed 1: the [FlatMap] node is as it was, and the [Reduce]
    node has its function and its empty outlet list still. *)
Lemma do_writes_only_to_Reduce_and_Join_witness :
  nodes (fst (@do_ sample_lib 2 (PNode 0) (Elem (VInt 1)) flat_store))
    !! 0%nat
  = nodes flat_store !! 0%nat /\
  exists n',
    nodes (fst (@do_ sample_lib 2 (PNode 0) (Elem (VInt 1)) flat_store))
      !! 1%nat = Some n' /\
    node_kept (new_node (Reduce py_append (VList []))) n'.
Proof.
  destruct (@do_writes_only_to_Reduce_and_Join sample_lib 2 (PNode 0)
              (Elem (VInt 1)) flat_store
              (fst (@do_ sample_lib 2 (PNode 0) (Elem (VInt 1)) flat_store))
              (snd (@do_ sample_lib 2 (PNode 0) (Elem (VInt 1)) flat_store))
              ltac:(by destruct (@do_ sample_lib 2 (PNode 0) (Elem (VInt 1))
                                   flat_store)))
    as (_ & Hnodes & _ & Hkept).
  split; [exact (Hnodes 0%nat _ eq_refl eq_refl)|].
  exact (Hkept 1%nat).
Defined.

(** X10 on an address without scheme given as argument, with the key
    taken from the environment. *)
Lemma NeedsV3ioAccess_url_has_scheme_witness :
  NeedsV3ioAccess_init
    (fun name => if String.eqb name "V3IO_ACCESS_KEY" then Some "secret"
                 else None)
    (Some "example.com:8081") None
  = Returns (mkV3ioAccess "http://example.com:8081"
               [("X-v3io-function", "GetItem");
                ("X-v3io-session-key", "secret")]) /\
  forall getenv' access_key' access',
    NeedsV3ioAccess_init getenv' (Some "http://example.com:8081") access_key'
    = Returns access' ->
    _webapi_url access' = "http://example.com:8081".
Proof.
  split; [reflexivity|].
  destruct (NeedsV3ioAccess_url_has_scheme
              (fun name => if String.eqb name "V3IO_ACCESS_KEY"
                           then Some "secret" else None)
              (Some "example.com:8081") None
              (mkV3ioAccess "http://example.com:8081"
                 [("X-v3io-function", "GetItem");
                  ("X-v3io-session-key", "secret")])
              eq_refl) as (address & key & _ & _ & _ & _ & _ & Hagain).
  exact Hagain.
Defined.

(** X12 on the body [{"Item": {"age": {"N": "42"}}}]. *)
Lemma parse_response_keeps_names_and_order_witness :
  @_parse_response sample_lib body_age
  = Returns (VDict [("age", VInt 42)]).
Proof.
  apply (@parse_response_keeps_names_and_order sample_lib body_age
           (VDict [("Item", VDict [("age", VDict [("N", VStr "42")])])])
           [("age", VDict [("N", VStr "42")])]
           (VDict [("age", VInt 42)]) eq_refl eq_refl).
  - apply NoDup_singleton.
  - exists [("age", VInt 42)]. split; [reflexivity|].
    constructor; [|constructor]. split; [reflexivity|].
    by exists [("N", VStr "42")].
Defined.

(** X13 on the text ["1-2"]. *)
Lemma number_decodes_to_int_iff_witness :
  exists message,
    @decode_attribute sample_lib "N" (VStr "1-2")
    = Raises (ValueError message).
Proof.
  exact (proj2 (@number_decodes_to_int_iff sample_lib "1-2")
           eq_refl eq_refl).
Defined.

(** X14 on [fan_store] handed a string: the adding outlets raise, the
    outlet between them keeps the string, and the call raises the
    exception of the second outlet, the first that failed. *)
Lemma fan_out_reaches_every_Reduce_witness :
  exists w' r,
    _do_downstream (@do_ sample_lib 1) 0 (Elem (VStr "x")) fan_store
    = (w', r) /\
    accumulator_of w' 2 = Some (VList [VStr "x"]) /\
    accumulator_of w' 1 = Some (VInt 0) /\
    r = Raises (TypeError "unsupported operand type(s) for +").
Proof.
  destruct (@fan_out_reaches_every_Reduce sample_lib 0 0
              (mkNode (Map py_identity) [PNode 2; PNode 1; PNode 3] py_append)
              [2; 1; 3]%nat (VStr "x") fan_store eq_refl eq_refl)
    as (w' & r & Hdown & Hacc & _ & _ & Hfail).
  - by apply NoDup_ListNoDup; repeat constructor; simpl; intuition lia.
  - intros id Hid. repeat (apply elem_of_cons in Hid as [->|Hid]);
      [by split..|by apply elem_of_nil in Hid].
  - exists w', r. split; [exact Hdown|].
    split; [exact (Hacc 2%nat ltac:(set_solver))|].
    split; [exact (Hacc 1%nat ltac:(set_solver))|].
    apply (Hfail [2%nat] 1%nat [3%nat]); [reflexivity| |reflexivity].
    intros id Hid. apply elem_of_cons in Hid as [->|Hid];
      [by eexists|by apply elem_of_nil in Hid].
Defined.

(** X15 on [fan_store]: the marker brings back the three accumulators in
    a list, in the order of the outlets. *)
Lemma fan_out_combines_accumulators_witness :
  _do_downstream (@do_ sample_lib 1) 0 TerminationObj fan_store
  = (fan_store, Returns (VList [VInt 0; VInt 10])).
Proof.
  exact (@fan_out_combines_accumulators sample_lib 0 0
           (mkNode (Map py_identity) [PNode 2; PNode 1; PNode 3] py_append)
           2 [1; 3]%nat (VList []) [VInt 0; VInt 10] fan_store
           eq_refl eq_refl eq_refl).
Defined.

(** X16 on the sample session under the schedule of [drive]:
    [await_termination] returns 4. *)
Lemma every_schedule_gives_the_fold_witness :
  snd (driven_answer sample_lib [VInt 1; VInt (-2); VInt 3])
  = Returns (VInt 4).
Proof.
  destruct (@drive_await_termination_sound sample_lib 100 5 0 []
              (driven_session sample_lib [VInt 1; VInt (-2); VInt 3])
              (fst (driven_answer sample_lib [VInt 1; VInt (-2); VInt 3]))
              (snd (driven_answer sample_lib [VInt 1; VInt (-2); VInt 3])))
    as (w1 & Hrun & Hanswer).
  - unfold driven_answer.
    by destruct (drive_await_termination _ _ _ _).
  - by vm_compute.
  - destruct (@every_schedule_gives_the_fold sample_lib 0 1 3
                pipeline_stages py_add (VInt 0) [VInt 1; VInt (-2); VInt 3]
                [VInt 1; VInt 3] (VInt 4) started
                default_termination_result_fn []
                default_termination_result_fn (pipeline_store started)
                (w1, []) eq_refl eq_refl eq_refl eq_refl eq_refl
                ltac:(simpl; lia) (pipeline_store_is_chain started)
                eq_refl eq_refl eq_refl
                (rtc_trans _ _ _ driven_session_run Hrun)) as [Honly _].
    by destruct (Honly _ _ Hanswer) as [-> _].
Defined.

(** X17 on the sample session under the schedule of [drive]: the run up
    to the return of [terminate()] is within the bound, and from its last
    state the thread can move or the session is over. *)
Lemma no_schedule_blocks_witness :
  exists n,
    nsteps (sys_step (H := sample_lib) 0) n
      (pipeline_store started, session_ops [VInt 1; VInt (-2); VInt 3])
      (driven_session sample_lib [VInt 1; VInt (-2); VInt 3], []) /\
    (n <= 6 * 3 + 9)%nat /\
    ((exists s', sys_step (H := sample_lib) 0
                   (driven_session sample_lib [VInt 1; VInt (-2); VInt 3],
                    []) s') \/
     session_over 0
       (driven_session sample_lib [VInt 1; VInt (-2); VInt 3], [])).
Proof.
  destruct (proj1 (rtc_nsteps _ _) driven_session_run) as [n Hsteps].
  destruct (@no_schedule_blocks sample_lib 0 1 3 pipeline_stages py_add
              (VInt 0) [VInt 1; VInt (-2); VInt 3] [VInt 1; VInt 3] (VInt 4)
              started default_termination_result_fn []
              default_termination_result_fn (pipeline_store started) n
              (driven_session sample_lib [VInt 1; VInt (-2); VInt 3], [])
              eq_refl eq_refl eq_refl eq_refl eq_refl
              ltac:(simpl; lia) (pipeline_store_is_chain started)
              eq_refl eq_refl eq_refl Hsteps)
    as (Hbound & Hmove & _).
  exists n. split; [exact Hsteps|]. split; [exact Hbound|exact Hmove].
Defined.

(** ** From the definition of a pipeline to its result *)


Section WholePipeline.
Context `{PythonLib}.





End WholePipeline.

(** ** [JoinWithTable] into [Reduce] *)

Section JoinFacts.
Context `{PythonLib}.
Variables (fuel self last : nat).
Variables (ke : callable1) (jf : callable2).
Variable gi : value -> outcome response.
Variables (trf_j : callable2) (g : callable2) (outs : list pyobj).
Variable trf : callable2.

Lemma join_forward items : forall w rt acc acc1,
  nodes w !! self
  = Some (mkNode (JoinWithTable ke jf gi rt) [PNode last] trf_j) ->
  nodes w !! last = Some (mkNode (Reduce g acc) outs trf) ->
  fold_elements g acc items = Returns acc1 ->
  forward_each (_do_downstream (do_ (S fuel)) self) items w
  = (with_node w last (mkNode (Reduce g acc1) outs trf), Returns tt).
Proof.
  induction items as [|y items IH]; intros w rt acc acc1 Hself Hlast Hfold.
  - injection Hfold as <-. cbn. by rewrite with_node_same.
  - cbn [fold_elements] in Hfold.
    destruct (g acc y) as [acc0| |] eqn:Hg; try done. cbn [obind] in Hfold.
    assert (Hne : self <> last) by (intros ->; congruence).
    cbn [forward_each]. unfold bind at 1.
    rewrite (do_downstream_single_outlet _ _ _ last y w Hself eq_refl).
    rewrite (do_Reduce _ _ _ _ _ _ _ _ Hlast),
      (Reduce_do_element _ _ _ _ _ _ _ Hlast), Hg.
    rewrite (IH _ rt acc0 acc1); [by rewrite with_node_twice| | |done].
    + by rewrite with_node_lookup_ne.
    + apply with_node_lookup.
Qed.

Lemma worker_job_items do' x resp items w rt :
  nodes w !! self
  = Some (mkNode (JoinWithTable ke jf gi rt) [PNode last] trf_j) ->
  join_items jf x resp = Returns items ->
  _worker_job do' self x (Returns resp) w
  = forward_each (_do_downstream do' self) items w.
Proof.
  intros Hself Hitems. unfold join_items in Hitems.
  destruct (Z.eqb_spec (status resp) 200) as [H200|H200].
  - destruct (_parse_response (text resp)) as [record| |] eqn:Hparse;
      try done.
    cbn [obind] in Hitems. destruct (truthy record) eqn:Htruthy.
    + destruct (jf x record) as [joined| |] eqn:Hjoin; try done.
      injection Hitems as <-.
      by rewrite (worker_job_match _ _ _ _ _ _ _ _ _ _ _ _ _ Hself H200
                    Hparse Htruthy Hjoin).
    + injection Hitems as <-.
      by rewrite (worker_job_empty_record _ _ _ _ _ _ H200 Hparse Htruthy).
  - destruct (Z.eqb_spec (status resp) 404) as [H404|H404]; [|done].
    injection Hitems as <-.
    by rewrite (worker_job_not_found _ _ _ _ _ H404).
Qed.

(** One job taken from the queue and carried out. *)
Lemma worker_loop_job n x j q session w acc a acc1 :
  queued_as ke gi x j ->
  nodes w !! self
  = Some (mkNode (JoinWithTable ke jf gi
                    (Some (mkJoinRuntime session (j :: q) TaskRunning)))
                 [PNode last] trf_j) ->
  nodes w !! last = Some (mkNode (Reduce g acc) outs trf) ->
  element_items ke jf gi x = Returns a ->
  fold_elements g acc a = Returns acc1 ->
  exists w1,
    _worker_loop (do_ (S fuel)) (S n) self w
    = _worker_loop (do_ (S fuel)) n self w1 /\
    nodes w1 !! self
    = Some (mkNode (JoinWithTable ke jf gi
                      (Some (mkJoinRuntime session q TaskRunning)))
                   [PNode last] trf_j) /\
    nodes w1 !! last = Some (mkNode (Reduce g acc1) outs trf).
Proof.
  intros (key & Hkey & ->) Hself Hlast Hitems Hfold.
  unfold element_items in Hitems. rewrite Hkey in Hitems.
  cbn [obind] in Hitems.
  destruct (gi key) as [resp| |] eqn:Hresp; try done. cbn [obind] in Hitems.
  assert (Hne : self <> last) by (intros ->; congruence).
  set (w0 := with_node w self
               (mkNode (JoinWithTable ke jf gi
                          (Some (mkJoinRuntime session q TaskRunning)))
                       [PNode last] trf_j)).
  exists (with_node w0 last (mkNode (Reduce g acc1) outs trf)).
  split; [|split].
  - cbn [_worker_loop].
    rewrite (bind_returns _ _ _ _ _
               (get_join_runtime_found _ _ _ _ _ _ _ _ Hself)).
    cbn [join_q join_session join_worker].
    rewrite (bind_returns _ _ _ _ _
               (set_join_runtime_found _ _ _ _ _ _ _ _ _ Hself)).
    fold w0. unfold bind at 1.
    rewrite (worker_job_items _ x resp a w0 _ (with_node_lookup _ _ _) Hitems).
    rewrite (join_forward a w0 _ acc acc1 (with_node_lookup _ _ _));
      [done| |done].
    unfold w0. by rewrite with_node_lookup_ne.
  - rewrite with_node_lookup_ne by done. apply with_node_lookup.
  - apply with_node_lookup.
Qed.

(** The worker takes the queued jobs in order and leaves at the marker. *)
Lemma worker_loop_jobs queued : forall jobs n rest session w acc ys acc',
  Forall2 (queued_as ke gi) queued jobs ->
  nodes w !! self
  = Some (mkNode (JoinWithTable ke jf gi
                    (Some (mkJoinRuntime session
                             (jobs ++ JobTermination :: rest) TaskRunning)))
                 [PNode last] trf_j) ->
  nodes w !! last = Some (mkNode (Reduce g acc) outs trf) ->
  each_items (element_items ke jf gi) queued = Returns ys ->
  fold_elements g acc ys = Returns acc' ->
  (length jobs < n)%nat ->
  exists w',
    _worker_loop (do_ (S fuel)) n self w = (w', Returns true) /\
    nodes w' !! self
    = Some (mkNode (JoinWithTable ke jf gi
                      (Some (mkJoinRuntime session rest TaskRunning)))
                   [PNode last] trf_j) /\
    nodes w' !! last = Some (mkNode (Reduce g acc') outs trf).
Proof.
  induction queued as [|x queued IH];
    intros jobs n rest session w acc ys acc' Hjobs Hself Hlast Hitems Hfold Hn.
  - apply Forall2_nil_inv_l in Hjobs as ->.
    injection Hitems as <-. injection Hfold as <-.
    destruct n as [|n]; [simpl in Hn; lia|].
    assert (Hne : self <> last) by (intros ->; congruence).
    cbn [app] in Hself.
    eexists. split; [|split].
    + cbn [_worker_loop].
      rewrite (bind_returns _ _ _ _ _
                 (get_join_runtime_found _ _ _ _ _ _ _ _ Hself)).
      cbn [join_q join_session join_worker].
      by rewrite (bind_returns _ _ _ _ _
                    (set_join_runtime_found _ _ _ _ _ _ _ _ _ Hself)).
    + apply with_node_lookup.
    + by rewrite with_node_lookup_ne.
  - apply Forall2_cons_inv_l in Hjobs as (j & jobs' & Hj & Hjobs & ->).
    cbn [each_items] in Hitems.
    destruct (element_items ke jf gi x) as [a| |] eqn:Hx; try done.
    cbn [obind] in Hitems.
    destruct (each_items (element_items ke jf gi) queued) as [b| |] eqn:Hq;
      try done.
    injection Hitems as <-.
    rewrite fold_elements_app in Hfold.
    destruct (fold_elements g acc a) as [acc1| |] eqn:Hacc1; try done.
    cbn [obind] in Hfold.
    destruct n as [|n]; [simpl in Hn; lia|]. simpl in Hn.
    destruct (worker_loop_job n x j (jobs' ++ JobTermination :: rest) session
                w acc a acc1 Hj Hself Hlast Hx Hacc1)
      as (w1 & Hturn & Hself1 & Hlast1).
    rewrite Hturn.
    by apply (IH jobs' n rest session w1 acc1 b acc' Hjobs Hself1 Hlast1
                eq_refl Hfold ltac:(lia)).
Qed.

(** [await self._q.put(j)] on a running worker: when the queue is full the
    worker first carries out the job at its head. *)
Lemma join_put j_new queued jobs w acc zs ys acc' :
  Forall2 (queued_as ke gi) queued jobs ->
  (length jobs <= join_q_maxsize)%nat ->
  nodes w !! self
  = Some (mkNode (JoinWithTable ke jf gi
                    (Some (mkJoinRuntime SessionOpen jobs TaskRunning)))
                 [PNode last] trf_j) ->
  nodes w !! last = Some (mkNode (Reduce g acc) outs trf) ->
  each_items (element_items ke jf gi) (queued ++ zs) = Returns ys ->
  fold_elements g acc ys = Returns acc' ->
  exists w' queued' jobs' acc1 ys',
    join_q_put (do_ (S fuel)) self j_new w = (w', Returns tt) /\
    Forall2 (queued_as ke gi) queued' jobs' /\
    (length jobs' < join_q_maxsize)%nat /\
    nodes w' !! self
    = Some (mkNode (JoinWithTable ke jf gi
                      (Some (mkJoinRuntime SessionOpen (jobs' ++ [j_new])
                               TaskRunning)))
                   [PNode last] trf_j) /\
    nodes w' !! last = Some (mkNode (Reduce g acc1) outs trf) /\
    each_items (element_items ke jf gi) (queued' ++ zs) = Returns ys' /\
    fold_elements g acc1 ys' = Returns acc'.
Proof.
  intros Hjobs Hlen Hself Hlast Hitems Hfold.
  assert (Hne : self <> last) by (intros ->; congruence).
  unfold join_q_put.
  rewrite (bind_returns _ _ _ _ _
             (get_join_runtime_found _ _ _ _ _ _ _ _ Hself)).
  cbn [join_q].
  destruct (Nat.leb_spec join_q_maxsize (length jobs)) as [Hfull|Hroom].
  - destruct Hjobs as [|x j queued jobs Hj Hjobs];
      [unfold join_q_maxsize in Hfull; simpl in Hfull; lia|].
    cbn [app each_items] in Hitems.
    destruct (element_items ke jf gi x) as [a| |] eqn:Hx; try done.
    cbn [obind] in Hitems.
    destruct (each_items (element_items ke jf gi) (queued ++ zs))
      as [b| |] eqn:Hq; try done.
    injection Hitems as <-.
    rewrite fold_elements_app in Hfold.
    destruct (fold_elements g acc a) as [acc1| |] eqn:Hacc1; try done.
    cbn [obind] in Hfold.
    destruct (worker_loop_job 0 x j jobs SessionOpen w acc a acc1 Hj Hself
                Hlast Hx Hacc1) as (w1 & Hturn & Hself1 & Hlast1).
    assert (Hworker : _worker (do_ (S fuel)) 1 self w = (w1, Returns tt)).
    { unfold _worker. by rewrite Hturn. }
    rewrite (bind_returns _ _ _ _ _ Hworker).
    rewrite (bind_returns _ _ _ _ _
               (get_join_runtime_found _ _ _ _ _ _ _ _ Hself1)).
    cbn [join_q join_session join_worker].
    simpl in Hlen.
    destruct (Nat.leb_spec join_q_maxsize (length jobs)) as [Hstill|_];
      [lia|].
    rewrite (set_join_runtime_found _ _ _ _ _ _ _ _ _ Hself1).
    eexists _, queued, jobs, acc1, b.
    split; [reflexivity|]. split; [done|]. split; [lia|].
    split; [apply with_node_lookup|].
    split; [by rewrite with_node_lookup_ne|]. done.
  - rewrite bind_ret_l.
    rewrite (bind_returns _ _ _ _ _
               (get_join_runtime_found _ _ _ _ _ _ _ _ Hself)).
    cbn [join_q join_session join_worker].
    destruct (Nat.leb_spec join_q_maxsize (length jobs)) as [Hstill|_];
      [lia|].
    rewrite (set_join_runtime_found _ _ _ _ _ _ _ _ _ Hself).
    eexists _, queued, jobs, acc, ys.
    split; [reflexivity|]. split; [done|]. split; [lia|].
    split; [apply with_node_lookup|].
    split; [by rewrite with_node_lookup_ne|]. done.
Qed.

Lemma do_Join w rt element :
  nodes w !! self
  = Some (mkNode (JoinWithTable ke jf gi rt) [PNode last] trf_j) ->
  do_ (S (S fuel)) (PNode self) element w
  = JoinWithTable_do (do_ (S fuel)) self element w.
Proof.
  intros Hself. cbn [do_].
  by rewrite (bind_returns _ _ _ _ _ (get_node_found _ _ _ Hself)).
Qed.

(** The first call of [do] creates the session, the queue and the worker
    and goes on as any other call. *)
Lemma do_Join_lazy_init w element :
  nodes w !! self
  = Some (mkNode (JoinWithTable ke jf gi None) [PNode last] trf_j) ->
  do_ (S (S fuel)) (PNode self) element w
  = do_ (S (S fuel)) (PNode self) element
      (with_node w self
         (mkNode (JoinWithTable ke jf gi (Some join_started))
                 [PNode last] trf_j)).
Proof.
  intros Hself.
  rewrite (do_Join _ _ _ Hself), (do_Join _ _ _ (with_node_lookup _ _ _)).
  unfold JoinWithTable_do.
  rewrite (bind_returns _ _ _ _ _ (get_node_found _ _ _ Hself)).
  rewrite (bind_returns _ _ _ _ _
             (get_node_found _ _ _ (with_node_lookup _ _ _))).
  cbn [cls]. unfold _lazy_init.
  rewrite (bind_returns _ _ _ _ _
             (set_join_runtime_found _ _ _ _ _ _ _ _ _ Hself)).
  by rewrite bind_ret_l.
Qed.

Lemma do_Join_element x queued jobs w acc zs ys acc' :
  Forall2 (queued_as ke gi) queued jobs ->
  (length jobs <= join_q_maxsize)%nat ->
  nodes w !! self
  = Some (mkNode (JoinWithTable ke jf gi
                    (Some (mkJoinRuntime SessionOpen jobs TaskRunning)))
                 [PNode last] trf_j) ->
  nodes w !! last = Some (mkNode (Reduce g acc) outs trf) ->
  each_items (element_items ke jf gi) (queued ++ x :: zs) = Returns ys ->
  fold_elements g acc ys = Returns acc' ->
  exists w' queued' jobs' acc1 ys',
    do_ (S (S fuel)) (PNode self) (Elem x) w = (w', Returns VNone) /\
    Forall2 (queued_as ke gi) queued' jobs' /\
    (length jobs' <= join_q_maxsize)%nat /\
    nodes w' !! self
    = Some (mkNode (JoinWithTable ke jf gi
                      (Some (mkJoinRuntime SessionOpen jobs' TaskRunning)))
                   [PNode last] trf_j) /\
    nodes w' !! last = Some (mkNode (Reduce g acc1) outs trf) /\
    each_items (element_items ke jf gi) (queued' ++ zs) = Returns ys' /\
    fold_elements g acc1 ys' = Returns acc'.
Proof.
  intros Hjobs Hlen Hself Hlast Hitems Hfold.
  assert (Hkey : exists key, ke x = Returns key).
  { apply each_items_app in Hitems as (_ & ys2 & _ & Hx & _).
    cbn [each_items] in Hx. unfold element_items in Hx.
    destruct (ke x) as [key| |]; try done. by exists key. }
  destruct Hkey as [key Hkey].
  destruct (join_put (Job x (gi key)) queued jobs w acc (x :: zs) ys acc'
              Hjobs Hlen Hself Hlast Hitems Hfold)
    as (w' & queued' & jobs' & acc1 & ys' & Hput & Hjobs' & Hlen' & Hself'
        & Hlast' & Hitems' & Hfold').
  exists w', (queued' ++ [x]), (jobs' ++ [Job x (gi key)]), acc1, ys'.
  split; [|split; [|split; [|split; [done|split; [done|split; [|done]]]]]].
  - rewrite (do_Join _ _ _ Hself). unfold JoinWithTable_do.
    rewrite (bind_returns _ _ _ _ _ (get_node_found _ _ _ Hself)).
    cbn [cls]. rewrite bind_ret_l.
    rewrite (bind_returns _ _ _ _ _
               (get_join_runtime_found _ _ _ _ _ _ _ _ Hself)).
    cbn [join_worker]. rewrite bind_ret_l, Hkey, bind_lift_returns.
    rewrite (bind_returns _ _ _ _ _ Hput).
    rewrite (bind_returns _ _ _ _ _
               (get_join_runtime_found _ _ _ _ _ _ _ _ Hself')).
    cbn [join_worker]. by rewrite bind_ret_l.
  - apply Forall2_app; [done|]. constructor; [|constructor].
    by exists key.
  - rewrite length_app. simpl. lia.
  - by rewrite <- app_assoc.
Qed.

Lemma do_Join_termination queued jobs w acc ys acc' :
  Forall2 (queued_as ke gi) queued jobs ->
  (length jobs <= join_q_maxsize)%nat ->
  nodes w !! self
  = Some (mkNode (JoinWithTable ke jf gi
                    (Some (mkJoinRuntime SessionOpen jobs TaskRunning)))
                 [PNode last] trf_j) ->
  nodes w !! last = Some (mkNode (Reduce g acc) outs trf) ->
  each_items (element_items ke jf gi) queued = Returns ys ->
  fold_elements g acc ys = Returns acc' ->
  exists w',
    do_ (S (S fuel)) (PNode self) TerminationObj w = (w', Returns VNone) /\
    nodes w' !! self
    = Some (mkNode (JoinWithTable ke jf gi
                      (Some (mkJoinRuntime SessionClosed [] (TaskDone None))))
                   [PNode last] trf_j) /\
    nodes w' !! last = Some (mkNode (Reduce g acc') outs trf).
Proof.
  intros Hjobs Hlen Hself Hlast Hitems Hfold.
  assert (Hne : self <> last) by (intros ->; congruence).
  rewrite <- (app_nil_r queued) in Hitems.
  destruct (join_put JobTermination queued jobs w acc [] ys acc'
              Hjobs Hlen Hself Hlast Hitems Hfold)
    as (w1 & queued' & jobs' & acc1 & ys' & Hput & Hjobs' & Hlen' & Hself1
        & Hlast1 & Hitems' & Hfold').
  rewrite app_nil_r in Hitems'.
  destruct (worker_loop_jobs queued' jobs' (length (jobs' ++ [JobTermination]))
              [] SessionOpen w1 acc1 ys' acc' Hjobs' Hself1 Hlast1 Hitems'
              Hfold' ltac:(rewrite length_app; simpl; lia))
    as (w2 & Hloop & Hself2 & Hlast2).
  eexists. split; [|split].
  - rewrite (do_Join _ _ _ Hself). unfold JoinWithTable_do.
    rewrite (bind_returns _ _ _ _ _ (get_node_found _ _ _ Hself)).
    cbn [cls]. rewrite bind_ret_l.
    rewrite (bind_returns _ _ _ _ _
               (get_join_runtime_found _ _ _ _ _ _ _ _ Hself)).
    cbn [join_worker]. rewrite bind_ret_l.
    rewrite (bind_returns _ _ _ _ _ Hput).
    assert (Hworker :
              _worker (do_ (S fuel)) (length (jobs' ++ [JobTermination]))
                self w1
              = worker_exit self None w2).
    { unfold _worker. by rewrite Hloop. }
    rewrite (worker_exit_found _ _ _ _ _ _ _ _ _ Hself2) in Hworker.
    cbn [join_q] in Hworker.
    unfold await_worker, bind.
    rewrite (get_join_runtime_found _ _ _ _ _ _ _ _ Hself1).
    cbn [join_q join_worker]. rewrite Hworker.
    erewrite get_join_runtime_found by apply with_node_lookup.
    reflexivity.
  - apply with_node_lookup.
  - by rewrite with_node_lookup_ne.
Qed.

(** X19.  A fresh [JoinWithTable] node whose only outlet is a [Reduce],
    handed the elements [xs] and then the marker, when every key is
    extracted, every request is answered with status 200 or 404, every
    record decodes and the functions return: the joined elements reach the
    [Reduce] in the order of [xs], one for each element whose record is
    not empty and none for the others, however many elements there are for
    the queue of eight; the call with the marker returns [None] once the
    worker has carried out every queued job; the queue is then empty, the
    session closed and the worker done without exception. *)
Theorem JoinWithTable_joins_in_order xs w acc0 ys acc' :
  nodes w !! self
  = Some (mkNode (JoinWithTable ke jf gi None) [PNode last] trf_j) ->
  nodes w !! last = Some (mkNode (Reduce g acc0) outs trf) ->
  each_items (element_items ke jf gi) xs = Returns ys ->
  fold_elements g acc0 ys = Returns acc' ->
  exists w',
    (feed (do_ (S (S fuel)) (PNode self)) xs ;;
     do_ (S (S fuel)) (PNode self) TerminationObj) w
    = (w', Returns VNone) /\
    accumulator_of w' last = Some acc' /\
    join_runtime_of w' self
    = Some (mkJoinRuntime SessionClosed [] (TaskDone None)).
Proof.
  intros Hself Hlast Hitems Hfold.
  assert (Hne : self <> last) by (intros ->; congruence).
  set (w0 := with_node w self
               (mkNode (JoinWithTable ke jf gi (Some join_started))
                       [PNode last] trf_j)).
  assert (Hrun : forall zs queued jobs w1 acc ys1,
             Forall2 (queued_as ke gi) queued jobs ->
             (length jobs <= join_q_maxsize)%nat ->
             nodes w1 !! self
             = Some (mkNode (JoinWithTable ke jf gi
                               (Some (mkJoinRuntime SessionOpen jobs
                                        TaskRunning)))
                            [PNode last] trf_j) ->
             nodes w1 !! last = Some (mkNode (Reduce g acc) outs trf) ->
             each_items (element_items ke jf gi) (queued ++ zs)
             = Returns ys1 ->
             fold_elements g acc ys1 = Returns acc' ->
             exists w',
               (feed (do_ (S (S fuel)) (PNode self)) zs ;;
                do_ (S (S fuel)) (PNode self) TerminationObj) w1
               = (w', Returns VNone) /\
               nodes w' !! self
               = Some (mkNode (JoinWithTable ke jf gi
                                 (Some (mkJoinRuntime SessionClosed []
                                          (TaskDone None))))
                              [PNode last] trf_j) /\
               nodes w' !! last = Some (mkNode (Reduce g acc') outs trf)).
  { induction zs as [|z zs IH];
      intros queued jobs w1 acc ys1 Hjobs Hlen Hself1 Hlast1 Hitems1 Hfold1.
    - rewrite app_nil_r in Hitems1. cbn [feed]. rewrite bind_ret_l.
      by eapply do_Join_termination.
    - destruct (do_Join_element z queued jobs w1 acc zs ys1 acc' Hjobs Hlen
                  Hself1 Hlast1 Hitems1 Hfold1)
        as (w2 & queued' & jobs' & acc1 & ys' & Hdo & Hjobs' & Hlen' & Hself2
            & Hlast2 & Hitems2 & Hfold2).
      destruct (IH queued' jobs' w2 acc1 ys' Hjobs' Hlen' Hself2 Hlast2
                  Hitems2 Hfold2) as (w' & Hrest & Hfinal).
      exists w'. split; [|done].
      cbn [feed]. unfold bind at 1. unfold bind at 1. by rewrite Hdo. }
  assert (Hlast0 : nodes w0 !! last
                   = Some (mkNode (Reduce g acc0) outs trf)).
  { unfold w0. by rewrite with_node_lookup_ne. }
  destruct (Hrun xs [] [] w0 acc0 ys ltac:(constructor)
              ltac:(unfold join_q_maxsize; simpl; lia)
              (with_node_lookup _ _ _) Hlast0 Hitems Hfold)
    as (w' & Hfeed & Hself' & Hlast').
  exists w'. split; [|split].
  - destruct xs as [|x xs'].
    + cbn [feed] in *. rewrite bind_ret_l in *.
      by rewrite (do_Join_lazy_init _ _ Hself).
    + cbn [feed] in *. unfold bind at 1. unfold bind at 1.
      rewrite (do_Join_lazy_init _ _ Hself). exact Hfeed.
  - unfold accumulator_of. by rewrite Hlast'.
  - unfold join_runtime_of. by rewrite Hself'.
Qed.

End JoinFacts.

(** ** The marker changes nothing *)

Section MarkerFacts.
Context `{PythonLib}.

Lemma fold_termination_keeps_store (do' : pyobj -> payload -> M value) w :
  (forall o w' r, do' o TerminationObj w = (w', r) -> w' = w) ->
  forall outs fn count i acc w' r,
    fold_termination do' outs fn i count acc w = (w', r) -> w' = w.
Proof.
  intros Hdo outs fn count.
  induction count as [|count IH]; intros i acc w' r; cbn [fold_termination].
  - by intros [= <- _].
  - unfold bind, index. destruct (outs !! i) as [outlet|]; cbn.
    2: { by intros [= <- _]. }
    destruct (do' outlet TerminationObj w) as [w1 r1] eqn:Hout.
    apply Hdo in Hout as ->.
    destruct r1 as [v| |]; try (by intros [= <- _]).
    unfold lift. destruct (fn acc v) as [acc1| |]; try (by intros [= <- _]).
    apply IH.
Qed.

Lemma do_downstream_marker_keeps_store (do' : pyobj -> payload -> M value)
    self w w' r :
  (forall o w' r, do' o TerminationObj w = (w', r) -> w' = w) ->
  _do_downstream do' self TerminationObj w = (w', r) -> w' = w.
Proof.
  intros Hdo. unfold _do_downstream, bind, get_node.
  destruct (nodes w !! self) as [n|]; [|by intros [= <- _]].
  unfold index. destruct (outlets n !! 0%nat) as [outlet0|]; cbn.
  2: { by intros [= <- _]. }
  destruct (do' outlet0 TerminationObj w) as [w1 r1] eqn:Hout.
  apply Hdo in Hout as ->.
  destruct r1 as [v| |]; try (by intros [= <- _]).
  by apply fold_termination_keeps_store.
Qed.

(** X20.  In a graph without [JoinWithTable], handing the marker to a node
    changes nothing, whatever the shape of the graph and however the call
    ends: no accumulator, no queue and no outlet list is touched, so the
    marker can be handed over again and gives the same answer. *)
Theorem marker_changes_nothing fuel o w w' r :
  join_free w ->
  do_ fuel o TerminationObj w = (w', r) ->
  w' = w /\ do_ fuel o TerminationObj w' = (w', r).
Proof.
  intros Hfree Hdo.
  assert (Hsame : forall fuel o w' r,
             do_ fuel o TerminationObj w = (w', r) -> w' = w).
  { clear fuel o w' r Hdo.
    induction fuel as [|fuel IH]; intros o w' r; cbn [do_].
    - by intros [= <- _].
    - destruct o as [id|items]; [|by intros [= <- _]].
      unfold bind at 1, get_node.
      destruct (nodes w !! id) as [n|] eqn:Hn; [|by intros [= <- _]].
      pose proof (Hfree id n Hn) as Hcls.
      destruct (cls n) as [st|fn|fn|fn|fn result|] eqn:Hc; try done;
        cbn [UnaryFunctionFlow_do];
        try (by intros [= <- _]);
        try (by apply do_downstream_marker_keeps_store).
      unfold Reduce_do, bind, get_node. rewrite Hn, Hc.
      by intros [= <- _]. }
  pose proof (Hsame _ _ _ _ Hdo) as ->. by split.
Qed.

End MarkerFacts.


(** X19 on [JoinWithTable] over [Reduce(7, add)] with the record
    [{"age": 42}] for every key: the elements 1 and 2 arrive and the
    accumulator is 10. *)
Lemma JoinWithTable_joins_in_order_witness :
  exists w',
    (feed (@do_ sample_lib 4 (PNode 1)) [VInt 1; VInt 2] ;;
     @do_ sample_lib 4 (PNode 1) TerminationObj)
      (join_store (mkResponse 200 body_age))
    = (w', Returns VNone) /\
    accumulator_of w' 2 = Some (VInt 10) /\
    join_runtime_of w' 1
    = Some (mkJoinRuntime SessionClosed [] (TaskDone None)).
Proof.
  exact (@JoinWithTable_joins_in_order sample_lib 2 1 2 py_identity
           py_keep_element (fun _ => Returns (mkResponse 200 body_age))
           default_termination_result_fn py_add []
           default_termination_result_fn [VInt 1; VInt 2]
           (join_store (mkResponse 200 body_age)) (VInt 7)
           [VInt 1; VInt 2] (VInt 10) eq_refl eq_refl eq_refl eq_refl).
Defined.

Lemma chain_store_join_free : join_free chain_store.
Proof.
  intros id n Hn. apply elem_of_list_to_map_2 in Hn.
  repeat (apply elem_of_cons in Hn as [[= -> ->]|Hn]; [done|]).
  by apply elem_of_nil in Hn.
Qed.

(** X20 on [FlatMap, Filter, Reduce]: the marker leaves the store as it
    is. *)
Lemma marker_changes_nothing_witness :
  fst (@do_ sample_lib 3 (PNode 0) TerminationObj chain_store) = chain_store.
Proof.
  exact (proj1 (@marker_changes_nothing sample_lib 3 (PNode 0) chain_store
                  (fst (@do_ sample_lib 3 (PNode 0) TerminationObj
                          chain_store))
                  (snd (@do_ sample_lib 3 (PNode 0) TerminationObj
                          chain_store))
                  chain_store_join_free
                  ltac:(by destruct (@do_ sample_lib 3 (PNode 0)
                                       TerminationObj chain_store)))).
Defined.
(** ** A session in which an element fails, under every schedule *)

Lemma stream_split_put pre bad post done q element pending :
  stream_split pre bad post done q (element :: pending) ->
  stream_split pre bad post done (q ++ [element]) pending.
Proof.
  intros (later & Hpre & Hstream). exists later. split; [done|].
  by rewrite Hstream, <- !app_assoc.
Qed.

Lemma stream_split_next pre bad post done x q pending :
  stream_split pre bad post done (Elem x :: q) pending ->
  (exists later, pre = done ++ x :: later /\
                 stream_split pre bad post (done ++ [x]) q pending) \/
  (done = pre /\ x = bad).
Proof.
  intros (later & Hpre & Hstream). subst pre.
  pose proof Hstream as Heq.
  rewrite <- app_assoc, map_app, <- app_assoc in Heq.
  apply app_inv_head in Heq.
  destruct later as [|y later']; cbn in Heq; injection Heq as <- _.
  - right. by rewrite app_nil_r.
  - left. exists later'. split; [done|]. exists later'.
    split; [by rewrite <- app_assoc|].
    rewrite Hstream, map_app, <- !app_assoc. done.
Qed.

Lemma stream_split_no_marker pre bad post done q pending :
  ~ stream_split pre bad post done (TerminationObj :: q) pending.
Proof.
  intros (later & -> & Heq).
  rewrite <- app_assoc, map_app, <- app_assoc in Heq.
  apply app_inv_head in Heq.
  by destruct later.
Qed.

Lemma stream_split_not_over pre bad post done :
  ~ stream_split pre bad post done [] [].
Proof.
  intros (later & -> & Heq).
  rewrite <- app_assoc, map_app, <- app_assoc in Heq.
  apply app_inv_head in Heq.
  by destruct later.
Qed.

Lemma caller_at_nil pending : caller_at pending [] -> pending = [].
Proof.
  intros Hat. inversion Hat as [pending0 Hnil Hp| |].
  by destruct pending.
Qed.

Section RefinementFacts.
Context `{PythonLib}.

(** The turn taken statement by statement, with no move of the caller in
    between, is the turn taken as one move. *)
Lemma whole_turn_is_worker_step fuel self st outs trf w :
  nodes w !! self = Some (mkNode (Source st) outs trf) ->
  (src_thread st = InLoop -> src_termination_future st = Some Pending) ->
  whole_turn fuel self w = worker_step fuel self w.
Proof.
  intros Hn Hfut. unfold whole_turn.
  destruct (src_thread st) eqn:Hpc.
  - unfold worker_step, loop_step.
    by rewrite (get_source_found _ _ _ _ _ Hn), Hpc.
  - rewrite (loop_step_Starting _ _ _ _ _ Hn fuel Hpc).
    by rewrite (worker_step_Starting _ _ _ _ _ _ Hn Hpc).
  - specialize (Hfut eq_refl).
    destruct (src_q st) as [|element rest] eqn:Hq.
    { rewrite (loop_step_get_waits _ _ _ _ _ Hn fuel Hpc Hq).
      unfold worker_step.
      by rewrite (get_source_found _ _ _ _ _ Hn), Hpc, Hq. }
    destruct (worker_step_InLoop fuel self st outs trf element rest w Hn Hpc
                Hq Hfut) as (w1 & r1 & Hdown & Hn1 & ->).
    rewrite (loop_step_get _ _ _ _ _ Hn fuel element rest Hpc Hq).
    set (wq := with_node w self (mkNode (Source (with_q st rest)) outs trf))
      in *.
    assert (Hnq : nodes wq !! self
                  = Some (mkNode (Source (with_q st rest)) outs trf))
      by apply with_node_lookup.
    cbn [finish_turn].
    destruct r1 as [result|e|].
    + rewrite (loop_step_Holding _ _ _ _ _ Hnq fuel element Hpc).
      unfold _run_loop_try. rewrite (bind_returns _ _ _ _ _ Hdown).
      destruct element as [v|].
      * rewrite !bind_ret_l. cbn [is_termination ret].
        rewrite (bind_returns _ _ _ _ _ (get_source_found _ _ _ _ _ Hn1)).
        rewrite (bind_returns _ _ _ _ _ (set_source_found _ _ _ _ _ _ Hn1)).
        cbn [finish_turn is_termination ret].
        unfold with_thread, with_q. cbn. by rewrite Hfut.
      * rewrite (bind_returns _ _ _ _ _
                   (set_result_pending _ _ _ _ _ result Hn1 Hfut)).
        cbn [is_termination ret].
        erewrite bind_returns by (eapply get_source_found, with_node_lookup).
        erewrite bind_returns by (eapply set_source_found, with_node_lookup).
        by rewrite with_node_twice.
    + rewrite (loop_step_Holding_raises _ _ _ _ _ Hnq fuel element w1 e Hpc
                 Hdown).
      rewrite (loop_step_Caught _ _ _ _ _ Hn1 fuel e Hpc).
      set (wr := with_node w1 self _).
      assert (Hnr : nodes wr !! self
                    = Some (mkNode (Source (with_ex (with_q st rest) (Some e)))
                                   outs trf)) by apply with_node_lookup.
      rewrite (loop_step_Recorded _ _ _ _ _ Hnr fuel Hpc).
      change (src_q (with_ex (with_q st rest) (Some e))) with rest.
      destruct rest as [|y rest']; cbn [is_nil].
      * rewrite (loop_step_Drained _ _ _ _ _ Hnr fuel Hpc Hfut).
        unfold wr. by rewrite with_node_twice.
      * rewrite (loop_step_Draining _ _ _ _ _ Hnr fuel y rest' Hpc eq_refl).
        unfold wr. rewrite with_node_twice.
        erewrite loop_step_Drained;
          [|apply with_node_lookup|exact Hpc|exact Hfut].
        by rewrite with_node_twice.
    + rewrite (loop_step_Holding _ _ _ _ _ Hnq fuel element Hpc).
      unfold _run_loop_try, bind at 1. by rewrite Hdown.
  - destruct (src_termination_q st) as [|t tq] eqn:Htq.
    + rewrite (loop_step_LoopExited _ _ _ _ _ Hn fuel Hpc Htq).
      by rewrite (worker_step_LoopExited _ _ _ _ _ _ Hn Hpc Htq).
    + unfold worker_step, loop_step.
      by rewrite (get_source_found _ _ _ _ _ Hn), Hpc, Htq.
  - rewrite (loop_step_ThreadFinished _ _ _ _ _ Hn fuel AtGet Hpc).
    by rewrite (worker_step_ThreadFinished _ _ _ _ _ _ Hn Hpc).
  - unfold worker_step, loop_step.
    by rewrite (get_source_found _ _ _ _ _ Hn), Hpc.
Qed.

End RefinementFacts.
Section FailingPhase.
Variables (pre : list value) (bad : value) (post : list value) (e : exn).

#[local] Abbreviation phase := (failing_phase pre bad post e).

(** What the phases tell of a caller who has a statement to execute. *)
Lemma failing_phase_caller st pc op ops pending done :
  phase st pc (op :: ops) pending done ->
  (src_ex st = None \/ src_ex st = Some e) /\ caller_at pending (op :: ops).
Proof.
  unfold failing_phase, caller_before, caller_after.
  destruct (src_thread st), pc; try done;
    intros [[Hex Hat] _]; (split; [auto|]);
    first [exact Hat | by destruct Hat].
Qed.

(** The caller's check finds nothing. *)
Lemma failing_phase_check st pc ops pending done :
  phase st pc (RaiseOnError :: ops) pending done ->
  src_ex st = None ->
  caller_at pending ops ->
  phase st pc ops pending done.
Proof.
  unfold failing_phase, caller_before, caller_after. intros Hphase Hex Hat.
  destruct (src_thread st), pc; try done;
    destruct Hphase as [[Hex' _] Hrest]; try congruence;
    (split; [by split|exact Hrest]).
Qed.

(** The caller's check finds the failure. *)
Lemma failing_phase_raise st pc op ops pending done :
  phase st pc (op :: ops) pending done ->
  src_ex st = Some e ->
  phase st pc [] pending done.
Proof.
  unfold failing_phase, caller_before, caller_after, put_has_room.
  intros Hphase Hex.
  destruct (src_thread st), pc; try done;
    destruct Hphase as [[Hex' _] Hrest]; try congruence;
    (split; [split; [done|by left]|]);
    repeat match goal with
           | H : _ /\ _ |- _ => destruct H
           end;
    repeat split; try done.
Qed.

(** The caller's [put] finds room. *)
Lemma failing_phase_put st pc element ops pending done :
  phase st pc (QPut element :: ops) (element :: pending) done ->
  caller_at pending ops ->
  (forall x rest, ops <> QPut x :: rest) ->
  phase (with_q st (src_q st ++ [element])) pc ops pending done.
Proof.
  unfold failing_phase, caller_before, caller_after, put_has_room.
  intros Hphase Hat Hcheck. cbn [src_thread with_q src_ex src_q
                                  src_termination_future].
  destruct (src_thread st), pc; try done;
    destruct Hphase as [[Hex _] Hrest];
    (split; [split; [done|by auto]|]);
    repeat match goal with
           | H : _ /\ _ |- _ => destruct H
           end;
    repeat split; try done;
    try (by apply stream_split_put);
    try (by intros x rest ?%Hcheck);
    try (by destruct (src_q st)).
  match goal with
  | |- stream_split _ _ _ _ (?x :: _ ++ _) _ =>
      by apply (stream_split_put pre bad post done (x :: src_q st))
  end.
Qed.

End FailingPhase.
Section FailingFacts.
Context `{PythonLib}.
Variables (self head last : nat) (stages : list stage).
Variables (g : callable2) (acc0 : value).
Variables (pre : list value) (bad : value) (post : list value) (e : exn).
Variables (ys_pre : list value) (acc_pre : value).
Hypothesis Hpre_items :
  each_items (chain_items stages) pre = Returns ys_pre.
Hypothesis Hpre_fold : fold_elements g acc0 ys_pre = Returns acc_pre.
Hypothesis Hbad : fails_clean stages bad e.

#[local] Abbreviation inv :=
  (failing_inv self head last stages g acc0 pre bad post e).

Lemma threads_measure_found w pc ops st outs trf :
  nodes w !! self = Some (mkNode (Source st) outs trf) ->
  threads_measure self (w, pc, ops)
  = (3 * length ops + 2 * length (src_q st)
     + turn_distance (src_thread st) pc)%nat.
Proof. intros Hn. unfold threads_measure, source_of. by rewrite Hn. Qed.

Lemma chain_fails_any stages' : forall fuel head' w x w' r,
  is_chain w head' stages' last ->
  fails_clean stages' x e ->
  do_ fuel (PNode head') (Elem x) w = (w', r) ->
  r <> OutOfFuel ->
  w' = w /\ r = Raises e.
Proof.
  induction stages' as [|s stages' IH];
    intros fuel head' w x w' r Hchain Hfails Hdo Hr; [done|].
  destruct fuel as [|fuel]; [by injection Hdo as _ <-|].
  destruct Hchain as (next & trf0 & Hhead & Hrest).
  destruct Hfails as [Hraise|(y & Hitems & Hfails)].
  - rewrite (do_stage_raises _ _ _ _ _ _ _ _ Hhead Hraise) in Hdo.
    by injection Hdo as <- <-.
  - rewrite (do_stage_element _ _ _ _ _ _ _ _ Hhead Hitems) in Hdo.
    cbn [feed] in Hdo. unfold bind in Hdo.
    destruct (do_ fuel (PNode next) (Elem y) w) as [w1 r1] eqn:Hnext.
    assert (Hr1 : r1 <> OutOfFuel).
    { intros ->. by injection Hdo as _ <-. }
    destruct (IH fuel next w y w1 r1 Hrest Hfails Hnext Hr1) as [-> ->].
    by injection Hdo as <- <-.
Qed.

Lemma failing_caller_step w w' pc op ops r :
  inv (w, pc, op :: ops) ->
  exec_op self op w = Some (w', r) ->
  (r = Returns tt /\ inv (w', pc, ops) /\
   (threads_measure self (w', pc, ops)
    < threads_measure self (w, pc, op :: ops))%nat) \/
  (r = Raises (execution_error e) /\ inv (w', pc, []) /\
   (threads_measure self (w', pc, [])
    < threads_measure self (w, pc, op :: ops))%nat).
Proof.
  intros (st & trf_s & outs & trf & acc & ys & pending & done & Hn & Hchain
          & Hlast & Hitems & Hfold & Hbs & Hlen & Htq & Hphase) Hexec.
  assert (Hne : self <> last) by (intros ->; congruence).
  destruct (failing_phase_caller _ _ _ _ _ _ _ _ _ _ Hphase) as [Hex Hat].
  assert (Hcheck : op = RaiseOnError -> caller_at pending ops ->
            (r = Returns tt /\ inv (w', pc, ops) /\
             (threads_measure self (w', pc, ops)
              < threads_measure self (w, pc, op :: ops))%nat) \/
            (r = Raises (execution_error e) /\ inv (w', pc, []) /\
             (threads_measure self (w', pc, [])
              < threads_measure self (w, pc, op :: ops))%nat)).
  { intros -> Hat'. destruct Hex as [Hex|Hex].
    - rewrite (RaiseOnError_clear _ _ _ _ _ Hn Hex) in Hexec.
      injection Hexec as <- <-. left. split; [done|]. split.
      + exists st, trf_s, outs, trf, acc, ys, pending, done.
        repeat (split; [done|]).
        by apply failing_phase_check.
      + rewrite !(threads_measure_found _ _ _ _ _ _ Hn). cbn [length]. lia.
    - rewrite (RaiseOnError_recorded _ _ _ _ _ _ Hn Hex) in Hexec.
      injection Hexec as <- <-. right. split; [done|]. split.
      + exists st, trf_s, outs, trf, acc, ys, pending, done.
        repeat (split; [done|]).
        by eapply failing_phase_raise.
      + rewrite !(threads_measure_found _ _ _ _ _ _ Hn). cbn [length]. lia. }
  destruct (caller_at_inv _ _ _ Hat)
    as [[-> [(element & pending' & -> & ->)| ->]]
       |(element & pending' & -> & -> & ->)].
  - apply Hcheck; [done|constructor].
  - apply Hcheck; [done|constructor].
  - destruct (Nat.lt_ge_cases (length (src_q st)) (buffer_size st))
      as [Hroom|Hfull].
    2: { by rewrite (QPut_full _ _ _ _ _ _ Hn Hfull) in Hexec. }
    rewrite (QPut_room _ _ _ _ _ _ Hn Hroom) in Hexec.
    injection Hexec as <- <-. left. split; [done|]. split.
    + exists (with_q st (src_q st ++ [element])), trf_s, outs, trf, acc, ys,
        pending', done.
      split; [apply with_node_lookup|].
      split. { eapply is_chain_with_node; [exact Hn|by intros []|done]. }
      split. { by rewrite with_node_lookup_ne. }
      repeat (split; [done|]).
      split. { cbn. rewrite length_app. cbn. lia. }
      split; [exact Htq|].
      apply failing_phase_put; [done|constructor|done].
    + rewrite (threads_measure_found _ _ _ _ _ _ Hn).
      rewrite (threads_measure_found _ _ _ _ _ _ (with_node_lookup _ _ _)).
      cbn. rewrite length_app. cbn. lia.
Qed.

Ltac measure_of Hn :=
  rewrite (threads_measure_found _ _ _ _ _ _ Hn);
  erewrite threads_measure_found by apply with_node_lookup;
  cbn;
  repeat match goal with
         | Heq : src_thread _ = _ |- _ => rewrite Heq
         | Heq : src_q _ = _ |- _ => rewrite Heq
         end;
  cbn; lia.

Lemma failing_worker_step w w' pc ops fuel r :
  inv (w, pc, ops) ->
  loop_step fuel self pc w = Some (w', r) ->
  r <> OutOfFuel ->
  exists pc',
    r = Returns pc' /\ inv (w', pc', ops) /\
    (threads_measure self (w', pc', ops)
     < threads_measure self (w, pc, ops))%nat.
Proof.
  intros (st & trf_s & outs & trf & acc & ys & pending & done & Hn & Hchain
          & Hlast & Hitems & Hfold & Hbs & Hlen & Htq & Hphase) Hw Hr.
  assert (Hne : self <> last) by (intros ->; congruence).
  assert (Hkeep : forall st',
             is_chain (with_node w self
                         (mkNode (Source st') [PNode head] trf_s))
                      head stages last /\
             nodes (with_node w self (mkNode (Source st') [PNode head] trf_s))
               !! last = Some (mkNode (Reduce g acc) outs trf)).
  { intros st'. split.
    - eapply is_chain_with_node; [exact Hn|by intros []|done].
    - by rewrite with_node_lookup_ne. }
  unfold failing_phase in Hphase.
  destruct (src_thread st) eqn:Hthread; try done;
    destruct pc as [|element|ex| | |]; try done.
  - (* the thread starts the loop *)
    destruct Hphase as ([Hex Hat] & Hstream).
    rewrite (loop_step_Starting _ _ _ _ _ Hn fuel Hthread) in Hw.
    injection Hw as <- <-. exists AtGet. split; [done|].
    split; [|measure_of Hn].
    eexists _, trf_s, outs, trf, acc, ys, pending, done.
    split; [apply with_node_lookup|].
    split; [apply Hkeep|]. split; [apply Hkeep|].
    split; [done|]. split; [done|]. split; [done|]. split; [done|].
    split; [done|]. unfold failing_phase, caller_before. by cbn.
  - (* the worker takes the next entry *)
    destruct Hphase as ([Hex Hat] & Hfut & Hstream).
    destruct (src_q st) as [|element rest] eqn:Hq.
    { by rewrite (loop_step_get_waits _ _ _ _ _ Hn fuel Hthread Hq) in Hw. }
    rewrite (loop_step_get _ _ _ _ _ Hn fuel element rest Hthread Hq) in Hw.
    injection Hw as <- <-. exists (Holding element). split; [done|].
    split; [|measure_of Hn].
    eexists _, trf_s, outs, trf, acc, ys, pending, done.
    split; [apply with_node_lookup|].
    split; [apply Hkeep|]. split; [apply Hkeep|].
    split; [done|]. split; [done|]. split; [done|].
    split. { cbn in *. lia. }
    split; [by cbn; rewrite ?Hthread|].
    unfold failing_phase, caller_before. cbn. by rewrite Hthread.
  - (* the worker processes the element it holds *)
    destruct Hphase as ([Hex Hat] & Hfut & Hstream).
    rewrite (loop_step_Holding _ _ _ _ _ Hn fuel element Hthread) in Hw.
    destruct element as [x|].
    2: { by apply stream_split_no_marker in Hstream. }
    unfold _run_loop_try, bind at 1 in Hw.
    rewrite (do_downstream_single_outlet _ _ _ head x w Hn eq_refl) in Hw.
    destruct (do_ fuel (PNode head) (Elem x) w) as [wd rd] eqn:Hdo.
    assert (Hrd : rd <> OutOfFuel).
    { intros ->. by injection Hw as _ <-. }
    destruct (stream_split_next _ _ _ _ _ _ _ Hstream)
      as [(later & Hpre & Hstream')|[-> ->]].
    + (* an element of [pre] goes through *)
      pose proof Hpre_items as Hsplit. rewrite Hpre in Hsplit.
      apply each_items_app in Hsplit as (ys1 & ys2 & Hys1 & Hys2 & Hys).
      rewrite Hitems in Hys1. injection Hys1 as <-.
      cbn [each_items] in Hys2.
      destruct (chain_items stages x) as [a| |] eqn:Hx; try done.
      cbn [obind] in Hys2.
      destruct (each_items (chain_items stages) later) as [b| |]; try done.
      injection Hys2 as <-.
      pose proof Hpre_fold as Hfolds. rewrite Hys in Hfolds.
      rewrite fold_elements_app, Hfold in Hfolds. cbn [obind] in Hfolds.
      rewrite fold_elements_app in Hfolds.
      destruct (fold_elements g acc a) as [acc1| |] eqn:Hacc1; try done.
      assert (Hfeed : feed (do_ fuel (PNode head)) [x] w
                      = (wd, match rd with
                             | Returns _ => Returns tt
                             | Raises e => Raises e
                             | OutOfFuel => OutOfFuel
                             end)).
      { cbn [feed]. unfold bind. rewrite Hdo. by destruct rd. }
      assert (Hone : each_items (chain_items stages) [x] = Returns a).
      { cbn [each_items]. rewrite Hx. cbn. by rewrite app_nil_r. }
      assert (Hrd' : match rd with
                     | Returns _ => Returns tt
                     | Raises e => Raises e
                     | OutOfFuel => OutOfFuel
                     end <> OutOfFuel) by (by destruct rd).
      destruct (chain_feed_any stages fuel head last g outs trf w acc [x] a
                  acc1 _ _ Hchain Hlast Hone Hacc1 Hfeed Hrd')
        as [Hwd Hrt].
      destruct rd as [v| |]; try done. subst wd.
      cbn [is_termination] in Hw.
      assert (Hn1 : nodes (with_node w last (mkNode (Reduce g acc1) outs trf))
                      !! self
                    = Some (mkNode (Source st) [PNode head] trf_s))
        by (by rewrite with_node_lookup_ne).
      rewrite !bind_ret_l in Hw. unfold ret at 1 in Hw. cbv beta iota in Hw.
      rewrite (bind_returns _ _ _ _ _ (get_source_found _ _ _ _ _ Hn1)) in Hw.
      rewrite (bind_returns _ _ _ _ _ (set_source_found _ _ _ _ _ _ Hn1))
        in Hw.
      injection Hw as <- <-. exists AtGet. split; [done|]. split.
      * eexists _, trf_s, outs, trf, acc1, (ys ++ a), pending, (done ++ [x]).
        split; [apply with_node_lookup|].
        split.
        { eapply is_chain_with_node; [exact Hn1|by intros []|].
          eapply is_chain_with_node; [exact Hlast|by intros []|done]. }
        split.
        { rewrite with_node_lookup_ne by done. apply with_node_lookup. }
        split. { by apply each_items_snoc. }
        split. { by rewrite fold_elements_app, Hfold. }
        split; [done|]. split; [done|].
        split; [by cbn; rewrite ?Hthread|].
        unfold failing_phase, caller_before. by cbn.
      * rewrite (threads_measure_found _ _ _ _ _ _ Hn).
        erewrite threads_measure_found by apply with_node_lookup.
        cbn. rewrite Hthread. cbn. lia.
    + (* the element [bad] *)
      destruct (chain_fails_any stages fuel head w bad wd rd Hchain
                  Hbad Hdo Hrd) as [-> ->].
      injection Hw as <- <-. exists (Caught e). split; [done|]. split.
      * exists st, trf_s, outs, trf, acc, ys, pending, pre.
        do 7 (split; [done|]). split; [by rewrite Hthread|].
        unfold failing_phase, caller_before. by rewrite Hthread.
      * rewrite !(threads_measure_found _ _ _ _ _ _ Hn).
        rewrite Hthread. cbn. lia.
  - (* [self._ex = ex] *)
    destruct Hphase as ([Hex Hat] & Hfut & -> & ->).
    rewrite (loop_step_Caught _ _ _ _ _ Hn fuel e Hthread) in Hw.
    injection Hw as <- <-. exists Recorded. split; [done|].
    split; [|measure_of Hn].
    eexists _, trf_s, outs, trf, acc, ys, pending, pre.
    split; [apply with_node_lookup|].
    split; [apply Hkeep|]. split; [apply Hkeep|].
    split; [done|]. split; [done|]. split; [done|]. split; [done|].
    split; [by cbn; rewrite ?Hthread|].
    unfold failing_phase, caller_after. cbn. rewrite Hthread. auto.
  - (* the test [self._q.empty()] *)
    destruct Hphase as ([Hex Hcaller] & Hfut & ->).
    rewrite (loop_step_Recorded _ _ _ _ _ Hn fuel Hthread) in Hw.
    injection Hw as <- <-. eexists. split; [done|]. split.
    + exists st, trf_s, outs, trf, acc, ys, pending, pre.
      do 7 (split; [done|]). split; [by rewrite Hthread|].
      unfold failing_phase. rewrite Hthread.
      destruct (src_q st) eqn:Hq; cbn [is_nil].
      * do 3 (split; [done|]). intros x rest _. rewrite Hq. cbn. lia.
      * do 3 (split; [done|]). done.
    + rewrite !(threads_measure_found _ _ _ _ _ _ Hn). rewrite Hthread.
      destruct (src_q st); cbn; lia.
  - (* the [get] after a queue found not empty *)
    destruct Hphase as ([Hex Hcaller] & Hfut & -> & Hsome).
    destruct (src_q st) as [|element rest] eqn:Hq; [done|].
    rewrite (loop_step_Draining _ _ _ _ _ Hn fuel element rest Hthread Hq)
      in Hw.
    injection Hw as <- <-. exists Drained. split; [done|].
    split; [|measure_of Hn].
    eexists _, trf_s, outs, trf, acc, ys, pending, pre.
    split; [apply with_node_lookup|].
    split; [apply Hkeep|]. split; [apply Hkeep|].
    split; [done|]. split; [done|]. split; [done|].
    split. { cbn in *. lia. }
    split; [by cbn; rewrite ?Hthread|].
    unfold failing_phase, caller_after, put_has_room. cbn. rewrite Hthread.
    do 3 (split; [done|]). intros x rest' _. cbn in Hlen. lia.
  - (* [set_result(None)] and [break] *)
    destruct Hphase as ([Hex Hcaller] & Hfut & -> & Hroom).
    rewrite (loop_step_Drained _ _ _ _ _ Hn fuel Hthread Hfut) in Hw.
    injection Hw as <- <-. exists AtGet. split; [done|].
    split; [|measure_of Hn].
    eexists _, trf_s, outs, trf, acc, ys, pending, pre.
    split; [apply with_node_lookup|].
    split; [apply Hkeep|]. split; [apply Hkeep|].
    split; [done|]. split; [done|]. split; [done|]. split; [done|].
    split; [done|]. unfold failing_phase, caller_after. by cbn.
  - (* the thread leaves its entry in [_termination_q] *)
    destruct Hphase as ([Hex Hcaller] & Hfut & -> & Hroom).
    rewrite (loop_step_LoopExited _ _ _ _ _ Hn fuel Hthread Htq) in Hw.
    injection Hw as <- <-. exists AtGet. split; [done|].
    split; [|measure_of Hn].
    eexists _, trf_s, outs, trf, acc, ys, pending, pre.
    split; [apply with_node_lookup|].
    split; [apply Hkeep|]. split; [apply Hkeep|].
    split; [done|]. split; [done|]. split; [done|]. split; [done|].
    split; [by cbn; rewrite Hex|].
    unfold failing_phase, caller_after. by cbn.
  - by rewrite (loop_step_ThreadFinished _ _ _ _ _ Hn fuel AtGet Hthread)
      in Hw.
Qed.

Lemma failing_step s s' :
  inv s -> fine_step self s s' ->
  inv s' /\ (threads_measure self s' < threads_measure self s)%nat.
Proof.
  intros Hinv Hstep.
  destruct Hstep as [w w' pc op ops Hexec|w w' pc op ops e' Hexec
                    |w w' pc pc' ops fuel Hw|w w' pc ops fuel e' Hw].
  - by destruct (failing_caller_step _ _ _ _ _ _ Hinv Hexec)
      as [(_ & ? & ?)|(? & _)].
  - by destruct (failing_caller_step _ _ _ _ _ _ Hinv Hexec)
      as [(? & _)|(_ & ? & ?)].
  - destruct (failing_worker_step _ _ _ _ _ _ Hinv Hw ltac:(done))
      as (pc'' & [= <-] & ? & ?).
    done.
  - by destruct (failing_worker_step _ _ _ _ _ _ Hinv Hw ltac:(done))
      as (pc'' & ? & _).
Qed.

Lemma failing_steps n s s' :
  inv s -> nsteps (fine_step self) n s s' ->
  inv s' /\ (n + threads_measure self s' <= threads_measure self s)%nat.
Proof.
  intros Hinv Hsteps. induction Hsteps as [s|n s1 s2 s3 Hstep Hsteps IH].
  - split; [done|lia].
  - destruct (failing_step _ _ Hinv Hstep) as [Hinv2 Hlt].
    destruct (IH Hinv2) as [Hinv3 Hle]. split; [done|lia].
Qed.

Lemma failing_starts st trf_s outs trf w :
  nodes w !! self = Some (mkNode (Source st) [PNode head] trf_s) ->
  src_thread st = Starting ->
  src_q st = [] ->
  src_termination_q st = [] ->
  src_ex st = None ->
  (0 < buffer_size st)%nat ->
  is_chain w head stages last ->
  nodes w !! last = Some (mkNode (Reduce g acc0) outs trf) ->
  inv (w, AtGet, session_ops (pre ++ bad :: post)) /\
  threads_measure self (w, AtGet, session_ops (pre ++ bad :: post))
  = (9 * length (pre ++ bad :: post) + 16)%nat.
Proof.
  intros Hn Hpc Hq Htq Hex Hbs Hchain Hlast. split.
  - exists st, trf_s, outs, trf, acc0, [],
      (map Elem (pre ++ bad :: post) ++ [TerminationObj]), [].
    do 5 (split; [done|]). split; [done|].
    rewrite Hq, Hpc. split; [cbn; lia|]. split; [done|].
    unfold failing_phase, caller_before, stream_split. rewrite Hpc, Hq.
    split; [split; [done|]|by exists pre].
    rewrite session_ops_stream. constructor.
  - rewrite (threads_measure_found _ _ _ _ _ _ Hn).
    rewrite Hq, Hpc, session_ops_stream. cbn [length turn_distance].
    assert (Hlen : forall l,
               length (concat (map _emit l)) = (3 * length l)%nat).
    { induction l as [|p l IH]; [done|]. cbn. rewrite IH. lia. }
    rewrite Hlen, length_app, length_map. cbn. lia.
Qed.

(** The worker can process the element it holds. *)
Lemma failing_worker_can_process w ops element :
  inv (w, Holding element, ops) ->
  exists w' pc',
    loop_step (S (length stages)) self (Holding element) w
    = Some (w', Returns pc').
Proof.
  intros (st & trf_s & outs & trf & acc & ys & pending & done & Hn & Hchain
          & Hlast & Hitems & Hfold & Hbs & Hlen & Htq & Hphase).
  unfold failing_phase in Hphase.
  destruct (src_thread st) eqn:Hthread; try done.
  destruct Hphase as ([Hex Hat] & Hfut & Hstream).
  assert (Hne : self <> last) by (intros ->; congruence).
  rewrite (loop_step_Holding _ _ _ _ _ Hn _ element Hthread).
  destruct element as [x|].
  2: { by apply stream_split_no_marker in Hstream. }
  unfold _run_loop_try, bind at 1.
  rewrite (do_downstream_single_outlet _ _ _ head x w Hn eq_refl).
  destruct (stream_split_next _ _ _ _ _ _ _ Hstream)
    as [(later & Hpre & Hstream')|[-> ->]].
  - pose proof Hpre_items as Hsplit. rewrite Hpre in Hsplit.
    apply each_items_app in Hsplit as (ys1 & ys2 & Hys1 & Hys2 & Hys).
    rewrite Hitems in Hys1. injection Hys1 as <-.
    cbn [each_items] in Hys2.
    destruct (chain_items stages x) as [a| |] eqn:Hx; try done.
    cbn [obind] in Hys2.
    destruct (each_items (chain_items stages) later) as [b| |]; try done.
    injection Hys2 as <-.
    pose proof Hpre_fold as Hfolds. rewrite Hys in Hfolds.
    rewrite fold_elements_app, Hfold in Hfolds. cbn [obind] in Hfolds.
    rewrite fold_elements_app in Hfolds.
    destruct (fold_elements g acc a) as [acc1| |] eqn:Hacc1; try done.
    assert (Hone : each_items (chain_items stages) [x] = Returns a).
    { cbn [each_items]. rewrite Hx. cbn. by rewrite app_nil_r. }
    pose proof (chain_feed stages (S (length stages)) head last g outs trf w
                  acc [x] a acc1 Hchain Hlast Hone Hacc1 ltac:(lia))
      as Hfeed.
    cbn [feed] in Hfeed. unfold bind in Hfeed.
    destruct (do_ (S (length stages)) (PNode head) (Elem x) w)
      as [wd [v| |]]; try done.
    injection Hfeed as ->.
    rewrite !bind_ret_l. unfold ret at 1. cbv beta iota.
    erewrite bind_returns
      by (eapply get_source_found; by rewrite with_node_lookup_ne).
    erewrite bind_returns
      by (eapply set_source_found; by rewrite with_node_lookup_ne).
    by eexists _, _.
  - rewrite (chain_fails stages (S (length stages)) head last w bad e
               Hchain Hbad ltac:(lia)).
    by eexists _, _.
Qed.

Lemma failing_progress s :
  inv s -> (exists s', fine_step self s s') \/ threads_over self s.
Proof.
  destruct s as [[w pc] ops]. intros Hinv. pose proof Hinv as
    (st & trf_s & outs & trf & acc & ys & pending & done & Hn & Hchain
     & Hlast & Hitems & Hfold & Hbs & Hlen & Htq & Hphase).
  assert (Hworker : forall w' pc',
             loop_step (S (length stages)) self pc w
             = Some (w', Returns pc') ->
             (exists s', fine_step self (w, pc, ops) s') \/
             threads_over self (w, pc, ops)).
  { intros w' pc' Hw. left. eexists. by eapply fine_worker. }
  assert (Hcaller : forall op ops',
             ops = op :: ops' ->
             caller_at pending ops ->
             (op = RaiseOnError \/
              (length (src_q st) < buffer_size st)%nat) ->
             (exists s', fine_step self (w, pc, ops) s') \/
             threads_over self (w, pc, ops)).
  { intros op ops' -> Hat Hcan. left.
    destruct (failing_phase_caller _ _ _ _ _ _ _ _ _ _ Hphase) as [Hex _].
    destruct (caller_at_inv _ _ _ Hat)
      as [[-> _]|(element & pending' & -> & -> & ->)].
    - destruct Hex as [Hex|Hex].
      + eexists. apply fine_caller.
        by apply (RaiseOnError_clear _ _ _ _ _ Hn Hex).
      + eexists. eapply fine_caller_raises.
        by apply (RaiseOnError_recorded _ _ _ _ _ _ Hn Hex).
    - destruct Hcan as [?|Hroom]; [done|].
      eexists. apply fine_caller.
      by apply (QPut_room _ _ _ _ _ _ Hn Hroom). }
  unfold failing_phase in Hphase.
  destruct (src_thread st) eqn:Hthread; try done;
    destruct pc as [|element|ex| | |]; try done.
  - eapply Hworker. by apply (loop_step_Starting _ _ _ _ _ Hn).
  - destruct Hphase as ([Hex Hat] & Hfut & Hstream).
    destruct (src_q st) as [|element rest] eqn:Hq.
    + destruct ops as [|op ops'].
      * apply caller_at_nil in Hat. subst pending.
        by apply stream_split_not_over in Hstream.
      * eapply Hcaller; [done|done|]. right. cbn. lia.
    + eapply Hworker. by apply (loop_step_get _ _ _ _ _ Hn).
  - destruct (failing_worker_can_process w ops element Hinv)
      as (w' & pc' & Hw).
    by eapply Hworker.
  - eapply Hworker. by apply (loop_step_Caught _ _ _ _ _ Hn).
  - eapply Hworker. by apply (loop_step_Recorded _ _ _ _ _ Hn).
  - destruct Hphase as (_ & _ & _ & Hsome).
    destruct (src_q st) as [|element rest] eqn:Hq; [done|].
    eapply Hworker.
    by apply (loop_step_Draining _ _ _ _ _ Hn _ element rest Hthread Hq).
  - destruct Hphase as (_ & Hfut & _).
    eapply Hworker. by apply (loop_step_Drained _ _ _ _ _ Hn).
  - eapply Hworker. by apply (loop_step_LoopExited _ _ _ _ _ Hn).
  - destruct Hphase as ([Hex [->|Hat]] & _ & _ & Hroom).
    + right. split; [done|]. split; [done|]. exists st. split; [|done].
      unfold source_of. by rewrite Hn.
    + destruct ops as [|op ops'].
      * right. split; [done|]. split; [done|]. exists st. split; [|done].
        unfold source_of. by rewrite Hn.
      * eapply Hcaller; [done|done|].
        destruct op as [|element]; [by left|right].
        by eapply Hroom.
Qed.

Lemma failing_answer w pc ops :
  inv (w, pc, ops) ->
  (forall w' r,
      await_termination self w = Some (w', r) ->
      r = Raises (execution_error e) /\
      accumulator_of w last = Some acc_pre) /\
  (threads_over self (w, pc, ops) ->
   exists w',
     await_termination self w = Some (w', Raises (execution_error e))).
Proof.
  intros (st & trf_s & outs & trf & acc & ys & pending & done & Hn & Hchain
          & Hlast & Hitems & Hfold & Hbs & Hlen & Htq & Hphase).
  assert (Hfinished : src_thread st = ThreadFinished ->
            acc = acc_pre /\
            exists w',
              await_termination self w
              = Some (w', Raises (execution_error e))).
  { intros Hthread. unfold failing_phase in Hphase.
    rewrite Hthread in Hphase, Htq. destruct pc; try done.
    destruct Hphase as ([Hex _] & Hfut & -> & _).
    rewrite Hpre_items in Hitems. injection Hitems as <-.
    rewrite Hpre_fold in Hfold. injection Hfold as <-.
    split; [done|]. eexists.
    by apply (await_termination_failed _ _ _ _ _ e [] e Hn). }
  assert (Hwaits : src_thread st <> ThreadFinished ->
                   await_termination self w = None).
  { intros Hthread. apply (await_termination_waits _ _ _ _ _ Hn).
    rewrite Htq. by destruct (src_thread st). }
  split.
  - intros w' r Hawait.
    destruct (src_thread st) eqn:Hthread;
      try (by rewrite Hwaits in Hawait).
    destruct (Hfinished eq_refl) as [-> [w'' Hanswer]].
    rewrite Hanswer in Hawait. injection Hawait as _ <-.
    split; [done|]. unfold accumulator_of. by rewrite Hlast.
  - intros (_ & _ & st' & Hst' & Hthread). unfold source_of in Hst'.
    rewrite Hn in Hst'. injection Hst' as <-.
    by destruct (Hfinished Hthread) as [_ ?].
Qed.

End FailingFacts.
Section FailingTheorem.
Context `{PythonLib}.

(** What [run_moves] does on a schedule is a run of the two threads. *)
Lemma run_moves_sound sched : forall fuel self s raised s' raised',
  run_moves sched fuel self s raised = Some (s', raised') ->
  nsteps (fine_step self) (length sched) s s'.
Proof.
  induction sched as [|m sched IH];
    intros fuel self [[w pc] ops] raised s' raised' Hrun.
  - injection Hrun as <- _. constructor.
  - cbn [run_moves] in Hrun. destruct m.
    + destruct ops as [|op ops]; [done|].
      destruct (exec_op self op w) as [[w1 [[]|e|]]|] eqn:Hexec; try done.
      * eapply nsteps_l; [by apply fine_caller|by eapply IH].
      * eapply nsteps_l; [by eapply fine_caller_raises|by eapply IH].
    + destruct (loop_step fuel self pc w) as [[w1 [pc'|e|]]|] eqn:Hw;
        try done.
      * eapply nsteps_l; [by eapply fine_worker|by eapply IH].
      * eapply nsteps_l; [by eapply fine_worker_dies|by eapply IH].
Qed.

(** X21.  A caller emits [pre], then [bad], then [post], and terminates, on
    a started source over a linear pipeline that ends in a [Reduce]; the
    functions return on the elements of [pre], and [bad] makes one of them
    raise [e] before any item has reached the [Reduce].  The worker moves
    statement by statement ([loop_step]), so that the caller can refill
    the queue while the worker holds an element, and can move between any
    two statements of the [except] clause.  Then, however the moves of
    the two threads are interleaved: one of them can move until the caller
    has returned or raised and the thread has finished, so the caller is
    never left waiting in [put] by the thread that stopped; no run has
    more than [9 * len + 16] moves; the only exception the caller's calls
    raise is the [FlowException] caused by [e]; [await_termination], when
    it returns at all, raises that exception, which it does once the
    session is over; and the accumulator is then the fold over [pre]. *)
Theorem failure_reaches_the_caller
    self head last stages g acc0 pre bad post e ys acc st trf_s outs trf
    w n w' pc' ops' :
  nodes w !! self = Some (mkNode (Source st) [PNode head] trf_s) ->
  src_thread st = Starting ->
  src_q st = [] ->
  src_termination_q st = [] ->
  src_ex st = None ->
  (0 < buffer_size st)%nat ->
  is_chain w head stages last ->
  nodes w !! last = Some (mkNode (Reduce g acc0) outs trf) ->
  each_items (chain_items stages) pre = Returns ys ->
  fold_elements g acc0 ys = Returns acc ->
  fails_clean stages bad e ->
  nsteps (fine_step self) n
    (w, AtGet, session_ops (pre ++ bad :: post)) (w', pc', ops') ->
  (n <= 9 * length (pre ++ bad :: post) + 16)%nat /\
  ((exists s, fine_step self (w', pc', ops') s) \/
   threads_over self (w', pc', ops')) /\
  (forall op ops w'' r,
      ops' = op :: ops -> exec_op self op w' = Some (w'', r) ->
      r = Returns tt \/ r = Raises (execution_error e)) /\
  (forall w'' r,
      await_termination self w' = Some (w'', r) ->
      r = Raises (execution_error e) /\
      accumulator_of w' last = Some acc) /\
  (threads_over self (w', pc', ops') ->
   exists w'',
     await_termination self w' = Some (w'', Raises (execution_error e))).
Proof.
  intros Hn Hpc Hq Htq Hex Hbs Hchain Hlast Hitems Hfold Hbad Hrun.
  destruct (failing_starts self head last stages g acc0 pre bad post e st
              trf_s outs trf w Hn Hpc Hq Htq Hex Hbs Hchain Hlast)
    as [Hinv Hmeasure].
  destruct (failing_steps self head last stages g acc0 pre bad post e ys
              acc Hitems Hfold Hbad n _ _ Hinv Hrun) as [Hinv' Hle].
  split; [lia|]. split; [|split].
  - by eapply (failing_progress self head last stages g acc0 pre bad post e
                 ys acc Hitems Hfold Hbad).
  - intros op ops w'' r -> Hexec.
    destruct (failing_caller_step self head last stages g acc0 pre bad post
                e w' w'' pc' op ops r Hinv' Hexec) as [(? & _)|(? & _)];
      [by left|by right].
  - by apply (failing_answer self head last stages g acc0 pre bad post e ys
                acc Hitems Hfold w' pc' ops').
Qed.

End FailingTheorem.
(** X21 on the session with the elements 1, a string and 5 under
    [blocked_schedule]: after fourteen moves the worker holds the string,
    the queue is full and the caller waits in the [put] of [terminate];
    the worker's [get] in the [except] clause lets it in, [terminate]
    raises, and at the end [await_termination] raises as well. *)
Lemma failure_reaches_the_caller_witness :
  match blocked_point sample_lib with
  | Some (w, pc, ops, _) =>
      pc = Holding (Elem (VStr "x")) /\
      ops = [QPut TerminationObj; RaiseOnError] /\
      exec_op 0 (QPut TerminationObj) w = None
  | None => False
  end /\
  option_map snd (blocked_session sample_lib)
  = Some (Raises (execution_error
                    (TypeError "'>' not supported between 'str' and 'int'")))
  /\
  exists w',
    await_termination 0 (blocked_final sample_lib)
    = Some (w', Raises (execution_error
                          (TypeError
                             "'>' not supported between 'str' and 'int'"))).
Proof.
  split; [by vm_compute|]. split; [by vm_compute|].
  assert (Hrun : blocked_session sample_lib
                 = Some (blocked_final sample_lib, AtGet, [],
                         Raises (execution_error
                                   (TypeError
                                      "'>' not supported between 'str' and 'int'"))))
    by (by vm_compute).
  apply (@run_moves_sound sample_lib blocked_schedule 5 0
           (pipeline_store started, AtGet,
            session_ops [VInt 1; VStr "x"; VInt 5])
           (Returns tt) (blocked_final sample_lib, AtGet, [])) in Hrun.
  destruct (@failure_reaches_the_caller sample_lib 0 1 3 pipeline_stages
              py_add (VInt 0) [VInt 1] (VStr "x") [VInt 5]
              (TypeError "'>' not supported between 'str' and 'int'")
              [VInt 1] (VInt 1) started default_termination_result_fn []
              default_termination_result_fn (pipeline_store started) _
              (blocked_final sample_lib) AtGet []
              eq_refl eq_refl eq_refl eq_refl eq_refl
              ltac:(simpl; lia) (pipeline_store_is_chain started)
              eq_refl eq_refl eq_refl
              ltac:(right; exists (VStr "x"); split; [reflexivity|];
                    by left)
              Hrun) as (_ & _ & _ & _ & Hover).
  apply Hover. split; [done|]. split; [done|].
  eexists. split; [by vm_compute|done].
Defined.
